(** * MarkOver parser: a shallow embedding of [src/lib/markover-parser.ts]

    The TypeScript class [MarkOverParser] is a collection of static, pure
    string functions.  A JavaScript string is a sequence of UTF-16 code
    units, and every index and length the source computes counts code units,
    so a string is modelled as a list of code units ([N]).  Indices are [Z]
    because the source compares them with [-1].

    The Markdown converter [marked.parse] is an external library: it is a
    parameter of the block processor, and every call to it is logged.

    Layout: Part I holds the definitions (string primitives, regular
    expression matchers, then the functions of the class in source order of
    dependency, then the vocabulary of the statements); Part II holds the
    lemmas and theorems about the specification; Part III holds further
    properties of the functions: the page count, documents that paginate
    without loss, the Code Guard round trip, and what the block processor
    does with sibling blocks, nested blocks, code inside blocks and whole
    documents with one block. *)

From Stdlib Require Import String Ascii.
From Stdlib Require Import ZArith NArith List Bool Lia.
Import ListNotations.
Open Scope Z_scope.

(* ================================================================== *)
(** * Part I  -  Definitions                                           *)
(* ================================================================== *)

(** ** Strings as sequences of UTF-16 code units *)

Definition cu := N.
Definition str := list cu.

(** Literal text of the source, written as a Rocq string (ASCII only). *)
Definition u (s : string) : str := map N_of_ascii (list_ascii_of_string s).

(** [s.length] *)
Definition len (s : str) : Z := Z.of_nat (length s).

(** [a === b] on strings *)
Fixpoint str_eqb (a b : str) : bool :=
  match a, b with
  | [], [] => true
  | x :: a', y :: b' => N.eqb x y && str_eqb a' b'
  | _, _ => false
  end.

(** [s.startsWith(p)]; every literal search below is built on it. *)
Fixpoint starts (p s : str) : bool :=
  match p, s with
  | [], _ => true
  | x :: p', y :: s' => N.eqb x y && starts p' s'
  | _ :: _, [] => false
  end.

(** Offset of the first occurrence of [p] in [s]. *)
Fixpoint find_first (p s : str) : option nat :=
  if starts p s then Some O
  else match s with
       | [] => None
       | _ :: s' => option_map S (find_first p s')
       end.

(** Offset of the last occurrence of [p] in [s]. *)
Fixpoint find_last (p s : str) : option nat :=
  match s with
  | [] => if starts p [] then Some O else None
  | _ :: s' =>
      match find_last p s' with
      | Some k => Some (S k)
      | None => if starts p s then Some O else None
      end
  end.

Definition clamp (lo hi x : Z) : Z := Z.max lo (Z.min hi x).

(** [s.substring(a, b)]: both ends clamped to [0, length], swapped when out
    of order. *)
Definition substring (s : str) (a b : Z) : str :=
  let a' := clamp 0 (len s) a in
  let b' := clamp 0 (len s) b in
  let lo := Z.min a' b' in
  let hi := Z.max a' b' in
  firstn (Z.to_nat (hi - lo)) (skipn (Z.to_nat lo) s).

(** [s.substring(a)] *)
Definition substring_from (s : str) (a : Z) : str := substring s a (len s).

(** [s.slice(a, b)]: a negative end counts from the end of the string, and
    the result is empty when the ends are out of order. *)
Definition slice_end (s : str) (x : Z) : Z :=
  if x <? 0 then Z.max (len s + x) 0 else Z.min x (len s).

Definition slice (s : str) (a b : Z) : str :=
  let from := slice_end s a in
  let to := slice_end s b in
  firstn (Z.to_nat (to - from)) (skipn (Z.to_nat from) s).

(** [s.indexOf(p, from)] for a non-empty [p]. *)
Definition indexOf (p s : str) (from : Z) : Z :=
  let k := clamp 0 (len s) from in
  match find_first p (skipn (Z.to_nat k) s) with
  | Some j => k + Z.of_nat j
  | None => -1
  end.

(** [s.lastIndexOf(p)] *)
Definition lastIndexOf (p s : str) : Z :=
  match find_last p s with
  | Some j => Z.of_nat j
  | None => -1
  end.

(** [s.includes(p)] *)
Definition includes (p s : str) : bool :=
  match find_first p s with Some _ => true | None => false end.

(** White space as [String.prototype.trim] and the regular expression class
    [\s] see it: the ECMAScript WhiteSpace and LineTerminator code units. *)
Definition is_space (c : cu) : bool :=
  let c := Z.of_N c in
  ((9 <=? c) && (c <=? 13)) || (c =? 32) || (c =? 160) || (c =? 5760)
  || ((8192 <=? c) && (c <=? 8202)) || (c =? 8232) || (c =? 8233)
  || (c =? 8239) || (c =? 8287) || (c =? 12288) || (c =? 65279).

Fixpoint trimStart (s : str) : str :=
  match s with
  | c :: s' => if is_space c then trimStart s' else s
  | [] => []
  end.

Definition trimEnd (s : str) : str := rev (trimStart (rev s)).

(** [s.trim()] *)
Definition trim (s : str) : str := trimEnd (trimStart s).

(** [!s]: a string is falsy exactly when it is empty. *)
Definition is_empty (s : str) : bool :=
  match s with [] => true | _ :: _ => false end.

(** Length of the longest prefix of [s] whose code units satisfy [f]: what
    a greedy [[...]*] consumes. *)
Fixpoint span_len (f : cu -> bool) (s : str) : nat :=
  match s with
  | c :: s' => if f c then S (span_len f s') else O
  | [] => O
  end.

(** ** Regular expressions

    Every regular expression of the source is compiled by hand into a
    [matcher]: given the text from a candidate position on, it returns the
    length of the match that starts there, if there is one.  None of the
    expressions looks behind the candidate position, and none can match
    the empty string. *)

Definition matcher := str -> option nat.

(** A global scan ([g] flag): the leftmost match is taken, the scan resumes
    after it.  [skip] counts the code units of the current match that are
    still to be passed over. *)
Fixpoint match_all_from (m : matcher) (skip : nat) (s : str) : list str :=
  match s with
  | [] => []
  | _ :: s' =>
      match skip with
      | S k => match_all_from m k s'
      | O =>
          match m s with
          | Some n => firstn n s :: match_all_from m (pred n) s'
          | None => match_all_from m O s'
          end
      end
  end.

(** [s.match(re) || []] for a global [re] *)
Definition match_all (m : matcher) (s : str) : list str := match_all_from m O s.

(** [s.search(re)]: offset of the leftmost match *)
Fixpoint search (m : matcher) (s : str) : option nat :=
  match m s with
  | Some _ => Some O
  | None => match s with
            | [] => None
            | _ :: s' => option_map S (search m s')
            end
  end.

(** The class [[^stop]]. *)
Definition is_not (stop c : cu) : bool := negb (N.eqb c stop).

(** [lit[^stop]*stop], or [lit[^stop]+stop] when [least] is 1: the literal,
    the longest run without [stop], then [stop].  The run is greedy and
    cannot give anything back: a shorter run is followed by a code unit
    that is not [stop]. *)
Definition m_until (lit : str) (stop : cu) (least : nat) : matcher := fun s =>
  if starts lit s then
    let rest := skipn (length lit) s in
    let n := span_len (is_not stop) rest in
    match nth_error rest n with
    | Some _ => if Nat.leb least n then Some (length lit + n + 1)%nat else None
    | None => None
    end
  else None.

Definition LANGLE : cu := 60%N.  (* < *)
Definition GT : cu := 62%N.      (* > *)
Definition QUOTE : cu := 39%N.   (* ' *)
Definition TICK : cu := 96%N.    (* ` *)
Definition DQUOTE : cu := 34%N.  (* the double quote *)
Definition USCORE : cu := 95%N.

(** [/<h[1-6][^>]*>/] *)
Definition re_heading : matcher := fun s =>
  match s with
  | 60%N :: 104%N :: d :: _ =>
      if (N.leb 49 d && N.leb d 54)%bool then m_until (firstn 3 s) GT 0 s else None
  | _ => None
  end.

(** [/<p[^>]*>/] *)
Definition re_paragraph : matcher := m_until (u "<p") GT 0.

(** [/<(ul|ol)[^>]*>/] *)
Definition re_list : matcher := fun s =>
  match m_until (u "<ul") GT 0 s with
  | Some n => Some n
  | None => m_until (u "<ol") GT 0 s
  end.

(** [/<img[^>]*>/] *)
Definition re_image : matcher := m_until (u "<img") GT 0.

(** [/<pre[^>]*>/] *)
Definition re_pre : matcher := m_until (u "<pre") GT 0.

(** [/<blockquote[^>]*>/] *)
Definition re_blockquote : matcher := m_until (u "<blockquote") GT 0.

(** ** Paginator *)

(** [matches.length] *)
Definition count (matches : list str) : Z := Z.of_nat (length matches).

(** [estimateContentHeight]: the source adds to a running total, one
    element kind after the other. *)
Definition estimateContentHeight (html : str) : Z :=
  let estimatedHeight := 0 in
  let headingMatches := match_all re_heading html in
  let estimatedHeight := estimatedHeight + count headingMatches * 40 in
  let paragraphMatches := match_all re_paragraph html in
  let estimatedHeight := estimatedHeight + count paragraphMatches * 60 in
  let listMatches := match_all re_list html in
  let estimatedHeight := estimatedHeight + count listMatches * 100 in
  let imageMatches := match_all re_image html in
  let estimatedHeight := estimatedHeight + count imageMatches * 200 in
  let codeBlockMatches := match_all re_pre html in
  let estimatedHeight := estimatedHeight + count codeBlockMatches * 150 in
  let blockquoteMatches := match_all re_blockquote html in
  let estimatedHeight := estimatedHeight + count blockquoteMatches * 80 in
  estimatedHeight + 200.

(** A JavaScript number that the paginator computes: an integer, or
    [Infinity] (division of a positive height by a zero page height). *)
Inductive jsnum := Finite (z : Z) | Infinity.

(** [Math.ceil(a / b)] for integers [a] and [b <> 0].  The source divides
    doubles; for integers below 2^53 the quotient of two integers is never
    rounded across an integer, so the ceiling is the exact one. *)
Definition ceil_div (a b : Z) : Z := - ((- a) / b).

(** [Math.max(1, Math.ceil(estimatedContentHeight / pageHeight))].  The
    page height is taken integer-valued.  The estimated height is at least
    200, so a zero page height gives [Infinity]. *)
Definition pagesNeeded (html : str) (pageHeight : Z) : jsnum :=
  if pageHeight =? 0 then Infinity
  else Finite (Z.max 1 (ceil_div (estimateContentHeight html) pageHeight)).

(** The double nearest to 0.7 is [d07 * 2^-53]. *)
Definition d07 : Z := 6305039478318694.

(** Round to nearest, ties to even: [q] is the kept part, [r] the dropped
    part and [half] half a unit of the last kept place. *)
Definition round_even (q r half : Z) : Z :=
  if (half <? r) || ((r =? half) && Z.odd q) then q + 1 else q.

(** [n * 0.7] in double arithmetic for an integer [0 <= n < 2^53], as a
    pair [(m, e)] standing for [m * 2^e]: the exact product [n * d07 * 2^-53]
    rounded to 53 significant bits. *)
Definition mul07 (n : Z) : Z * Z :=
  let p := n * d07 in
  let bits := Z.log2 p + 1 in
  if bits <=? 53 then (p, -53)
  else
    let s := bits - 53 in
    (round_even (Z.shiftr p s) (Z.land p (2 ^ s - 1)) (2 ^ (s - 1)), s - 53).

(** [breakPoint > contentPerPage * 0.7] *)
Definition above07 (breakPoint contentPerPage : Z) : bool :=
  let '(m, e) := mul07 contentPerPage in
  if e <? 0 then m <? breakPoint * 2 ^ (- e) else m * 2 ^ e <? breakPoint.

(** The integers [0, 1, ..., n-1] of a counting [for] loop. *)
Definition zrange (n : Z) : list Z := map Z.of_nat (seq 0 (Z.to_nat n)).

(** [contentPerPage = Math.ceil(html.length / pagesNeeded)] *)
Definition contentPerPage (html : str) (pagesNeeded : Z) : Z :=
  ceil_div (len html) pagesNeeded.

(** The slice [html.slice(start, end)] a page starts from. *)
Definition pageSlice (html : str) (contentPerPage i : Z) : str :=
  let start := i * contentPerPage in
  let end_ := Z.min (start + contentPerPage) (len html) in
  slice html start end_.

(** The latest closing-tag position in a page slice. *)
Definition breakPointOf (pageContent : str) : Z :=
  let lastTagEnd := lastIndexOf (u "</") pageContent in
  let lastParagraphEnd := lastIndexOf (u "</p>") pageContent in
  let lastHeadingEnd := lastIndexOf (u "</h") pageContent in
  let lastListEnd := lastIndexOf (u "</ul>") pageContent in
  let lastOrderedListEnd := lastIndexOf (u "</ol>") pageContent in
  Z.max lastTagEnd
    (Z.max lastParagraphEnd
       (Z.max lastHeadingEnd (Z.max lastListEnd lastOrderedListEnd))).

(** The body of the [for] loop of [splitIntoPages]: the page pushed at
    index [i]. *)
Definition pageAt (html : str) (pagesNeeded contentPerPage i : Z) : str :=
  let start := i * contentPerPage in
  let end_ := Z.min (start + contentPerPage) (len html) in
  let pageContent := slice html start end_ in
  if (i <? pagesNeeded - 1) && (end_ <? len html) then
    let breakPoint := breakPointOf pageContent in
    if above07 breakPoint contentPerPage
    then slice pageContent 0 (breakPoint + 4)
    else pageContent
  else pageContent.

(** [splitIntoPages].  With an infinite page count the [for] loop pushes
    pages for ever and no array is returned: [None]. *)
Definition splitIntoPages (html : str) (pageHeight : Z) : option (list str) :=
  if is_empty (trim html) then Some [ [] ]
  else
    match pagesNeeded html pageHeight with
    | Infinity => None
    | Finite pagesNeeded =>
        if pagesNeeded =? 1 then Some [html]
        else
          let contentPerPage := contentPerPage html pagesNeeded in
          Some (map (pageAt html pagesNeeded contentPerPage) (zrange pagesNeeded))
    end.

(** The per-page share of a document: [contentPerPage] for the page count
    the document needs. *)
Definition share (html : str) (pageHeight : Z) : Z :=
  match pagesNeeded html pageHeight with
  | Finite n => contentPerPage html n
  | Infinity => 0
  end.

(** [getPageCount] *)
Definition getPageCount (html : str) (pageHeight : Z) : option Z :=
  option_map (fun pages : list str => Z.of_nat (length pages)) (splitIntoPages html pageHeight).

(** ** Loops

    A [while] loop is its body iterated on the loop state.  The body tells
    whether the loop goes on ([Next]) or is left with a value ([Done]: the
    condition failed, a [break], or a [return] from inside the loop); it
    fails when a call it makes fails.  [fuel] bounds the number of
    iterations; running out of it is [None]. *)

Inductive loop_step (S R : Type) : Type :=
| Next (s : S)
| Done (r : R).
Arguments Next {S R} s.
Arguments Done {S R} r.

Fixpoint while_loop {S R : Type} (fuel : nat)
  (body : S -> option (loop_step S R)) (s : S) : option R :=
  match fuel with
  | O => None
  | S fuel' =>
      match body s with
      | Some (Next s') => while_loop fuel' body s'
      | Some (Done r) => Some r
      | None => None
      end
  end.

(** ** Replacement with a callback

    [s.replace(re, callback)] for a global [re].  The callback may update a
    state (the table of code blocks); it is called once per match, from
    left to right. *)

Fixpoint replace_from {St : Type} (m : matcher) (f : St -> str -> str * St)
  (skip : nat) (s : str) (st : St) : str * St :=
  match s with
  | [] => ([], st)
  | c :: s' =>
      match skip with
      | S k => replace_from m f k s' st
      | O =>
          match m s with
          | Some n =>
              let '(replacement, st1) := f st (firstn n s) in
              let '(out, st2) := replace_from m f (pred n) s' st1 in
              (replacement ++ out, st2)
          | None =>
              let '(out, st2) := replace_from m f O s' st in
              (c :: out, st2)
          end
      end
  end.

(** The same with a callback that has no state. *)
Definition replace_fn (m : matcher) (f : str -> str) (s : str) : str :=
  fst (replace_from m (fun (st : unit) mt => (f mt, st)) O s tt).

(** [s.replace(re, text)] for a global [re] and a replacement text without
    dollar patterns; the source only ever replaces by the empty string. *)
Definition remove_all (m : matcher) (s : str) : str := replace_fn m (fun _ => []) s.

(** ** Code Guard *)

Definition is_digit (c : cu) : bool := (N.leb 48 c && N.leb c 57)%bool.

(** Decimal digits of a number, as string interpolation prints it. *)
Fixpoint digits (fuel : nat) (n : N) (acc : str) : str :=
  let acc' := (48 + n mod 10)%N :: acc in
  match fuel with
  | O => acc'
  | S fuel' => if (n <? 10)%N then acc' else digits fuel' (n / 10)%N acc'
  end.

Definition decimal (n : N) : str := digits (N.to_nat (N.log2 n)) n [].

(** [parseInt] on a string of decimal digits.  Beyond 2^53 the source rounds
    the value, but any value that large is past the end of the table. *)
Definition parseInt (ds : str) : N :=
  fold_left (fun acc c => (acc * 10 + (c - 48))%N) ds 0%N.

Definition INLINE_TAG : str := u "__INLINE_CODE_".
Definition FENCED_TAG : str := u "__FENCED_CODE_".

(** The code units a placeholder is made of: underscore, capital letters
    and digits. *)
Definition is_placeholder_cu (c : cu) : bool :=
  N.eqb c 95 || (N.leb 65 c && N.leb c 90) || is_digit c.

(** [/`([^`]+)`/] *)
Definition re_inline_code : matcher := m_until [TICK] TICK 1.

(** [/```[\s\S]*?```/]: the lazy body stops at the first closing fence. *)
Definition re_fenced_code : matcher := fun s =>
  if starts (u "```") s then
    match find_first (u "```") (skipn 3 s) with
    | Some k => Some (3 + k + 3)%nat
    | None => None
    end
  else None.

(** The callback of [protectCodeBlocks]: the placeholder carries the
    current length of the table, and the match is pushed onto the table. *)
Definition protect_cb (tag : str) (codeBlocks : list str) (mt : str)
  : str * list str :=
  let placeholder := tag ++ decimal (N.of_nat (length codeBlocks)) ++ u "__" in
  (placeholder, codeBlocks ++ [mt]).

(** [protectCodeBlocks]: inline code first, then fenced code, on the
    result of the first replacement. *)
Definition protectCodeBlocks (text : str) : str * list str :=
  let codeBlocks := [] in
  let protectedText := text in
  let '(protectedText, codeBlocks) :=
    replace_from re_inline_code (protect_cb INLINE_TAG) O protectedText codeBlocks in
  let '(protectedText, codeBlocks) :=
    replace_from re_fenced_code (protect_cb FENCED_TAG) O protectedText codeBlocks in
  (protectedText, codeBlocks).

(** [/__INLINE_CODE_(\d+)__/] and [/__FENCED_CODE_(\d+)__/] *)
Definition re_placeholder (tag : str) : matcher := fun s =>
  if starts tag s then
    let rest := skipn (length tag) s in
    let n := span_len is_digit rest in
    if (Nat.leb 1 n && starts (u "__") (skipn n rest))%bool
    then Some (length tag + n + 2)%nat
    else None
  else None.

(** The callback of [restoreCodeBlocks]:
    [codeBlocks[parseInt(index)] || match], where [index] is the run of
    digits captured between the tag and the closing underscores. *)
Definition restore_cb (tag : str) (codeBlocks : list str) (mt : str) : str :=
  let index := firstn (length mt - length tag - 2) (skipn (length tag) mt) in
  match nth_error codeBlocks (N.to_nat (parseInt index)) with
  | Some block => if is_empty block then mt else block
  | None => mt
  end.

(** [restoreCodeBlocks] *)
Definition restoreCodeBlocks (text : str) (codeBlocks : list str) : str :=
  let result := text in
  let result := replace_fn (re_placeholder INLINE_TAG) (restore_cb INLINE_TAG codeBlocks) result in
  let result := replace_fn (re_placeholder FENCED_TAG) (restore_cb FENCED_TAG codeBlocks) result in
  result.

(** ** Delimiter Matcher *)

Definition OPEN_MARK : str := u "<>'".
Definition CLOSE_MARK : str := u "</>".

(** [/<>'([^']+)'/]: an opening marker with a non-empty class list *)
Definition re_open : matcher := m_until OPEN_MARK QUOTE 1.

(** [/<>'[^']*'/]: an opening marker, the class list possibly empty *)
Definition re_open_any : matcher := m_until OPEN_MARK QUOTE 0.

(** [/<\/>/] *)
Definition re_close : matcher := fun s =>
  if starts CLOSE_MARK s then Some 3%nat else None.

(** [s.search(re)] as a number: the offset, or [-1]. *)
Definition search_z (m : matcher) (s : str) : Z :=
  match search m s with
  | Some k => Z.of_nat k
  | None => -1
  end.

(** [s.match(re)?.[0]?.length || 0]: the length of the leftmost match. *)
Definition first_match_len (m : matcher) (s : str) : Z :=
  match search m s with
  | Some k =>
      match m (skipn k s) with
      | Some n => Z.of_nat n
      | None => 0
      end
  | None => 0
  end.

(** One turn of the [while] loop of [findMatchingClosingTag], on the loop
    variables [(i, depth)]. *)
Definition closingTag_body (text : str) (st : Z * Z)
  : option (loop_step (Z * Z) Z) :=
  let '(i, depth) := st in
  if (i <? len text) && (0 <? depth) then
    let remainingText := substring_from text i in
    let openingMatch := search_z re_open_any remainingText in
    let closingMatch := search_z re_close remainingText in
    let opened :=
      Next (i + (openingMatch + first_match_len re_open_any remainingText),
            depth + 1) in
    let closed :=
      let depth := depth - 1 in
      if depth =? 0 then Done (i + closingMatch)
      else Next (i + (closingMatch + 4), depth) in
    if negb (openingMatch =? -1) && negb (closingMatch =? -1) then
      if openingMatch <? closingMatch then Some opened else Some closed
    else if negb (openingMatch =? -1) then Some opened
    else if negb (closingMatch =? -1) then Some closed
    else Some (Done (-1))
  else Some (Done (-1)).

(** [findMatchingClosingTag].  The fuel is the distance from the first scan
    position to the end of the text; the scan position grows on every turn
    (theorem [closingTag_total]), so the fuel never runs out. *)
Definition findMatchingClosingTag (text : str) (startIndex : Z)
  (openingTag : str) : option Z :=
  let depth := 1 in
  let i := startIndex + len openingTag in
  while_loop (S (Z.to_nat (len text - i))) (closingTag_body text) (i, depth).

(** ** Block Processor *)

Definition DIV_CLASS : str := u "<div class=" ++ [DQUOTE].
Definition DIV_OPEN : str := u "<div".
Definition DIV_CLOSE : str := u "</div>".

(** One turn of the loop of [findMatchingDivEnd], on [(i, depth)]. *)
Definition divEnd_body (text : str) (st : Z * Z)
  : option (loop_step (Z * Z) Z) :=
  let '(i, depth) := st in
  if i <? len text then
    let divStart := indexOf DIV_OPEN text i in
    let divEnd := indexOf DIV_CLOSE text i in
    if (divStart =? -1) && (divEnd =? -1) then Some (Done (-1))
    else if negb (divStart =? -1) && ((divEnd =? -1) || (divStart <? divEnd))
    then Some (Next (divStart + 4, depth + 1))
    else if negb (divEnd =? -1) then
      let depth := depth - 1 in
      if depth =? 0 then Some (Done divEnd)
      else Some (Next (divEnd + 6, depth))
    else Some (Done (-1))
  else Some (Done (-1)).

(** [findMatchingDivEnd] *)
Definition findMatchingDivEnd (text : str) (startIndex : Z) : option Z :=
  let depth := 0 in
  let i := startIndex in
  while_loop (S (Z.to_nat (len text - i))) (divEnd_body text) (i, depth).

(** [MarkOverOptions]; [parse] takes it and never reads it. *)
Inductive Mode := web | paged.
Record MarkOverOptions := { mode : Mode; zoom : Z }.
Definition defaultOptions : MarkOverOptions := {| mode := web; zoom := 100 |}.

(** The warnings written with [console.warn] do not reach any returned
    value and are left out. *)

(** A computation of the block processor: it may fail (fuel), and
    otherwise gives a value together with the texts it has passed to
    [marked.parse], in call order. *)
Definition M (A : Type) : Type := option (A * list str).

Definition ret {A : Type} (a : A) : M A := Some (a, []).

Definition bind {A B : Type} (c : M A) (k : A -> M B) : M B :=
  match c with
  | Some (a, log1) =>
      match k a with
      | Some (b, log2) => Some (b, log1 ++ log2)
      | None => None
      end
  | None => None
  end.

Definition lift {A : Type} (o : option A) : M A :=
  match o with Some a => Some (a, []) | None => None end.

Notation "x <- c ;; k" := (bind c (fun x => k))
  (at level 61, c at next level, right associativity).

Section BlockProcessor.

(** [marked.parse], configured with [breaks] and [gfm]. *)
Variable marked_parse : str -> str.

(** A call [marked.parse(text)], logged. *)
Definition bridge (text : str) : M str := Some (marked_parse text, [text]).

(** [result += marked.parse(span)] under [if (span.trim())] *)
Definition renderSpan (result span : str) : M str :=
  if is_empty (trim span) then ret result
  else html <- bridge span ;; ret (result ++ html).

(** One turn of the loop of [splitByDivsAndProcessMarkdown], on
    [(i, result)]. *)
Definition splitByDivs_body (text : str) (st : Z * str)
  : M (loop_step (Z * str) str) :=
  let '(i, result) := st in
  if i <? len text then
    let divStart := indexOf DIV_CLASS text i in
    if divStart =? -1 then
      let remaining := substring_from text i in
      result <- renderSpan result remaining ;;
      ret (Done result)
    else
      let beforeDiv := substring text i divStart in
      result <- renderSpan result beforeDiv ;;
      divEnd <- lift (findMatchingDivEnd text divStart) ;;
      if divEnd =? -1 then
        let remaining := substring_from text divStart in
        result <- renderSpan result remaining ;;
        ret (Done result)
      else
        let divContent := substring text divStart (divEnd + 6) in
        let result := result ++ divContent in
        ret (Next (divEnd + 6, result))
  else ret (Done result).

(** The loop of a logging body: the logs of the turns are appended. *)
Fixpoint while_logged {S R : Type} (fuel : nat)
  (body : S -> M (loop_step S R)) (s : S) : M R :=
  match fuel with
  | O => None
  | S fuel' =>
      step <- body s ;;
      match step with
      | Next s' => while_logged fuel' body s'
      | Done r => ret r
      end
  end.

(** [splitByDivsAndProcessMarkdown] *)
Definition splitByDivsAndProcessMarkdown (text : str) : M str :=
  let result := [] in
  let i := 0 in
  while_logged (S (length text)) (splitByDivs_body text) (i, result).

(** [processMarkdownOutsideDivs] *)
Definition processMarkdownOutsideDivs (text : str) : M str :=
  splitByDivsAndProcessMarkdown text.

(** [angleBlockRegex.exec(result)] from [lastIndex = 0]: the offset of the
    leftmost opening marker with a non-empty class list, with [match[0]]
    and [match[1]]. *)
Definition exec_open (text : str) : option (Z * str * str) :=
  match search re_open text with
  | Some k =>
      match re_open (skipn k text) with
      | Some n =>
          let fullMatch := firstn n (skipn k text) in
          let group1 := firstn (n - 4) (skipn 3 fullMatch) in
          Some (Z.of_nat k, fullMatch, group1)
      | None => None
      end
  | None => None
  end.

(** [processAngleBlocks].  Both branches of the source's [while] end in
    [break], so only the first match of the regular expression is looked
    at.  [processAllBlocks] is the recursive call on the block content. *)
Definition processAngleBlocks (processAllBlocks : str -> M str) (text : str)
  : M str :=
  let result := text in
  match exec_open result with
  | None => ret result
  | Some (startIndex, fullMatch, group1) =>
      let classes := trim group1 in
      closingIndex <- lift (findMatchingClosingTag result startIndex fullMatch) ;;
      if negb (closingIndex =? -1) then
        let contentStart := startIndex + len fullMatch in
        let actualContent := substring result contentStart closingIndex in
        let endIndex := closingIndex + 4 in
        processedContent <- processAllBlocks actualContent ;;
        parsedContent <- bridge processedContent ;;
        let beforeBlock := substring result 0 startIndex in
        let afterBlock := substring_from result endIndex in
        ret (beforeBlock
               ++ (DIV_CLASS ++ classes ++ [DQUOTE; GT] ++ parsedContent ++ DIV_CLOSE)
               ++ afterBlock)
      else ret result
  end.

(** The [while (hasChanges && iterations < maxIterations)] loop of
    [processAllBlocks]; [n] is the number of iterations still allowed. *)
Fixpoint passes (pass : str -> M str) (n : nat) (result : str) : M str :=
  match n with
  | O => ret result
  | S n' =>
      angleProcessed <- pass result ;;
      if str_eqb angleProcessed result then ret result
      else passes pass n' angleProcessed
  end.

Definition maxIterations : nat := 20.

(** The lazy [[\s\S]*?(?=<>'|<\/>|$)]: the number of code units up to the
    next opening marker, closing marker or end of input. *)
Fixpoint lazy_stop (s : str) : nat :=
  if starts OPEN_MARK s || starts CLOSE_MARK s then O
  else match s with
       | [] => O
       | _ :: s' => S (lazy_stop s')
       end.

(** [/<>'[^']*'[\s\S]*?(?=<>'|<\/>|$)/] *)
Definition re_unprocessed : matcher := fun s =>
  match re_open_any s with
  | Some n => Some (n + lazy_stop (skipn n s))%nat
  | None => None
  end.

(** The clean-up of [processAllBlocks] after the loop. *)
Definition removeUnprocessed (result : str) : str :=
  if includes OPEN_MARK result then
    let result := remove_all re_unprocessed result in
    let result := remove_all re_close result in
    result
  else result.

(** [processAllBlocks].  [fuel] bounds the depth of the recursion through
    [processAngleBlocks]. *)
Fixpoint processAllBlocks (fuel : nat) (text : str) : M str :=
  match fuel with
  | O => None
  | S fuel' =>
      let '(protectedText, codeBlocks) := protectCodeBlocks text in
      let result := protectedText in
      result <- passes (processAngleBlocks (processAllBlocks fuel')) maxIterations result ;;
      let result := removeUnprocessed result in
      let result := restoreCodeBlocks result codeBlocks in
      ret result
  end.

(** [parse] *)
Definition parse (fuel : nat) (text : str) (_options : MarkOverOptions) : M str :=
  if is_empty (trim text) then ret []
  else
    processed <- processAllBlocks fuel text ;;
    html <- processMarkdownOutsideDivs processed ;;
    ret html.

End BlockProcessor.

(** ** The height estimate in the words of the specification

    The specification counts elements: headings, paragraphs, lists,
    images, code blocks and blockquotes.  An opening tag of the element
    [name] is [<name], with the tag name ending there, then attributes up
    to the next [>].  [spec_estimate] is the weighted sum over these counts;
    it is compared with [estimateContentHeight]. *)

Definition is_name_char (c : cu) : bool :=
  (N.leb 48 c && N.leb c 57) || (N.leb 65 c && N.leb c 90)
  || (N.leb 97 c && N.leb c 122).

Definition open_tag (name : str) : matcher := fun s =>
  match m_until (60%N :: name) GT 0 s with
  | Some n =>
      match nth_error s (S (length name)) with
      | Some c => if is_name_char c then None else Some n
      | None => None
      end
  | None => None
  end.

Definition heading_tag : matcher := fun s =>
  match s with
  | 60%N :: 104%N :: d :: _ =>
      if (N.leb 49 d && N.leb d 54)%bool then open_tag [104%N; d] s else None
  | _ => None
  end.

Definition list_tag : matcher := fun s =>
  match open_tag (u "ul") s with
  | Some n => Some n
  | None => open_tag (u "ol") s
  end.

Definition spec_estimate (html : str) : Z :=
  40 * count (match_all heading_tag html)
  + 60 * count (match_all (open_tag (u "p")) html)
  + 100 * count (match_all list_tag html)
  + 200 * count (match_all (open_tag (u "img")) html)
  + 150 * count (match_all (open_tag (u "pre")) html)
  + 80 * count (match_all (open_tag (u "blockquote")) html)
  + 200.

(** ** The scan of the matcher, as a relation

    The turns of the loop of [findMatchingClosingTag], token by token: from
    the scan position the next opening marker (with its class list) and the
    next closing marker are looked for, and the one that comes first wins.
    An opener raises the depth and the scan goes on behind it; a closer
    lowers the depth, and the scan ends on the closer that brings the depth
    to 0.  Behind any other closer the scan goes on four code units further,
    as the source has it.  [closes_at text i depth r] says that the scan
    from [i] at [depth] ends on the closer at [r]; the proofs about blocks
    use it to run the loop. *)

Inductive token := Opener (pos size : Z) | Closer (pos : Z) | NoToken.

Definition next_token (text : str) (i : Z) : token :=
  let rest := substring_from text i in
  match search re_open_any rest, search re_close rest with
  | Some o, Some c =>
      if (o <? c)%nat
      then Opener (i + Z.of_nat o) (first_match_len re_open_any rest)
      else Closer (i + Z.of_nat c)
  | Some o, None => Opener (i + Z.of_nat o) (first_match_len re_open_any rest)
  | None, Some c => Closer (i + Z.of_nat c)
  | None, None => NoToken
  end.

Inductive closes_at (text : str) : Z -> Z -> Z -> Prop :=
| closes_here (i r : Z) :
    i < len text -> next_token text i = Closer r -> closes_at text i 1 r
| closes_later (i depth c r : Z) :
    i < len text -> 1 < depth -> next_token text i = Closer c ->
    closes_at text (c + 4) (depth - 1) r -> closes_at text i depth r
| closes_behind_opener (i depth o n r : Z) :
    i < len text -> 0 < depth -> next_token text i = Opener o n ->
    closes_at text (o + n) (depth + 1) r -> closes_at text i depth r.

(** ** The matching closing marker, by counting

    The depth count of the specification, read one code unit at a time,
    with the markers as the source grammar has them: an opening marker is
    [<>'], a class list without quote, and the closing quote; a closing
    marker is [</>], three code units.  An opening marker raises the depth
    and the count goes on behind its closing quote; a closing marker lowers
    the depth, and the count goes on behind its three code units.
    [depth_close s skip depth] is the offset in [s] of the closing marker
    that brings [depth] to 0, where [skip] code units still belong to the
    marker read last.  [matching_closer] starts the count at depth 1 behind
    the opening tag. *)
Definition opening_marker (s : str) : option nat :=
  if starts OPEN_MARK s then
    match find_first [QUOTE] (skipn 3 s) with
    | Some k => Some (3 + k + 1)%nat
    | None => None
    end
  else None.

Fixpoint depth_close (s : str) (skip : nat) (depth : Z) : option nat :=
  match s with
  | [] => None
  | _ :: s' =>
      match skip with
      | S k => option_map S (depth_close s' k depth)
      | O =>
          match opening_marker s with
          | Some n => option_map S (depth_close s' (n - 1) (depth + 1))
          | None =>
              if starts CLOSE_MARK s then
                if depth - 1 =? 0 then Some O
                else option_map S (depth_close s' 2 (depth - 1))
              else option_map S (depth_close s' O depth)
          end
      end
  end.

Definition matching_closer (text : str) (startIndex : Z) (openingTag : str) : Z :=
  let i := startIndex + len openingTag in
  match depth_close (substring_from text i) O 1 with
  | Some k => i + Z.of_nat k
  | None => -1
  end.

(** ** Occurrences *)

(** [p] occurs in [s]. *)
Definition occurs (p s : str) : Prop := exists a b, s = a ++ p ++ b.

(** ** The layout of the final pass, in the words of the specification

    The matching closing tag of a container, by counting: reading [s] one
    code unit at a time, an opening [<div] raises the depth and a closing
    [</div>] lowers it.  [div_close s depth] is the offset in [s] of the
    first closing tag that brings [depth] to 0.  For a text [s] that starts
    with a container opening, [div_close s 0] is the offset of the closing
    tag of that container, the containers nested in it passed over. *)
Fixpoint div_close (s : str) (depth : Z) : option nat :=
  match s with
  | [] => None
  | _ :: s' =>
      if starts DIV_OPEN s then option_map S (div_close s' (depth + 1))
      else if starts DIV_CLOSE s then
        if depth - 1 =? 0 then Some O
        else option_map S (div_close s' (depth - 1))
      else option_map S (div_close s' depth)
  end.

(** The text [before ++ rest] has its first container opening, [<div
    class=] and a double quote, at the head of [rest]. *)
Definition first_container (before rest : str) : Prop :=
  starts DIV_CLASS rest = true
  /\ forall j, (j < length before)%nat ->
       starts DIV_CLASS (skipn j (before ++ rest)) = false.

(** The pieces of a text: spans outside the containers, and top-level
    containers. *)
Inductive piece := Span (text : str) | Container (text : str).

Definition piece_text (p : piece) : str :=
  match p with Span s => s | Container c => c end.

(** [layout text pieces]: the text read from left to right as pieces.  A
    text without container opening is one span.  Otherwise the span up to
    the first container opening comes first, then the container, from its
    opening to the end of its matching closing tag, then the pieces of the
    text behind it.  When the opening has no matching closing tag, the rest
    of the text from the opening on is one last span. *)
Inductive layout : str -> list piece -> Prop :=
| layout_end : layout [] []
| layout_plain (s : str) :
    s <> [] -> ~ occurs DIV_CLASS s -> layout s [Span s]
| layout_unclosed (before rest : str) :
    first_container before rest -> div_close rest 0 = None ->
    layout (before ++ rest) [Span before; Span rest]
| layout_container (before c behind : str) (k : nat) (pieces : list piece) :
    first_container before (c ++ behind) ->
    div_close (c ++ behind) 0 = Some k -> length c = (k + 6)%nat ->
    layout behind pieces ->
    layout (before ++ c ++ behind) (Span before :: Container c :: pieces).

(** What the final pass makes of a piece: a span that is not blank is
    rendered by the Bridge, a blank span gives nothing, a container is
    copied.  The Bridge is called on the spans that are not blank. *)
Definition piece_html (render : str -> str) (p : piece) : str :=
  match p with
  | Span s => if is_empty (trim s) then [] else render s
  | Container c => c
  end.

Definition piece_log (p : piece) : list str :=
  match p with
  | Span s => if is_empty (trim s) then [] else [s]
  | Container _ => []
  end.

(** A text passed to the Bridge by the final pass: not blank, and either
    without container opening, or the rest of the text from a container
    opening that has no matching closing tag. *)
Definition submitted_span (span : str) : Prop :=
  is_empty (trim span) = false
  /\ (~ occurs DIV_CLASS span
      \/ (starts DIV_CLASS span = true /\ div_close span 0 = None)).

(** ** A stand-in for the Markdown converter

    Used to run the block processor on concrete inputs: it renders a text
    as one paragraph, whatever the text. *)
Definition paragraph_bridge (text : str) : str := u "<p>" ++ text ++ u "</p>".

(** ** Scan positions

    Vocabulary for the proofs about the scans of the estimator and of the
    block processor. *)

(** Every pattern of the source that starts with a fixed code unit can
    only match where the text has that code unit. *)
Definition heads_with (c0 : cu) (m : matcher) : Prop :=
  forall s n, m s = Some n -> exists t, s = c0 :: t.

(** The rest of a match of [<p[^>]*>] or [<pre[^>]*>]: [k] code units,
    the last of which is the first [>]. *)
Definition ends_at (k : nat) (s : str) : Prop :=
  forallb (is_not GT) (firstn (k - 1) s) = true
  /\ nth_error s (k - 1) = Some GT.

(** ** Sibling blocks

    A document written as blocks one after the other: each block has a
    class list, a content, and the text behind its closing marker, up to
    the next block.  [written] is the block as the author writes it,
    [resolved] is what [processAngleBlocks] makes of it.  A block is
    [flat] when its class list is not empty and has neither quote nor
    backtick, its content and the text behind it have no [<], quote or
    backtick, the text behind it is not empty, and the Bridge renders its
    content without a quote. *)
Record sibling := { s_class : str; s_content : str; s_after : str }.

Definition written (b : sibling) : str :=
  OPEN_MARK ++ s_class b ++ QUOTE :: s_content b ++ CLOSE_MARK ++ s_after b.

(** The container of the template literal in [processAngleBlocks], and
    the block resolved: the container, then the text behind the closing
    marker from [closingIndex + 4] on, that is without its first code
    unit. *)
Definition container (marked_parse : str -> str) (b : sibling) : str :=
  DIV_CLASS ++ trim (s_class b) ++ [DQUOTE; GT]
    ++ marked_parse (s_content b) ++ DIV_CLOSE.

Definition resolved (marked_parse : str -> str) (b : sibling) : str :=
  container marked_parse b ++ skipn 1 (s_after b).

Definition plain (s : str) : bool :=
  forallb (is_not LANGLE) s && forallb (is_not QUOTE) s && forallb (is_not TICK) s.

Definition flat (marked_parse : str -> str) (b : sibling) : bool :=
  negb (is_empty (s_class b))
  && forallb (is_not QUOTE) (s_class b) && forallb (is_not TICK) (s_class b)
  && plain (s_content b)
  && negb (is_empty (s_after b)) && plain (s_after b)
  && forallb (is_not QUOTE) (marked_parse (s_content b)).

(** ** Code table

    What the Code Guard keeps in its table: text between two backticks,
    delimiters included. *)
Definition code_span (b : str) : Prop :=
  exists body, b = TICK :: body ++ [TICK] /\ body <> [].

(** ** Rendered spans

    What the final pass makes of a span outside the containers: a blank
    span gives nothing and is not passed to the Bridge. *)
Definition rendered (marked_parse : str -> str) (span : str) : str :=
  if is_empty (trim span) then [] else marked_parse span.

Definition logged (span : str) : list str :=
  if is_empty (trim span) then [] else [span].

(** The text of a container between its opening [<div] and its closing
    tag. *)
Definition inside (cls body : str) : str :=
  u " class=" ++ [DQUOTE] ++ cls ++ [DQUOTE; GT] ++ body.

(* ================================================================== *)
(** * Part II  -  Lemmas and theorems                                  *)
(* ================================================================== *)

(** Decide the integer comparisons of a goal, dropping impossible cases. *)
Ltac zcases :=
  repeat match goal with
    | |- context [Z.eqb ?a ?b] => destruct (Z.eqb_spec a b); try lia
    | |- context [Z.ltb ?a ?b] => destruct (Z.ltb_spec a b); try lia
    | |- context [Z.leb ?a ?b] => destruct (Z.leb_spec a b); try lia
    end.

(** Both sides of an equation between concatenations, brought to the
    same bracketing. *)
Ltac app_norm :=
  repeat first [rewrite <- app_assoc | progress cbn [app]]; reflexivity.

(** ** Lists and strings *)

Lemma len_nonneg (s : str) : 0 <= len s.
Proof. unfold len. lia. Qed.

Lemma len_app (a b : str) : len (a ++ b) = len a + len b.
Proof. unfold len. rewrite length_app. lia. Qed.

Lemma str_eqb_eq (a b : str) : str_eqb a b = true <-> a = b.
Proof.
  revert b. induction a as [|x a IH]; intros [|y b]; simpl; split;
    try congruence; try reflexivity.
  - rewrite andb_true_iff, N.eqb_eq, IH. intros [-> ->]. reflexivity.
  - intros E. injection E as -> ->. rewrite N.eqb_refl.
    apply IH. reflexivity.
Qed.

Lemma str_eqb_refl (a : str) : str_eqb a a = true.
Proof. apply str_eqb_eq. reflexivity. Qed.

Lemma starts_iff (p s : str) : starts p s = true <-> exists t, s = p ++ t.
Proof.
  revert s. induction p as [|x p IH]; intros s; simpl.
  - split; [intros _; exists s; reflexivity | reflexivity].
  - destruct s as [|y s].
    + split; [discriminate | intros [t E]; discriminate].
    + rewrite andb_true_iff, N.eqb_eq, IH. split.
      * intros [-> [t ->]]. exists t. reflexivity.
      * intros [t E]. injection E as -> ->. split; [reflexivity | eauto].
Qed.

Lemma starts_app (p t : str) : starts p (p ++ t) = true.
Proof. apply starts_iff. eauto. Qed.

Lemma firstn_plus {A} (a b : nat) (l : list A) :
  firstn (a + b) l = firstn a l ++ firstn b (skipn a l).
Proof.
  revert l. induction a as [|a IH]; intros l; simpl.
  - reflexivity.
  - destruct l as [|x l]; simpl.
    + rewrite firstn_nil. reflexivity.
    + rewrite IH. reflexivity.
Qed.

Lemma skipn_plus {A} (a b : nat) (l : list A) :
  skipn (a + b) l = skipn b (skipn a l).
Proof.
  revert l. induction a as [|a IH]; intros l; simpl.
  - reflexivity.
  - destruct l as [|x l]; simpl.
    + rewrite skipn_nil. reflexivity.
    + apply IH.
Qed.

(** *** Searches *)

Lemma find_first_some (p s : str) (k : nat) :
  find_first p s = Some k ->
  (k <= length s)%nat /\ starts p (skipn k s) = true
  /\ forall j, (j < k)%nat -> starts p (skipn j s) = false.
Proof.
  revert k. induction s as [|c s IH]; intros k; simpl.
  - destruct (starts p []) eqn:E; [|discriminate].
    intros [= <-]. repeat split; [lia | assumption | intros j Hj; lia].
  - destruct (starts p (c :: s)) eqn:E.
    + intros [= <-]. repeat split; [lia | assumption | intros j Hj; lia].
    + destruct (find_first p s) as [k'|] eqn:F; [|discriminate].
      simpl. intros [= <-]. destruct (IH k' eq_refl) as (L & St & Bef).
      repeat split; [simpl; lia | assumption |].
      intros [|j] Hj; simpl; [assumption | apply Bef; lia].
Qed.

Lemma find_first_none (p s : str) (j : nat) :
  find_first p s = None -> starts p (skipn j s) = false.
Proof.
  revert j. induction s as [|c s IH]; intros j; simpl.
  - destruct (starts p []) eqn:E; [discriminate|].
    intros _. destruct j; assumption.
  - destruct (starts p (c :: s)) eqn:E; [discriminate|].
    destruct (find_first p s) eqn:F; [discriminate|].
    intros _. destruct j as [|j]; simpl; [assumption | apply IH; reflexivity].
Qed.

Lemma occurs_skipn (p s : str) :
  occurs p s <-> exists j, starts p (skipn j s) = true.
Proof.
  split.
  - intros (a & b & ->). exists (length a).
    rewrite skipn_app, skipn_all, Nat.sub_diag. simpl. apply starts_app.
  - intros (j & H). apply starts_iff in H as [t E].
    exists (firstn j s), t. rewrite <- E. symmetry. apply firstn_skipn.
Qed.

Lemma includes_occurs (p s : str) : includes p s = true <-> occurs p s.
Proof.
  unfold includes. rewrite occurs_skipn.
  destruct (find_first p s) as [k|] eqn:F.
  - split; [intros _|reflexivity]. exists k. apply (find_first_some _ _ _ F).
  - split; [discriminate|]. intros [j H].
    rewrite (find_first_none _ _ j F) in H. discriminate.
Qed.

Lemma includes_false (p s : str) : includes p s = false <-> ~ occurs p s.
Proof.
  rewrite <- includes_occurs. destruct (includes p s); split; congruence.
Qed.

Lemma occurs_app_l (p a b : str) : occurs p a -> occurs p (a ++ b).
Proof.
  intros (x & y & ->). exists x, (y ++ b).
  rewrite <- !app_assoc. reflexivity.
Qed.

Lemma occurs_app_r (p a b : str) : occurs p b -> occurs p (a ++ b).
Proof.
  intros (x & y & ->). exists (a ++ x), y.
  rewrite <- !app_assoc. reflexivity.
Qed.

Lemma occurs_cons (p : str) (c : cu) (s : str) : occurs p s -> occurs p (c :: s).
Proof. apply (occurs_app_r p [c] s). Qed.

(** *** White space *)

Lemma trimStart_nil_iff (s : str) : trimStart s = [] <-> forallb is_space s = true.
Proof.
  induction s as [|c s IH]; simpl.
  - split; reflexivity.
  - destruct (is_space c); simpl; [exact IH | split; discriminate].
Qed.

Lemma trimStart_decomp (s : str) :
  exists a, s = a ++ trimStart s /\ forallb is_space a = true.
Proof.
  induction s as [|c s (a & E & Ha)]; simpl.
  - exists []. split; reflexivity.
  - destruct (is_space c) eqn:Ec.
    + exists (c :: a). simpl. rewrite Ec, Ha. split; [f_equal; exact E | reflexivity].
    + exists []. split; reflexivity.
Qed.

Lemma forallb_rev {A} (f : A -> bool) (l : list A) :
  forallb f (rev l) = forallb f l.
Proof.
  induction l as [|x l IH]; simpl; [reflexivity|].
  rewrite forallb_app, IH. simpl. rewrite andb_true_r, andb_comm. reflexivity.
Qed.

Lemma trimEnd_decomp (s : str) :
  exists b, s = trimEnd s ++ b /\ forallb is_space b = true.
Proof.
  unfold trimEnd. destruct (trimStart_decomp (rev s)) as (a & E & Ha).
  exists (rev a). split.
  - apply (f_equal (@rev cu)) in E.
    rewrite rev_involutive, rev_app_distr in E. exact E.
  - rewrite forallb_rev. exact Ha.
Qed.

(** [trim] only removes white space, at both ends. *)
Lemma trim_decomp (s : str) :
  exists a b, s = a ++ trim s ++ b
              /\ forallb is_space a = true /\ forallb is_space b = true.
Proof.
  unfold trim. destruct (trimStart_decomp s) as (a & Ea & Ha).
  destruct (trimEnd_decomp (trimStart s)) as (b & Eb & Hb).
  exists a, b. rewrite <- Eb. auto.
Qed.

(** [!s.trim()] holds exactly for the strings made of white space. *)
Lemma blank_iff (s : str) :
  is_empty (trim s) = true <-> forallb is_space s = true.
Proof.
  destruct (trim_decomp s) as (a & b & E & Ha & Hb). split.
  - intros H. destruct (trim s); [|discriminate]. rewrite E. simpl.
    rewrite forallb_app, Ha, Hb. reflexivity.
  - intros H. unfold trim, trimEnd.
    apply trimStart_nil_iff in H. rewrite H. reflexivity.
Qed.

Lemma not_blank_cons (c : cu) (s : str) :
  is_space c = false -> is_empty (trim (c :: s)) = false.
Proof.
  intros Hc. destruct (is_empty (trim (c :: s))) eqn:E; [|reflexivity].
  apply blank_iff in E. simpl in E. rewrite Hc in E. discriminate.
Qed.

(** ** Paginator *)

Lemma ceil_div_bounds (a b : Z) : 0 < b -> a <= b * ceil_div a b < a + b.
Proof.
  intros Hb. unfold ceil_div.
  pose proof (Z.div_mod (- a) b ltac:(lia)) as E.
  pose proof (Z.mod_pos_bound (- a) b Hb) as B.
  nia.
Qed.

Lemma ceil_div_one (a b : Z) : 0 < a -> a <= b -> ceil_div a b = 1.
Proof.
  intros Ha Hab. pose proof (ceil_div_bounds a b ltac:(lia)) as B. nia.
Qed.

Lemma ceil_div_neg (a b : Z) : 0 < a -> b < 0 -> ceil_div a b <= 0.
Proof.
  intros Ha Hb. unfold ceil_div.
  pose proof (Z.div_mod (- a) b ltac:(lia)) as E.
  pose proof (Z.mod_neg_bound (- a) b Hb) as B.
  nia.
Qed.

Lemma count_nonneg (l : list str) : 0 <= count l.
Proof. unfold count. lia. Qed.

(** The estimate is the weighted sum of the six match counts plus 200. *)
Lemma estimateContentHeight_sum (html : str) :
  estimateContentHeight html =
    40 * count (match_all re_heading html)
    + 60 * count (match_all re_paragraph html)
    + 100 * count (match_all re_list html)
    + 200 * count (match_all re_image html)
    + 150 * count (match_all re_pre html)
    + 80 * count (match_all re_blockquote html)
    + 200.
Proof. unfold estimateContentHeight. lia. Qed.

Lemma estimateContentHeight_base (html : str) : 200 <= estimateContentHeight html.
Proof.
  rewrite estimateContentHeight_sum.
  pose proof (count_nonneg (match_all re_heading html)).
  pose proof (count_nonneg (match_all re_paragraph html)).
  pose proof (count_nonneg (match_all re_list html)).
  pose proof (count_nonneg (match_all re_image html)).
  pose proof (count_nonneg (match_all re_pre html)).
  pose proof (count_nonneg (match_all re_blockquote html)).
  lia.
Qed.

Lemma pagesNeeded_finite (html : str) (pageHeight : Z) :
  pageHeight <> 0 ->
  exists n, pagesNeeded html pageHeight = Finite n /\ 1 <= n
            /\ (estimateContentHeight html <= pageHeight -> n = 1).
Proof.
  intros H. unfold pagesNeeded.
  destruct (pageHeight =? 0) eqn:E; [lia|].
  eexists. split; [reflexivity|]. split; [lia|].
  intros Hle. pose proof (estimateContentHeight_base html).
  rewrite ceil_div_one by lia. reflexivity.
Qed.

Lemma zrange_length (n : Z) : length (zrange n) = Z.to_nat n.
Proof. unfold zrange. rewrite length_map, length_seq. reflexivity. Qed.

Lemma zrange_nth (n : Z) (k : nat) (i : Z) :
  nth_error (zrange n) k = Some i -> i = Z.of_nat k /\ 0 <= i < n.
Proof.
  unfold zrange. intros H.
  rewrite nth_error_map, nth_error_seq in H.
  destruct (Nat.ltb_spec k (Z.to_nat n)); [|discriminate].
  injection H as <-. simpl. lia.
Qed.

(** A slice from position 0 is a prefix, whatever its end. *)
Lemma slice_from_zero (s : str) (b : Z) :
  exists k, slice s 0 b = firstn k s /\ (k <= length s)%nat.
Proof.
  unfold slice. pose proof (len_nonneg s) as L.
  assert (E : slice_end s 0 = 0) by (unfold slice_end; simpl; lia).
  rewrite E. simpl.
  exists (Z.to_nat (slice_end s b - 0)). split; [reflexivity|].
  unfold slice_end, len in *. destruct (Z.ltb_spec b 0); lia.
Qed.

(** A page slice is the chunk of [contentPerPage] code units at offset
    [i * contentPerPage]. *)
Lemma pageSlice_chunk (html : str) (c i : Z) :
  0 <= c -> 0 <= i ->
  pageSlice html c i = firstn (Z.to_nat c) (skipn (Z.to_nat (i * c)) html).
Proof.
  intros Hc Hi. unfold pageSlice, slice, slice_end.
  pose proof (len_nonneg html) as L.
  assert (Hs : 0 <= i * c) by nia.
  destruct (i * c <? 0) eqn:E1; [lia|].
  destruct (Z.min (i * c + c) (len html) <? 0) eqn:E2; [lia|].
  destruct (Z_lt_le_dec (i * c) (len html)) as [Hlt|Hge].
  - rewrite (Z.min_l (i * c)) by lia.
    set (start := Z.to_nat (i * c)).
    assert (Hlen : length (skipn start html) = (length html - start)%nat)
      by apply length_skipn.
    destruct (Z_le_dec (i * c + c) (len html)) as [H1|H1].
    + f_equal. lia.
    + rewrite (firstn_all2 (n := Z.to_nat c)) by (unfold len in *; lia).
      apply firstn_all2. unfold len in *. lia.
  - rewrite (Z.min_r (i * c)) by lia.
    rewrite skipn_all2 by (unfold len in *; lia).
    rewrite skipn_all2 by (unfold len in *; lia).
    rewrite !firstn_nil. reflexivity.
Qed.

(** A pushed page is a prefix of its page slice: the snap to a closing tag
    only moves the end. *)
Lemma pageAt_prefix (html : str) (n c i : Z) :
  exists k, pageAt html n c i = firstn k (pageSlice html c i)
            /\ (k <= length (pageSlice html c i))%nat.
Proof.
  unfold pageAt. fold (pageSlice html c i).
  set (pc := pageSlice html c i).
  assert (Whole : exists k, pc = firstn k pc /\ (k <= length pc)%nat).
  { exists (length pc). split; [symmetry; apply firstn_all | lia]. }
  destruct ((i <? n - 1) && _); [|exact Whole].
  destruct (above07 _ _); [|exact Whole].
  apply slice_from_zero.
Qed.

Lemma concat_chunks {A} (c k : nat) (l : list A) :
  concat (map (fun i => firstn c (skipn (i * c) l)) (seq 0 k)) = firstn (k * c) l.
Proof.
  induction k as [|k IH].
  - reflexivity.
  - rewrite seq_S, map_app, concat_app, IH. simpl.
    rewrite app_nil_r, (Nat.add_comm c), firstn_plus. reflexivity.
Qed.

Lemma concat_pageSlices (html : str) (n c : Z) :
  0 <= c -> len html <= n * c ->
  concat (map (pageSlice html c) (zrange n)) = html.
Proof.
  intros Hc Hcover. unfold zrange. rewrite map_map.
  rewrite (map_ext_in _ (fun i : nat => firstn (Z.to_nat c) (skipn (i * Z.to_nat c) html))).
  - rewrite concat_chunks. apply firstn_all2.
    unfold len in Hcover. nia.
  - intros i _. rewrite pageSlice_chunk by lia. do 2 f_equal. nia.
Qed.

Lemma splitIntoPages_shape (html : str) (pageHeight : Z) :
  pageHeight <> 0 -> is_empty (trim html) = false ->
  exists n, pagesNeeded html pageHeight = Finite n /\ 1 <= n
    /\ len html <= n * share html pageHeight /\ 0 <= share html pageHeight
    /\ exists pages, splitIntoPages html pageHeight = Some pages
    /\ length pages = Z.to_nat n
    /\ forall i frag, nth_error pages i = Some frag ->
         exists k, frag = firstn k (pageSlice html (share html pageHeight) (Z.of_nat i))
                   /\ (k <= length (pageSlice html (share html pageHeight) (Z.of_nat i)))%nat.
Proof.
  intros Hp Hb.
  destruct (pagesNeeded_finite html pageHeight Hp) as (n & En & Hn & _).
  exists n. unfold share, splitIntoPages. rewrite En, Hb.
  pose proof (ceil_div_bounds (len html) n ltac:(lia)) as B.
  pose proof (len_nonneg html) as L.
  fold (contentPerPage html n) in B.
  split; [reflexivity|]. split; [lia|]. split; [lia|]. split; [nia|].
  destruct (n =? 1) eqn:E1.
  - exists [html]. split; [reflexivity|]. split; [simpl; lia|].
    assert (n = 1) by lia. subst n.
    assert (Ec : contentPerPage html 1 = len html) by lia.
    intros [|[|i]] frag; simpl; try discriminate. intros [= <-].
    exists (length html). rewrite Ec, pageSlice_chunk by lia.
    change (Z.of_nat 0) with 0. change (Z.to_nat (0 * len html)) with O.
    assert (E : firstn (Z.to_nat (len html)) (skipn 0 html) = html)
      by (apply firstn_all2; unfold len; simpl; lia).
    rewrite E, firstn_all. split; [reflexivity | lia].
  - eexists. split; [reflexivity|]. rewrite length_map, zrange_length.
    split; [reflexivity|]. intros i frag H.
    rewrite nth_error_map in H.
    destruct (nth_error (zrange n) i) as [j|] eqn:Hj; [|discriminate].
    injection H as <-.
    apply zrange_nth in Hj as [-> _]. apply pageAt_prefix.
Qed.

(** White space only: the guard at the head of [splitIntoPages] returns
    one empty fragment, whatever the html was. *)
Lemma splitIntoPages_blank_not_roundtrip :
  exists pages, splitIntoPages (u " ") 1123 = Some pages /\ concat pages <> u " ".
Proof. exists [ [] ]. split; [reflexivity | discriminate]. Qed.

(** A fragment cut at a snapped boundary loses its tail: the next fragment
    still starts at the next multiple of the share.  Two pages of 19 code
    units; the first is cut after its closing tag and the [b] behind it is
    in neither fragment. *)
Lemma splitIntoPages_drops_after_snap :
  splitIntoPages (u "<p>aaaaaaaaaaa</p>b<p>cccccccccccc</p>") 200
  = Some [u "<p>aaaaaaaaaaa</p>"; u "<p>cccccccccccc</p>"].
Proof. vm_compute. reflexivity. Qed.

(** C1.  [splitIntoPages] on the html of two paragraphs, each followed by
    a line feed, with a page height of 200: 60 code units on two pages, a
    share of 30.  The first share ends two code units into the second
    paragraph; the first fragment is cut behind the closing tag of the
    first paragraph, by [slice(0, breakPoint + 4)], and the second fragment
    starts at code unit 30 all the same.  The line feed and the [<p] between
    them are in no fragment, so the fragments do not concatenate to the
    html. *)
Theorem splitIntoPages_drops_text :
  let html := u "<p>aaaaaaaaaaaaaaaaaaaa</p>" ++ 10%N
                :: u "<p>bbbbbbbbbbbbbbbbbbbbbbbb</p>" ++ [10%N] in
  let first := u "<p>aaaaaaaaaaaaaaaaaaaa</p>" in
  let second := u ">bbbbbbbbbbbbbbbbbbbbbbbb</p>" ++ [10%N] in
  pagesNeeded html 200 = Finite 2
  /\ share html 200 = 30
  /\ pageSlice html 30 0 = first ++ 10%N :: u "<p"
  /\ breakPointOf (pageSlice html 30 0) = 23
  /\ splitIntoPages html 200 = Some [first; second]
  /\ html = first ++ (10%N :: u "<p") ++ second
  /\ concat [first; second] <> html.
Proof.
  cbv zeta. repeat (split; [vm_compute; reflexivity|]). discriminate.
Qed.

(** C6.  What the code computes on a code block, against the weighted sum
    over element counts: [<pre>] is also matched by the paragraph pattern
    [<p[^>]*>], so one code block adds 150 + 60. *)
Theorem estimateContentHeight_pre_counted_twice :
  estimateContentHeight (u "<pre><code>x</code></pre>") = 410
  /\ spec_estimate (u "<pre><code>x</code></pre>") = 350
  /\ count (match_all re_paragraph (u "<pre><code>x</code></pre>")) = 1
  /\ count (match_all (open_tag (u "p")) (u "<pre><code>x</code></pre>")) = 0.
Proof. vm_compute. repeat split; reflexivity. Qed.

(** C7, as amended.  For every html and every non-zero page height,
    [getPageCount] returns an integer that is at least 1, and exactly 1
    whenever the estimated height is at most the page height. *)
Theorem getPageCount_floor (html : str) (pageHeight : Z) :
  pageHeight <> 0 ->
  exists n, getPageCount html pageHeight = Some n /\ 1 <= n
            /\ (estimateContentHeight html <= pageHeight -> n = 1).
Proof.
  intros Hp. unfold getPageCount, splitIntoPages.
  destruct (is_empty (trim html)).
  - exists 1. simpl. repeat split; lia.
  - destruct (pagesNeeded_finite html pageHeight Hp) as (n & -> & Hn & H1).
    destruct (n =? 1) eqn:E.
    + exists 1. simpl. repeat split; lia.
    + exists n. simpl. rewrite length_map, zrange_length.
      split; [f_equal; lia|]. split; [lia | exact H1].
Qed.

Lemma getPageCount_floor_witness :
  1123 <> 0
  /\ exists n, getPageCount (u "<h1>Hi</h1><p>text</p>") 1123 = Some n /\ 1 <= n
               /\ (estimateContentHeight (u "<h1>Hi</h1><p>text</p>") <= 1123 -> n = 1).
Proof.
  split; [discriminate|].
  apply (getPageCount_floor (u "<h1>Hi</h1><p>text</p>") 1123). discriminate.
Defined.

(** C7 as stated fails at a zero page height: the page count is infinite,
    the loop never ends and no count is returned. *)
Lemma getPageCount_zero_height :
  ~ exists n, getPageCount (u "x") 0 = Some n /\ 1 <= n.
Proof. intros (n & H & _). discriminate H. Qed.

(** C10.  For html that is not white space only and every page height:
    whenever [splitIntoPages] returns a page list (it does for every
    non-zero page height), the fragment at index [i] is a run of
    consecutive code units of html that begins at offset [i * share]; it is
    a prefix of the page slice at that offset, so a snap only moves its
    end. *)
Theorem splitIntoPages_fragments (html : str) (pageHeight : Z) :
  is_empty (trim html) = false ->
  (pageHeight <> 0 -> exists pages, splitIntoPages html pageHeight = Some pages)
  /\ forall pages, splitIntoPages html pageHeight = Some pages ->
       forall i frag, nth_error pages i = Some frag ->
         exists k,
           frag = firstn k (skipn (Z.to_nat (Z.of_nat i * share html pageHeight)) html)
           /\ frag = firstn k (pageSlice html (share html pageHeight) (Z.of_nat i))
           /\ (k <= length (pageSlice html (share html pageHeight) (Z.of_nat i)))%nat.
Proof.
  intros Hb. destruct (Z.eq_dec pageHeight 0) as [->|Hp].
  - split; [congruence|]. intros pages H.
    unfold splitIntoPages in H. rewrite Hb in H. discriminate H.
  - destruct (splitIntoPages_shape html pageHeight Hp Hb)
      as (n & En & Hn & Hcover & Hc & pages & E & Hlen & Hfrag).
    split; [eauto|]. intros pages' E' i frag Hi.
    rewrite E in E'. injection E' as <-.
    destruct (Hfrag i frag Hi) as (k & Ek & Hk).
    exists k. split; [|split; assumption].
    rewrite Ek. rewrite pageSlice_chunk in * by lia.
    rewrite firstn_firstn. f_equal.
    rewrite length_firstn in Hk. lia.
Qed.

Lemma splitIntoPages_fragments_witness :
  is_empty (trim (u "<p>aaaaaaaaaaa</p>b<p>cccccccccccc</p>")) = false
  /\ (200 <> 0 ->
      exists pages,
        splitIntoPages (u "<p>aaaaaaaaaaa</p>b<p>cccccccccccc</p>") 200 = Some pages)
  /\ forall pages,
       splitIntoPages (u "<p>aaaaaaaaaaa</p>b<p>cccccccccccc</p>") 200 = Some pages ->
       forall i frag, nth_error pages i = Some frag ->
         exists k,
           frag = firstn k
                    (skipn (Z.to_nat (Z.of_nat i
                              * share (u "<p>aaaaaaaaaaa</p>b<p>cccccccccccc</p>") 200))
                       (u "<p>aaaaaaaaaaa</p>b<p>cccccccccccc</p>"))
           /\ frag = firstn k
                       (pageSlice (u "<p>aaaaaaaaaaa</p>b<p>cccccccccccc</p>")
                          (share (u "<p>aaaaaaaaaaa</p>b<p>cccccccccccc</p>") 200)
                          (Z.of_nat i))
           /\ (k <= length
                      (pageSlice (u "<p>aaaaaaaaaaa</p>b<p>cccccccccccc</p>")
                         (share (u "<p>aaaaaaaaaaa</p>b<p>cccccccccccc</p>") 200)
                         (Z.of_nat i)))%nat.
Proof.
  split; [reflexivity|].
  apply (splitIntoPages_fragments (u "<p>aaaaaaaaaaa</p>b<p>cccccccccccc</p>") 200).
  reflexivity.
Defined.

(** A negative page height gives a single page. *)
Lemma pagesNeeded_negative (html : str) (pageHeight : Z) :
  pageHeight < 0 -> pagesNeeded html pageHeight = Finite 1.
Proof.
  intros H. unfold pagesNeeded. destruct (Z.eqb_spec pageHeight 0); [lia|].
  pose proof (estimateContentHeight_base html).
  pose proof (ceil_div_neg (estimateContentHeight html) pageHeight ltac:(lia) H).
  f_equal. lia.
Qed.

(** Two pages without a snap: the fragments are the two halves. *)
Example splitIntoPages_two_pages :
  splitIntoPages (u "<p>aa</p><p>bbbbbbbbbbbbbbbbbbbbbbbbb</p>") 200
  = Some [u "<p>aa</p><p>bbbbbbbbb"; u "bbbbbbbbbbbbbbbb</p>"].
Proof. vm_compute. reflexivity. Qed.

(** The product with 0.7 is the double product: 90 * 0.7 is just below 63,
    and 10 * 0.7 is 7. *)
Example above07_double_rounding :
  above07 63 90 = true /\ above07 7 10 = false /\ above07 8 10 = true.
Proof. repeat split; reflexivity. Qed.

(** ** Matchers and scans *)

Lemma search_some (m : matcher) (s : str) (k : nat) :
  search m s = Some k ->
  (k <= length s)%nat /\ (exists n, m (skipn k s) = Some n)
  /\ forall j, (j < k)%nat -> m (skipn j s) = None.
Proof.
  revert k. induction s as [|c s IH]; intros k; simpl.
  - destruct (m []) as [n|] eqn:E; [|discriminate].
    intros [= <-]. repeat split; [lia | eauto | intros j Hj; lia].
  - destruct (m (c :: s)) as [n|] eqn:E.
    + intros [= <-]. repeat split; [lia | eauto | intros j Hj; lia].
    + destruct (search m s) as [k'|] eqn:F; [|discriminate].
      simpl. intros [= <-]. destruct (IH k' eq_refl) as (L & St & Bef).
      repeat split; [simpl; lia | assumption |].
      intros [|j] Hj; simpl; [assumption | apply Bef; lia].
Qed.

Lemma search_none (m : matcher) (s : str) (j : nat) :
  search m s = None -> m (skipn j s) = None.
Proof.
  revert j. induction s as [|c s IH]; intros j; simpl.
  - destruct (m []) eqn:E; [discriminate|].
    intros _. destruct j; assumption.
  - destruct (m (c :: s)) eqn:E; [discriminate|].
    destruct (search m s) eqn:F; [discriminate|].
    intros _. destruct j as [|j]; simpl; [assumption | apply IH; reflexivity].
Qed.

Lemma search_none_intro (m : matcher) (s : str) :
  (forall j, m (skipn j s) = None) -> search m s = None.
Proof.
  intros H. destruct (search m s) as [k|] eqn:E; [|reflexivity].
  destruct (search_some _ _ _ E) as (_ & (n & Hn) & _).
  rewrite H in Hn. discriminate.
Qed.

Lemma span_len_le (f : cu -> bool) (s : str) : (span_len f s <= length s)%nat.
Proof.
  induction s as [|c s IH]; simpl; [lia|]. destruct (f c); simpl; lia.
Qed.

Lemma span_len_run (f : cu -> bool) (run : str) (c : cu) (rest : str) :
  forallb f run = true -> f c = false ->
  span_len f (run ++ c :: rest) = length run.
Proof.
  intros Hr Hc. induction run as [|x run IH]; simpl in *.
  - rewrite Hc. reflexivity.
  - apply andb_true_iff in Hr as [Hx Hr]. rewrite Hx, IH by assumption.
    reflexivity.
Qed.

Lemma span_len_split (f : cu -> bool) (s : str) :
  forallb f (firstn (span_len f s) s) = true
  /\ match nth_error s (span_len f s) with
     | Some c => f c = false
     | None => True
     end.
Proof.
  induction s as [|x s [IH1 IH2]]; simpl; [auto|].
  destruct (f x) eqn:E; simpl; [rewrite E; auto | auto].
Qed.

Lemma nth_error_split_at {A} (l : list A) (n : nat) (x : A) :
  nth_error l n = Some x -> l = firstn n l ++ x :: skipn (S n) l.
Proof.
  revert l. induction n as [|n IH]; intros [|y l]; simpl; try discriminate.
  - intros [= ->]. reflexivity.
  - intros H. f_equal. apply IH. exact H.
Qed.

(** What a match of [lit[^stop]*stop] looks like. *)
Lemma m_until_some (lit : str) (stop : cu) (least : nat) (s : str) (n : nat) :
  m_until lit stop least s = Some n ->
  exists run rest,
    s = lit ++ run ++ stop :: rest
    /\ n = (length lit + length run + 1)%nat
    /\ forallb (is_not stop) run = true
    /\ (least <= length run)%nat.
Proof.
  unfold m_until. destruct (starts lit s) eqn:Hs; [|discriminate].
  apply starts_iff in Hs as [t ->].
  rewrite skipn_app, skipn_all, Nat.sub_diag. simpl.
  set (f := is_not stop).
  destruct (nth_error t (span_len f t)) as [c|] eqn:Hn; [|discriminate].
  destruct (Nat.leb_spec least (span_len f t)); [|discriminate].
  intros [= <-]. destruct (span_len_split f t) as [Hrun Hc].
  rewrite Hn in Hc. unfold f, is_not in Hc.
  apply negb_false_iff, N.eqb_eq in Hc. subst c.
  exists (firstn (span_len f t) t), (skipn (S (span_len f t)) t).
  pose proof (span_len_le f t).
  split; [f_equal; apply nth_error_split_at; exact Hn|].
  rewrite length_firstn. repeat split; try assumption; lia.
Qed.

Lemma m_until_starts (lit : str) (stop : cu) (least : nat) (s : str) (n : nat) :
  m_until lit stop least s = Some n -> starts lit s = true.
Proof.
  unfold m_until. destruct (starts lit s); [reflexivity | discriminate].
Qed.

Lemma m_until_bounds (lit : str) (stop : cu) (least : nat) (s : str) (n : nat) :
  m_until lit stop least s = Some n ->
  (length lit + least + 1 <= n <= length s)%nat.
Proof.
  intros H. apply m_until_some in H as (run & rest & -> & -> & _ & Hl).
  rewrite !length_app. simpl. lia.
Qed.

(** ** Loops *)

Lemma while_loop_total {S R : Type} (body : S -> option (loop_step S R))
  (mu : S -> nat) :
  (forall s, body s <> None) ->
  (forall s s', body s = Some (Next s') -> (mu s' < mu s)%nat) ->
  forall fuel s, (mu s < fuel)%nat -> exists r, while_loop fuel body s = Some r.
Proof.
  intros Hsome Hdec. induction fuel as [|fuel IH]; intros s Hmu; [lia|].
  simpl. destruct (body s) as [[s'|r]|] eqn:E.
  - apply IH. specialize (Hdec _ _ E). lia.
  - eauto.
  - exfalso. exact (Hsome s E).
Qed.

Lemma while_loop_inv {S R : Type} (body : S -> option (loop_step S R))
  (I : S -> Prop) (Q : R -> Prop) :
  (forall s s', I s -> body s = Some (Next s') -> I s') ->
  (forall s r, I s -> body s = Some (Done r) -> Q r) ->
  forall fuel s r, I s -> while_loop fuel body s = Some r -> Q r.
Proof.
  intros Hnext Hdone. induction fuel as [|fuel IH]; intros s r Hs; simpl.
  - discriminate.
  - destruct (body s) as [[s'|r']|] eqn:E.
    + apply IH. eapply Hnext; eassumption.
    + intros [= <-]. eapply Hdone; eassumption.
    + discriminate.
Qed.

(** More fuel does not change a result. *)
Lemma while_loop_mono {S R : Type} (body : S -> option (loop_step S R))
  (fuel extra : nat) (s : S) (r : R) :
  while_loop fuel body s = Some r -> while_loop (fuel + extra) body s = Some r.
Proof.
  revert s. induction fuel as [|fuel IH]; intros s; simpl; [discriminate|].
  destruct (body s) as [[s'|r']|]; [apply IH | auto | discriminate].
Qed.

(** ** Delimiter Matcher *)

Lemma substring_from_skipn (s : str) (i : Z) :
  substring_from s i = skipn (Z.to_nat (clamp 0 (len s) i)) s.
Proof.
  unfold substring_from, substring. pose proof (len_nonneg s) as L.
  set (a := clamp 0 (len s) i).
  assert (Ha : 0 <= a <= len s) by (unfold a, clamp; lia).
  replace (clamp 0 (len s) (len s)) with (len s) by (unfold clamp; lia).
  rewrite Z.min_l, Z.max_r by lia.
  apply firstn_all2. rewrite length_skipn. unfold len in *. lia.
Qed.

Lemma substring_from_nonneg (s : str) (i : Z) :
  0 <= i -> substring_from s i = skipn (Z.to_nat i) s.
Proof.
  intros Hi. rewrite substring_from_skipn. unfold clamp.
  destruct (Z_le_dec i (len s)).
  - f_equal. lia.
  - rewrite !skipn_all2; unfold len in *; try reflexivity; lia.
Qed.

Lemma first_match_len_some (m : matcher) (s : str) (k : nat) :
  search m s = Some k ->
  exists n, m (skipn k s) = Some n /\ first_match_len m s = Z.of_nat n.
Proof.
  intros H. destruct (search_some _ _ _ H) as (_ & (n & Hn) & _).
  exists n. unfold first_match_len. rewrite H, Hn. auto.
Qed.

Lemma re_close_some (s : str) (n : nat) :
  re_close s = Some n -> starts CLOSE_MARK s = true.
Proof. unfold re_close. destruct (starts CLOSE_MARK s); [reflexivity | discriminate]. Qed.

(** The loop body in terms of the next token. *)
Lemma closingTag_body_token (text : str) (i depth : Z) :
  closingTag_body text (i, depth) =
    if (i <? len text) && (0 <? depth) then
      match next_token text i with
      | Opener o n => Some (Next (o + n, depth + 1))
      | Closer c =>
          if depth - 1 =? 0 then Some (Done c) else Some (Next (c + 4, depth - 1))
      | NoToken => Some (Done (-1))
      end
    else Some (Done (-1)).
Proof.
  unfold closingTag_body, next_token, search_z.
  destruct ((i <? len text) && (0 <? depth)); [|reflexivity].
  destruct (search re_open_any (substring_from text i)) as [o|];
    destruct (search re_close (substring_from text i)) as [c|]; simpl.
  - destruct (Z.eqb_spec (Z.of_nat o) (-1)); [lia|].
    destruct (Z.eqb_spec (Z.of_nat c) (-1)); [lia|]. simpl.
    destruct (Nat.ltb_spec o c); destruct (Z.ltb_spec (Z.of_nat o) (Z.of_nat c));
      try lia.
    + do 3 f_equal. lia.
    + destruct (depth - 1 =? 0); do 3 f_equal; lia.
  - destruct (Z.eqb_spec (Z.of_nat o) (-1)); [lia|]. simpl.
    do 3 f_equal. lia.
  - destruct (Z.eqb_spec (Z.of_nat c) (-1)); [lia|]. simpl.
    destruct (depth - 1 =? 0); do 3 f_equal; lia.
  - reflexivity.
Qed.

Lemma next_token_opener (text : str) (i o n : Z) :
  next_token text i = Opener o n -> i <= o /\ 4 <= n.
Proof.
  unfold next_token.
  destruct (search re_open_any (substring_from text i)) as [k|] eqn:So;
    destruct (search re_close (substring_from text i)) as [c|] eqn:Sc;
    try discriminate;
    try destruct (k <? c)%nat; try discriminate;
    intros [= <- <-];
    destruct (first_match_len_some _ _ _ So) as (m & Hm & ->);
    apply m_until_bounds in Hm; simpl in Hm; lia.
Qed.

Lemma next_token_closer (text : str) (i c : Z) :
  next_token text i = Closer c ->
  i <= c /\ (0 <= i -> starts CLOSE_MARK (skipn (Z.to_nat c) text) = true).
Proof.
  unfold next_token.
  destruct (search re_open_any (substring_from text i)) as [k|] eqn:So;
    destruct (search re_close (substring_from text i)) as [j|] eqn:Sc;
    try discriminate;
    try destruct (k <? j)%nat; try discriminate;
    intros [= <-]; (split; [lia|]); intros Hi;
    destruct (search_some _ _ _ Sc) as (_ & (m & Hm) & _);
    apply re_close_some in Hm;
    rewrite substring_from_nonneg, <- skipn_plus in Hm by assumption;
    replace (Z.to_nat (i + Z.of_nat j)) with (Z.to_nat i + j)%nat by lia;
    exact Hm.
Qed.

(** Strict progress: a turn that goes on moves the scan position forward. *)
Lemma closingTag_body_progress (text : str) (i depth i' depth' : Z) :
  closingTag_body text (i, depth) = Some (Next (i', depth')) ->
  i < i' /\ i < len text.
Proof.
  rewrite closingTag_body_token.
  destruct (Z.ltb_spec i (len text)); simpl; [|discriminate].
  destruct (0 <? depth); [|discriminate].
  destruct (next_token text i) as [o n|c|] eqn:T.
  - intros [= <- <-]. apply next_token_opener in T. lia.
  - apply next_token_closer in T as [T _].
    destruct (depth - 1 =? 0); [discriminate|]. intros [= <- <-]. lia.
  - discriminate.
Qed.

Lemma closingTag_body_some (text : str) (st : Z * Z) :
  closingTag_body text st <> None.
Proof.
  destruct st as [i depth]. rewrite closingTag_body_token.
  destruct ((i <? len text) && (0 <? depth)); [|discriminate].
  destruct (next_token text i); [discriminate | | discriminate].
  destruct (depth - 1 =? 0); discriminate.
Qed.

Lemma closingTag_loop_total (text : str) (i depth : Z) (fuel : nat) :
  (Z.to_nat (len text - i) < fuel)%nat ->
  exists r, while_loop fuel (closingTag_body text) (i, depth) = Some r.
Proof.
  intros Hf.
  apply (while_loop_total (closingTag_body text)
           (fun st => Z.to_nat (len text - fst st))).
  - apply closingTag_body_some.
  - intros [j d] [j' d'] H. apply closingTag_body_progress in H. simpl. lia.
  - exact Hf.
Qed.

(** The matcher returns on every input. *)
Lemma closingTag_total (text : str) (startIndex : Z) (openingTag : str) :
  exists r, findMatchingClosingTag text startIndex openingTag = Some r.
Proof. apply closingTag_loop_total. lia. Qed.

(** A scan that ends on a closer is found by the loop, given fuel for the
    distance to the end of the text. *)
Lemma closes_at_loop (text : str) (i depth r : Z) :
  closes_at text i depth r ->
  forall fuel, (Z.to_nat (len text - i) < fuel)%nat ->
  while_loop fuel (closingTag_body text) (i, depth) = Some r.
Proof.
  induction 1 as [i r Hi T | i depth c r Hi Hd T _ IH | i depth o n r Hi Hd T _ IH];
    intros [|fuel] Hf; try lia; cbn [while_loop];
    rewrite closingTag_body_token, T.
  - zcases. reflexivity.
  - zcases. simpl. apply IH. apply next_token_closer in T. lia.
  - zcases. simpl. apply IH. apply next_token_opener in T. lia.
Qed.

(** What the loop returns is [-1] or the closer the scan ends on. *)
Lemma closingTag_loop_result (text : str) (fuel : nat) (i depth r : Z) :
  while_loop fuel (closingTag_body text) (i, depth) = Some r ->
  r = -1 \/ closes_at text i depth r.
Proof.
  revert i depth. induction fuel as [|fuel IH]; intros i depth;
    cbn [while_loop]; [discriminate|].
  rewrite closingTag_body_token.
  destruct (Z.ltb_spec i (len text)) as [Hi|Hi]; simpl; [|intros [= <-]; auto].
  destruct (Z.ltb_spec 0 depth) as [Hd|Hd]; [|intros [= <-]; auto].
  destruct (next_token text i) as [o n|c|] eqn:T.
  - intros E. apply IH in E as [->|E]; [auto|].
    right. eapply closes_behind_opener; eassumption.
  - destruct (Z.eqb_spec (depth - 1) 0) as [Hz|Hz].
    + intros [= <-]. right. replace depth with 1 by lia.
      apply closes_here; assumption.
    + intros E. apply IH in E as [->|E]; [auto|].
      right. eapply closes_later; try eassumption. lia.
  - intros [= <-]. auto.
Qed.

Lemma closes_at_closer (text : str) (i depth r : Z) :
  closes_at text i depth r -> 0 <= i ->
  i <= r /\ starts CLOSE_MARK (skipn (Z.to_nat r) text) = true.
Proof.
  induction 1 as [i r Hi T | i depth c r Hi Hd T _ IH | i depth o n r Hi Hd T _ IH];
    intros H0.
  - apply next_token_closer in T as [T1 T2]. auto.
  - apply next_token_closer in T as [T1 _]. destruct IH; [lia|]. split; [lia | assumption].
  - apply next_token_opener in T as [T1 T2]. destruct IH; [lia|]. split; [lia | assumption].
Qed.

(** What the matcher returns is [-1] or the index of a closing marker
    behind the opening tag. *)
Lemma findMatchingClosingTag_closer (text : str) (startIndex : Z)
  (openingTag : str) (r : Z) :
  0 <= startIndex ->
  findMatchingClosingTag text startIndex openingTag = Some r ->
  r = -1
  \/ (startIndex + len openingTag <= r
      /\ starts CLOSE_MARK (skipn (Z.to_nat r) text) = true).
Proof.
  intros H0 Hr. pose proof (len_nonneg openingTag) as Lt.
  unfold findMatchingClosingTag in Hr.
  destruct (closingTag_loop_result _ _ _ _ _ Hr) as [->|Hc]; [left; reflexivity|].
  right. apply closes_at_closer in Hc; [exact Hc | lia].
Qed.

(** C5.  Termination is as the claim says: for every text, every starting
    index, negative or past the end included, and every opening tag, a
    turn of the loop that goes on strictly increases the scan index, and
    [findMatchingClosingTag] returns; from a start index that is not
    negative it returns [-1] or the index of a closing marker behind the
    opening tag.  That closing marker is not always the depth-matching
    one: behind a closing marker the scan resumes at [closingMatch + 4],
    one code unit more than [</>] is long, so a closing marker that stands
    right behind another one is not seen.  On [<>'a'<>'b'x</></> y </>]
    the depth count reaches 0 on the closing marker at 14, and the code
    returns the one at 20. *)
Theorem findMatchingClosingTag_skips_closer :
  (forall text i depth i' depth',
      closingTag_body text (i, depth) = Some (Next (i', depth')) -> i < i')
  /\ (forall text startIndex openingTag,
        exists r, findMatchingClosingTag text startIndex openingTag = Some r)
  /\ (forall text startIndex openingTag r,
        0 <= startIndex ->
        findMatchingClosingTag text startIndex openingTag = Some r ->
        r = -1
        \/ (startIndex + len openingTag <= r
            /\ starts CLOSE_MARK (skipn (Z.to_nat r) text) = true))
  /\ findMatchingClosingTag (u "<>'a'<>'b'x</></> y </>") 0 (u "<>'a'") = Some 20
  /\ matching_closer (u "<>'a'<>'b'x</></> y </>") 0 (u "<>'a'") = 14
  /\ starts CLOSE_MARK (skipn 14 (u "<>'a'<>'b'x</></> y </>")) = true.
Proof.
  split; [|split; [|split; [|split; [|split]]]].
  - intros text i depth i' depth' H. apply closingTag_body_progress in H. lia.
  - intros text startIndex openingTag. apply closingTag_loop_total. lia.
  - intros text startIndex openingTag r H0 Hr.
    exact (findMatchingClosingTag_closer text startIndex openingTag r H0 Hr).
  - vm_compute. reflexivity.
  - vm_compute. reflexivity.
  - reflexivity.
Qed.

(** On the nesting example of the specification the count and the code
    agree. *)
Example matching_closer_nested :
  matching_closer (u "<>'a' X <>'b' Y </> Z </>") 0 (u "<>'a'") = 22.
Proof. vm_compute. reflexivity. Qed.

(** The matcher on an opener with an empty class list and on nested
    blocks. *)
Example findMatchingClosingTag_nested :
  findMatchingClosingTag (u "<>'a' X <>'b' Y </> Z </>") 0 (u "<>'a'") = Some 22.
Proof. reflexivity. Qed.

Example findMatchingClosingTag_empty_class :
  findMatchingClosingTag (u "<>'a'<>''x</> </>") 0 (u "<>'a'") = Some 14.
Proof. reflexivity. Qed.

(** Behind a closer the scan resumes four code units on, one more than
    the marker is long: a closer right behind another one is not seen. *)
Example findMatchingClosingTag_adjacent_closers :
  findMatchingClosingTag (u "<>'a'<>'b'x</></>") 0 (u "<>'a'") = Some (-1).
Proof. reflexivity. Qed.

(** ** Replacement *)

(** Passing over the rest of a match is skipping that many code units. *)
Lemma replace_from_skip {St : Type} (m : matcher) (f : St -> str -> str * St)
  (k : nat) (s : str) (st : St) :
  replace_from m f k s st = replace_from m f O (skipn k s) st.
Proof.
  revert k. induction s as [|c s IH]; intros [|k]; simpl; try reflexivity.
  apply IH.
Qed.

Lemma replace_from_skip_all {St : Type} (m : matcher) (f : St -> str -> str * St)
  (k : nat) (s : str) (st : St) :
  (length s <= k)%nat -> replace_from m f k s st = ([], st).
Proof.
  intros H. rewrite replace_from_skip, skipn_all2 by exact H. reflexivity.
Qed.

(** Where the expression matches nowhere, nothing is replaced. *)
Lemma replace_from_no_match {St : Type} (m : matcher) (f : St -> str -> str * St)
  (s : str) (st : St) :
  (forall j, m (skipn j s) = None) -> replace_from m f O s st = (s, st).
Proof.
  induction s as [|c s IH]; intros H; simpl; [reflexivity|].
  rewrite (H O : m (c :: s) = None).
  rewrite IH; [reflexivity|]. intros j. apply (H (S j)).
Qed.

(** A prefix in which no match starts is copied. *)
Lemma replace_from_prefix {St : Type} (m : matcher) (f : St -> str -> str * St)
  (p rest : str) (st : St) :
  (forall j, (j < length p)%nat -> m (skipn j (p ++ rest)) = None) ->
  replace_from m f O (p ++ rest) st =
    (p ++ fst (replace_from m f O rest st), snd (replace_from m f O rest st)).
Proof.
  induction p as [|c p IH]; intros H; simpl.
  - destruct (replace_from m f O rest st). reflexivity.
  - rewrite (H O ltac:(simpl; lia) : m (c :: p ++ rest) = None).
    rewrite IH; [reflexivity|]. intros j Hj. apply (H (S j)). simpl. lia.
Qed.

(** A callback that returns the match leaves the text as it is. *)
Lemma replace_from_same {St : Type} (m : matcher) (f : St -> str -> str * St)
  (s : str) :
  (forall s n, m s = Some n -> (1 <= n)%nat) ->
  (forall st mt, fst (f st mt) = mt) ->
  forall skip st, fst (replace_from m f skip s st) = skipn skip s.
Proof.
  intros Hm Hf. induction s as [|c s IH]; intros skip st; simpl.
  - destruct skip; reflexivity.
  - destruct skip as [|k]; [|apply IH].
    destruct (m (c :: s)) as [n|] eqn:E.
    + apply Hm in E. destruct n as [|n]; [lia|].
      specialize (Hf st (firstn (S n) (c :: s))). specialize (IH n).
      destruct (f st (firstn (S n) (c :: s))) as [r st1]. simpl in Hf. subst r.
      specialize (IH st1). simpl.
      destruct (replace_from m f n s st1) as [out st2]. simpl in *.
      rewrite IH. f_equal. apply firstn_skipn.
    + specialize (IH O st).
      destruct (replace_from m f O s st) as [out st2]. simpl in *.
      rewrite IH. reflexivity.
Qed.

Lemma replace_fn_same (m : matcher) (f : str -> str) (s : str) :
  (forall s n, m s = Some n -> (1 <= n)%nat) ->
  (forall mt, f mt = mt) ->
  replace_fn m f s = s.
Proof.
  intros Hm Hf. unfold replace_fn.
  apply (replace_from_same m (fun (st : unit) mt => (f mt, st)) s Hm).
  intros st mt. apply Hf.
Qed.

Section NoNewOccurrence.

(** Replacements are non-empty and made of code units of one class [ph];
    the pattern [q] has no code unit of that class.  Then a replacement can
    neither contain a part of [q] nor join two parts of it. *)
Context {St : Type}.
Variable m : matcher.
Variable f : St -> str -> str * St.
Variable ph : cu -> bool.
Hypothesis f_nonempty : forall st mt, fst (f st mt) <> [].
Hypothesis f_class : forall st mt, forallb ph (fst (f st mt)) = true.

Lemma replace_from_starts (q : str) :
  forallb (fun c => negb (ph c)) q = true ->
  forall s st, starts q (fst (replace_from m f O s st)) = true -> starts q s = true.
Proof.
  induction q as [|x q IH]; intros Hq s st; [reflexivity|].
  simpl in Hq. apply andb_true_iff in Hq as [Hx Hq].
  destruct s as [|c s]; simpl; [discriminate|].
  destruct (m (c :: s)) as [n|].
  - pose proof (f_nonempty st (firstn n (c :: s))) as Hne.
    pose proof (f_class st (firstn n (c :: s))) as Hcl.
    destruct (f st (firstn n (c :: s))) as [r st1]. simpl in Hne, Hcl.
    destruct (replace_from m f (pred n) s st1) as [out st2].
    destruct r as [|y r]; [congruence|]. simpl in *.
    apply andb_true_iff in Hcl as [Hy _].
    destruct (N.eqb_spec x y) as [->|]; [|discriminate].
    rewrite Hy in Hx. discriminate.
  - specialize (IH Hq s st).
    destruct (replace_from m f O s st) as [out st2]. simpl in *.
    destruct (x =? c)%N; [|discriminate]. simpl. exact IH.
Qed.

Lemma replace_from_occurs_at (q : str) :
  q <> [] -> forallb (fun c => negb (ph c)) q = true ->
  forall s skip st j,
    starts q (skipn j (fst (replace_from m f skip s st))) = true -> occurs q s.
Proof.
  intros Hne Hq. induction s as [|c s IH]; intros skip st j; simpl.
  - rewrite skipn_nil. destruct q; [congruence | discriminate].
  - destruct skip as [|k].
    + destruct (m (c :: s)) as [n|] eqn:Hm.
      * pose proof (f_nonempty st (firstn n (c :: s))) as Hrn.
        pose proof (f_class st (firstn n (c :: s))) as Hcl.
        destruct (f st (firstn n (c :: s))) as [r st1]. simpl in Hrn, Hcl.
        specialize (IH (pred n) st1 (j - length r)%nat).
        destruct (replace_from m f (pred n) s st1) as [out st2]. simpl in *.
        intros H. destruct (Nat.lt_ge_cases j (length r)) as [Hj|Hj].
        -- exfalso. rewrite skipn_app in H.
           destruct (skipn j r) as [|y r'] eqn:Hr.
           ++ apply (f_equal (@length cu)) in Hr. rewrite length_skipn in Hr.
              simpl in Hr. lia.
           ++ assert (Hy : ph y = true).
              { assert (Hall : forallb ph (skipn j r) = true).
                { rewrite <- (firstn_skipn j r), forallb_app in Hcl.
                  apply andb_true_iff in Hcl. apply Hcl. }
                rewrite Hr in Hall. simpl in Hall.
                apply andb_true_iff in Hall. apply Hall. }
              destruct q as [|x q]; [congruence|]. simpl in H, Hq.
              destruct (N.eqb_spec x y) as [->|]; [|discriminate].
              rewrite Hy in Hq. discriminate.
        -- apply occurs_cons, IH.
           rewrite skipn_app, skipn_all2 in H by lia. exact H.
      * specialize (IH O st).
        pose proof (replace_from_starts q Hq (c :: s) st) as Hst.
        simpl in Hst. rewrite Hm in Hst.
        destruct (replace_from m f O s st) as [out st2]. simpl in *.
        destruct j as [|j]; simpl.
        -- intros H. apply occurs_skipn. exists O. apply Hst. exact H.
        -- intros H. apply occurs_cons. eapply IH. exact H.
    + intros H. apply occurs_cons. eapply IH. exact H.
Qed.

(** The replacement creates no new occurrence of [q]. *)
Lemma replace_from_occurs (q : str) (s : str) (st : St) :
  q <> [] -> forallb (fun c => negb (ph c)) q = true ->
  occurs q (fst (replace_from m f O s st)) -> occurs q s.
Proof.
  intros Hne Hq H. apply occurs_skipn in H as [j H].
  eapply replace_from_occurs_at; eassumption.
Qed.

End NoNewOccurrence.

(** ** Code Guard *)

Lemma is_digit_mod10 (n : N) : is_digit (48 + n mod 10)%N = true.
Proof.
  unfold is_digit.
  pose proof (N.mod_upper_bound n 10 ltac:(discriminate)) as H.
  revert H. generalize (n mod 10)%N. intros r H.
  apply andb_true_iff. split; apply N.leb_le; lia.
Qed.

Lemma digits_class (fuel : nat) (n : N) (acc : str) :
  forallb is_digit acc = true -> forallb is_digit (digits fuel n acc) = true.
Proof.
  revert n acc. induction fuel as [|fuel IH]; intros n acc Hacc;
    cbn [digits].
  - cbn [forallb]. rewrite is_digit_mod10, Hacc. reflexivity.
  - destruct (n <? 10)%N.
    + cbn [forallb]. rewrite is_digit_mod10, Hacc. reflexivity.
    + apply IH. cbn [forallb]. rewrite is_digit_mod10, Hacc. reflexivity.
Qed.

Lemma digit_is_placeholder_cu (s : str) :
  forallb is_digit s = true -> forallb is_placeholder_cu s = true.
Proof.
  induction s as [|c s IH]; simpl; [reflexivity|].
  intros H. apply andb_true_iff in H as [Hc Hs].
  rewrite IH by assumption. unfold is_placeholder_cu. rewrite Hc.
  rewrite orb_true_r. reflexivity.
Qed.

Lemma protect_cb_class (tag : str) (codeBlocks : list str) (mt : str) :
  forallb is_placeholder_cu tag = true ->
  forallb is_placeholder_cu (fst (protect_cb tag codeBlocks mt)) = true.
Proof.
  intros Ht. unfold protect_cb. simpl.
  rewrite !forallb_app, Ht. simpl.
  rewrite digit_is_placeholder_cu; [reflexivity|].
  apply digits_class. reflexivity.
Qed.

Lemma protect_cb_nonempty (tag : str) (codeBlocks : list str) (mt : str) :
  fst (protect_cb tag codeBlocks mt) <> [].
Proof.
  unfold protect_cb. simpl. intros H.
  apply app_eq_nil in H as [_ H]. apply app_eq_nil in H as [_ H].
  discriminate.
Qed.

(** Protecting code creates no occurrence of a pattern that has no
    placeholder code unit, such as the opening and the closing marker. *)
Lemma protectCodeBlocks_occurs (q text : str) :
  q <> [] -> forallb (fun c => negb (is_placeholder_cu c)) q = true ->
  occurs q (fst (protectCodeBlocks text)) -> occurs q text.
Proof.
  intros Hne Hq. unfold protectCodeBlocks.
  destruct (replace_from re_inline_code (protect_cb INLINE_TAG) O text [])
    as [t1 cb1] eqn:E1.
  destruct (replace_from re_fenced_code (protect_cb FENCED_TAG) O t1 cb1)
    as [t2 cb2] eqn:E2.
  simpl. intros H.
  assert (H1 : occurs q t1).
  { apply (replace_from_occurs re_fenced_code (protect_cb FENCED_TAG)
             is_placeholder_cu) with (st := cb1); try assumption.
    - intros st mt. apply protect_cb_nonempty.
    - intros st mt. apply protect_cb_class. reflexivity.
    - rewrite E2. exact H. }
  apply (replace_from_occurs re_inline_code (protect_cb INLINE_TAG)
           is_placeholder_cu) with (st := []); try assumption.
  - intros st mt. apply protect_cb_nonempty.
  - intros st mt. apply protect_cb_class. reflexivity.
  - rewrite E1. exact H1.
Qed.

Lemma skipn_head_of_prefix (p rest : str) (j : nat) :
  (j < length p)%nat ->
  exists c t, skipn j (p ++ rest) = c :: t /\ In c p.
Proof.
  revert j. induction p as [|x p IH]; intros j Hj; simpl in *; [lia|].
  destruct j as [|j]; simpl.
  - eauto.
  - destruct (IH j ltac:(lia)) as (c & t & E & Hin). eauto.
Qed.

Lemma starts_head (c0 : cu) (q s : str) :
  starts (c0 :: q) s = true -> exists t, s = c0 :: t.
Proof. intros H. apply starts_iff in H as [t ->]. eexists. reflexivity. Qed.

Lemma starts_no_head (c0 : cu) (q p r : str) (j : nat) :
  forallb (is_not c0) p = true -> (j < length p)%nat ->
  starts (c0 :: q) (skipn j (p ++ r)) = false.
Proof.
  intros Hp Hj. destruct (starts (c0 :: q) (skipn j (p ++ r))) eqn:E; [|reflexivity].
  exfalso. apply starts_head in E as [t E].
  destruct (skipn_head_of_prefix p r j Hj) as (c & t' & E' & Hin).
  rewrite E' in E. injection E as -> _.
  rewrite forallb_forall in Hp. specialize (Hp _ Hin).
  unfold is_not in Hp. rewrite N.eqb_refl in Hp. discriminate.
Qed.

Lemma re_inline_code_head (s : str) (n : nat) :
  re_inline_code s = Some n -> exists t, s = TICK :: t.
Proof.
  intros H. apply m_until_starts in H. apply starts_iff in H as [t ->].
  exists t. reflexivity.
Qed.

Lemma re_fenced_code_head (s : str) (n : nat) :
  re_fenced_code s = Some n -> exists t, s = TICK :: t.
Proof.
  unfold re_fenced_code. destruct (starts (u "```") s) eqn:E; [|discriminate].
  intros _. apply starts_iff in E as [t ->].
  exists ([TICK; TICK] ++ t). reflexivity.
Qed.

Lemma no_tick_no_match (m : matcher) (p rest : str) :
  (forall s n, m s = Some n -> exists t, s = TICK :: t) ->
  forallb (is_not TICK) p = true ->
  forall j, (j < length p)%nat -> m (skipn j (p ++ rest)) = None.
Proof.
  intros Hm Hp j Hj.
  destruct (skipn_head_of_prefix p rest j Hj) as (c & t & E & Hin).
  destruct (m (skipn j (p ++ rest))) as [n|] eqn:M; [|reflexivity].
  apply Hm in M as [t' E']. rewrite E in E'. injection E' as -> _.
  rewrite forallb_forall in Hp. specialize (Hp _ Hin).
  unfold is_not in Hp. rewrite N.eqb_refl in Hp. discriminate.
Qed.

(** A prefix without backtick is left alone by the Code Guard, and does
    not change what the Code Guard does behind it. *)
Lemma protectCodeBlocks_prefix (p rest : str) :
  forallb (is_not TICK) p = true ->
  protectCodeBlocks (p ++ rest) =
    (p ++ fst (protectCodeBlocks rest), snd (protectCodeBlocks rest)).
Proof.
  intros Hp. unfold protectCodeBlocks.
  rewrite (replace_from_prefix re_inline_code)
    by (apply no_tick_no_match; [apply re_inline_code_head | exact Hp]).
  destruct (replace_from re_inline_code (protect_cb INLINE_TAG) O rest [])
    as [t1 cb1]. simpl.
  rewrite (replace_from_prefix re_fenced_code)
    by (apply no_tick_no_match; [apply re_fenced_code_head | exact Hp]).
  destruct (replace_from re_fenced_code (protect_cb FENCED_TAG) O t1 cb1)
    as [t2 cb2]. reflexivity.
Qed.

Lemma re_placeholder_nonempty (tag s : str) (n : nat) :
  re_placeholder tag s = Some n -> (1 <= n)%nat.
Proof.
  unfold re_placeholder. destruct (starts tag s); [|discriminate].
  destruct (_ && _)%bool; [|discriminate]. intros [= <-]. lia.
Qed.

(** With an empty table every placeholder-like text is kept. *)
Lemma restoreCodeBlocks_empty_table (text : str) :
  restoreCodeBlocks text [] = text.
Proof.
  unfold restoreCodeBlocks.
  assert (Hcb : forall tag mt, restore_cb tag [] mt = mt).
  { intros tag mt. unfold restore_cb.
    destruct (N.to_nat _); reflexivity. }
  rewrite (replace_fn_same (re_placeholder INLINE_TAG));
    [| apply re_placeholder_nonempty | apply Hcb].
  apply replace_fn_same; [apply re_placeholder_nonempty | apply Hcb].
Qed.

(** A text without backtick has no code to protect. *)
Lemma protectCodeBlocks_no_tick (text : str) :
  forallb (is_not TICK) text = true -> protectCodeBlocks text = (text, []).
Proof.
  intros H. rewrite <- (app_nil_r text) at 1.
  rewrite protectCodeBlocks_prefix by exact H.
  simpl. rewrite app_nil_r. reflexivity.
Qed.

(** The Code Guard round trip on a text without backtick. *)
Lemma restore_protect_no_tick (text : str) :
  forallb (is_not TICK) text = true ->
  restoreCodeBlocks (fst (protectCodeBlocks text)) (snd (protectCodeBlocks text))
  = text.
Proof.
  intros H. rewrite protectCodeBlocks_no_tick by exact H.
  apply restoreCodeBlocks_empty_table.
Qed.

(** C8.  The Code Guard on a fence of four backticks.  The text has no
    placeholder in it.  The inline pattern takes [`a`] out of the middle,
    the fenced pattern then takes the rest with the inline placeholder
    inside; restoring replaces inline placeholders first, when the only
    one is still hidden in the table, so the restored text keeps it. *)
Theorem restoreCodeBlocks_loses_nested_code :
  search (re_placeholder INLINE_TAG) (u "````a````") = None
  /\ search (re_placeholder FENCED_TAG) (u "````a````") = None
  /\ protectCodeBlocks (u "````a````")
     = (u "__FENCED_CODE_1__", [u "`a`"; u "```__INLINE_CODE_0__```"])
  /\ restoreCodeBlocks (fst (protectCodeBlocks (u "````a````")))
       (snd (protectCodeBlocks (u "````a````")))
     = u "```__INLINE_CODE_0__```"
  /\ restoreCodeBlocks (fst (protectCodeBlocks (u "````a````")))
       (snd (protectCodeBlocks (u "````a````")))
     <> u "````a````".
Proof. vm_compute. repeat split; try reflexivity. discriminate. Qed.

(** Where no fence is left after the inline pass, the round trip works. *)
Example restoreCodeBlocks_inline_roundtrip :
  restoreCodeBlocks (fst (protectCodeBlocks (u "a `b` c ```d``` e")))
    (snd (protectCodeBlocks (u "a `b` c ```d``` e")))
  = u "a `b` c ```d``` e".
Proof. vm_compute. reflexivity. Qed.

(** A placeholder prefix in the text, right before a code span, runs into
    the generated placeholder: the restore pattern then matches across
    the two and the code is not restored either. *)
Example restoreCodeBlocks_placeholder_prefix :
  search (re_placeholder INLINE_TAG) (u "__INLINE_CODE_1`a`") = None
  /\ restoreCodeBlocks (fst (protectCodeBlocks (u "__INLINE_CODE_1`a`")))
       (snd (protectCodeBlocks (u "__INLINE_CODE_1`a`")))
     = u "__INLINE_CODE_1__INLINE_CODE_0__".
Proof. vm_compute. split; reflexivity. Qed.

(** ** Block Processor *)

Lemma not_occurs_starts (p s : str) (j : nat) :
  ~ occurs p s -> starts p (skipn j s) = false.
Proof.
  intros H. destruct (starts p (skipn j s)) eqn:E; [|reflexivity].
  exfalso. apply H, occurs_skipn. eauto.
Qed.

(** Without a closing marker in the text the matcher finds none. *)
Lemma findMatchingClosingTag_no_closer (text : str) (startIndex : Z) (openingTag : str) :
  0 <= startIndex -> ~ occurs CLOSE_MARK text ->
  findMatchingClosingTag text startIndex openingTag = Some (-1).
Proof.
  intros H0 Hno. destruct (closingTag_total text startIndex openingTag) as [r Hr].
  rewrite Hr. f_equal. unfold findMatchingClosingTag in Hr.
  destruct (closingTag_loop_result _ _ _ _ _ Hr) as [->|Hc]; [reflexivity|].
  exfalso. pose proof (len_nonneg openingTag).
  apply closes_at_closer in Hc as [_ Hc]; [|lia].
  rewrite not_occurs_starts in Hc by assumption. discriminate.
Qed.

Lemma m_until_eval (lit : str) (stop : cu) (least : nat) (run rest : str) :
  forallb (is_not stop) run = true ->
  m_until lit stop least (lit ++ run ++ stop :: rest)
  = if Nat.leb least (length run)
    then Some (length lit + length run + 1)%nat else None.
Proof.
  intros Hrun. unfold m_until. rewrite starts_app.
  rewrite skipn_app, skipn_all, Nat.sub_diag. simpl.
  rewrite span_len_run
    by (try assumption; unfold is_not; rewrite N.eqb_refl; reflexivity).
  rewrite nth_error_app2, Nat.sub_diag by lia. reflexivity.
Qed.

Lemma exec_open_nonneg (text : str) (k : Z) (fullMatch group1 : str) :
  exec_open text = Some (k, fullMatch, group1) -> 0 <= k.
Proof.
  unfold exec_open. destruct (search re_open text) as [j|]; [|discriminate].
  destruct (re_open (skipn j text)); [|discriminate].
  intros [= <- _ _]. lia.
Qed.

Lemma exec_open_none (text : str) : ~ occurs OPEN_MARK text -> exec_open text = None.
Proof.
  intros Hno. unfold exec_open. rewrite search_none_intro; [reflexivity|].
  intros j. destruct (re_open (skipn j text)) as [n|] eqn:E; [|reflexivity].
  apply m_until_starts in E. rewrite not_occurs_starts in E by assumption.
  discriminate.
Qed.

Lemma skipn_exact {A} (a b : list A) : skipn (length a) (a ++ b) = b.
Proof. rewrite skipn_app, skipn_all, Nat.sub_diag. reflexivity. Qed.

Lemma firstn_exact {A} (a b : list A) : firstn (length a) (a ++ b) = a.
Proof. rewrite firstn_app, firstn_all, Nat.sub_diag. apply app_nil_r. Qed.

Lemma opener_assoc (cls rest : str) :
  OPEN_MARK ++ cls ++ QUOTE :: rest = (OPEN_MARK ++ cls ++ [QUOTE]) ++ rest.
Proof. rewrite <- !app_assoc. reflexivity. Qed.

Lemma opener_length (cls : str) :
  length (OPEN_MARK ++ cls ++ [QUOTE]) = (length OPEN_MARK + length cls + 1)%nat.
Proof. rewrite !length_app. simpl. lia. Qed.

(** The first opening marker of a text, its class list free of quotes. *)
Lemma exec_open_at (pre cls rest : str) :
  search re_open (pre ++ OPEN_MARK ++ cls ++ QUOTE :: rest) = Some (length pre) ->
  forallb (is_not QUOTE) cls = true ->
  exec_open (pre ++ OPEN_MARK ++ cls ++ QUOTE :: rest)
  = Some (len pre, OPEN_MARK ++ cls ++ [QUOTE], cls).
Proof.
  intros Hs Hq. unfold exec_open. rewrite Hs.
  destruct (search_some _ _ _ Hs) as (_ & (n & Hn) & _).
  rewrite skipn_exact in *.
  unfold re_open in *. rewrite m_until_eval in * by assumption.
  destruct (Nat.leb_spec 1 (length cls)) as [Hl|]; [|discriminate]. clear Hn.
  rewrite <- opener_length, (opener_assoc cls rest), firstn_exact.
  change (skipn 3 (OPEN_MARK ++ cls ++ [QUOTE])) with (cls ++ [QUOTE]).
  replace (length (OPEN_MARK ++ cls ++ [QUOTE]) - 4)%nat with (length cls)
    by (rewrite opener_length; simpl; lia).
  rewrite firstn_exact. reflexivity.
Qed.

Section BlockProcessorFacts.

Variable marked_parse : str -> str.
Variable rec : str -> M str.

(** No closing marker: [processAngleBlocks] changes nothing and calls
    neither the Bridge nor itself. *)
Lemma processAngleBlocks_no_closer (text : str) :
  ~ occurs CLOSE_MARK text ->
  processAngleBlocks marked_parse rec text = ret text.
Proof.
  intros Hno. unfold processAngleBlocks.
  destruct (exec_open text) as [[[k fullMatch] group1]|] eqn:E; [|reflexivity].
  rewrite findMatchingClosingTag_no_closer;
    [reflexivity | eapply exec_open_nonneg; eassumption | assumption].
Qed.

Lemma processAngleBlocks_no_opener (text : str) :
  ~ occurs OPEN_MARK text ->
  processAngleBlocks marked_parse rec text = ret text.
Proof.
  intros Hno. unfold processAngleBlocks. rewrite exec_open_none by assumption.
  reflexivity.
Qed.

(** A pass that changes nothing ends the loop at once. *)
Lemma passes_fixpoint (pass : str -> M str) (n : nat) (result : str) :
  pass result = ret result -> passes pass (S n) result = ret result.
Proof.
  intros H. simpl. rewrite H. simpl. rewrite str_eqb_refl. reflexivity.
Qed.

End BlockProcessorFacts.

Lemma lazy_stop_all (s : str) :
  ~ occurs OPEN_MARK s -> ~ occurs CLOSE_MARK s -> lazy_stop s = length s.
Proof.
  induction s as [|c s IH]; intros Ho Hc.
  - reflexivity.
  - cbn [lazy_stop].
    rewrite (not_occurs_starts OPEN_MARK (c :: s) 0 Ho : starts OPEN_MARK (c :: s) = false).
    rewrite (not_occurs_starts CLOSE_MARK (c :: s) 0 Hc : starts CLOSE_MARK (c :: s) = false).
    simpl. f_equal. apply IH.
    + intros H. apply Ho, occurs_cons, H.
    + intros H. apply Hc, occurs_cons, H.
Qed.

(** A match that covers the whole text is replaced as a whole. *)
Lemma replace_fn_whole (m : matcher) (f : str -> str) (s : str) (n : nat) :
  s <> [] -> m s = Some n -> (length s <= n)%nat ->
  replace_fn m f s = f s.
Proof.
  intros Hne Hm Hn. unfold replace_fn. destruct s as [|c s]; [congruence|].
  simpl. rewrite Hm. simpl in Hn.
  rewrite replace_from_skip_all by lia. simpl.
  rewrite firstn_all2 by (simpl; lia). apply app_nil_r.
Qed.

(** An unterminated block is removed as a whole by the clean-up. *)
Lemma removeUnprocessed_unterminated (cls rest : str) :
  forallb (is_not QUOTE) cls = true ->
  ~ occurs OPEN_MARK rest -> ~ occurs CLOSE_MARK rest ->
  removeUnprocessed (OPEN_MARK ++ cls ++ QUOTE :: rest) = [].
Proof.
  intros Hq Ho Hc. unfold removeUnprocessed.
  assert (Hin : includes OPEN_MARK (OPEN_MARK ++ cls ++ QUOTE :: rest) = true).
  { apply includes_occurs. exists [], (cls ++ QUOTE :: rest). reflexivity. }
  rewrite Hin. unfold remove_all at 2.
  rewrite (replace_fn_whole re_unprocessed _ _
             (length (OPEN_MARK ++ cls ++ QUOTE :: rest))).
  - reflexivity.
  - discriminate.
  - unfold re_unprocessed, re_open_any.
    rewrite m_until_eval by assumption. cbn [Nat.leb].
    rewrite <- opener_length, (opener_assoc cls rest), skipn_exact.
    rewrite lazy_stop_all by assumption. f_equal.
    rewrite (length_app (OPEN_MARK ++ cls ++ [QUOTE]) rest). reflexivity.
  - lia.
Qed.

Section ParseFacts.

Variable marked_parse : str -> str.

Lemma no_tick_opener (cls : str) :
  forallb (is_not TICK) cls = true ->
  forallb (is_not TICK) (OPEN_MARK ++ cls ++ [QUOTE]) = true.
Proof.
  intros H. rewrite !forallb_app, H. reflexivity.
Qed.

(** An opening marker that nothing closes: the block processor returns the
    empty text and the Bridge is not called. *)
Lemma processAllBlocks_unterminated (fuel : nat) (cls content : str) :
  forallb (is_not QUOTE) cls = true ->
  forallb (is_not TICK) cls = true ->
  ~ occurs OPEN_MARK content ->
  ~ occurs CLOSE_MARK (OPEN_MARK ++ cls ++ QUOTE :: content) ->
  processAllBlocks marked_parse (S fuel) (OPEN_MARK ++ cls ++ QUOTE :: content)
  = ret [].
Proof.
  intros Hq Ht Ho Hc.
  assert (Hcc : ~ occurs CLOSE_MARK content).
  { intros H. apply Hc. rewrite opener_assoc. apply occurs_app_r, H. }
  assert (Hpc : ~ occurs CLOSE_MARK
                  (fst (protectCodeBlocks (OPEN_MARK ++ cls ++ QUOTE :: content)))).
  { intros H. apply Hc.
    apply (protectCodeBlocks_occurs CLOSE_MARK); [discriminate | reflexivity | exact H]. }
  cbn [processAllBlocks].
  rewrite (opener_assoc cls content) in *.
  rewrite protectCodeBlocks_prefix in * by (apply no_tick_opener; exact Ht).
  cbn [fst] in Hpc. cbv iota beta. unfold maxIterations.
  rewrite passes_fixpoint by (apply processAngleBlocks_no_closer; exact Hpc).
  cbn [bind ret]. rewrite <- (opener_assoc cls).
  rewrite removeUnprocessed_unterminated; [reflexivity | assumption | |].
  - intros H. apply Ho.
    apply (protectCodeBlocks_occurs OPEN_MARK); [discriminate | reflexivity | exact H].
  - intros H. apply Hcc.
    apply (protectCodeBlocks_occurs CLOSE_MARK); [discriminate | reflexivity | exact H].
Qed.

(** C4, as amended.  An opening marker with its class list, the class
    list without backtick, followed by content in which the opening marker
    syntax does not come again, and no closing marker anywhere: [parse]
    returns (for every recursion budget of at least 1), and what it returns
    does not contain the opening marker syntax.  It is the empty text, and
    the Bridge is not called. *)
Theorem parse_unterminated_block
  (fuel : nat) (cls content : str) (options : MarkOverOptions) :
  forallb (is_not QUOTE) cls = true ->
  forallb (is_not TICK) cls = true ->
  includes OPEN_MARK content = false ->
  includes CLOSE_MARK (OPEN_MARK ++ cls ++ QUOTE :: content) = false ->
  exists html log,
    parse marked_parse (S fuel) (OPEN_MARK ++ cls ++ QUOTE :: content) options
    = Some (html, log)
    /\ includes OPEN_MARK html = false /\ html = [] /\ log = [].
Proof.
  intros Hq Ht Ho Hc. exists [], []. split; [|auto].
  assert (Hb : is_empty (trim (OPEN_MARK ++ cls ++ QUOTE :: content)) = false)
    by (apply (not_blank_cons 60%N); reflexivity).
  unfold parse. rewrite Hb.
  rewrite processAllBlocks_unterminated;
    try assumption; try (apply includes_false; assumption).
  reflexivity.
Qed.

(** No opening marker: the block processor returns what the Code Guard
    restores, and the Bridge is not called. *)
Lemma processAllBlocks_no_marker (fuel : nat) (text : str) :
  ~ occurs OPEN_MARK text ->
  processAllBlocks marked_parse (S fuel) text
  = ret (restoreCodeBlocks (fst (protectCodeBlocks text)) (snd (protectCodeBlocks text))).
Proof.
  intros Ho.
  assert (Hp : ~ occurs OPEN_MARK (fst (protectCodeBlocks text))).
  { intros H. apply Ho.
    apply (protectCodeBlocks_occurs OPEN_MARK); [discriminate | reflexivity | exact H]. }
  cbn [processAllBlocks].
  destruct (protectCodeBlocks text) as [protectedText codeBlocks].
  cbn [fst snd] in *. unfold maxIterations.
  rewrite passes_fixpoint by (apply processAngleBlocks_no_opener; exact Hp).
  cbn [bind ret]. unfold removeUnprocessed.
  apply includes_false in Hp. rewrite Hp. reflexivity.
Qed.

(** A text without container markup is passed to the Bridge whole. *)
Lemma splitByDivs_no_div (text : str) :
  is_empty (trim text) = false -> includes DIV_CLASS text = false ->
  splitByDivsAndProcessMarkdown marked_parse text
  = Some (marked_parse text, [text]).
Proof.
  intros Hb Hd. unfold splitByDivsAndProcessMarkdown.
  cbn [while_logged]. unfold splitByDivs_body.
  assert (Hlen : 0 < len text).
  { destruct text; [discriminate | unfold len; simpl; lia]. }
  destruct (Z.ltb_spec 0 (len text)); [|lia].
  assert (Hi : indexOf DIV_CLASS text 0 = -1).
  { unfold indexOf, includes in *.
    replace (clamp 0 (len text) 0) with 0 by (unfold clamp; lia). simpl.
    destruct (find_first DIV_CLASS text); [discriminate | reflexivity]. }
  rewrite Hi. cbn [Z.eqb].
  rewrite substring_from_nonneg by lia. simpl skipn.
  unfold renderSpan. rewrite Hb. reflexivity.
Qed.

(** C3, as amended.  For a document that is not white space only, has no
    opening marker and no container opening [<div class=], and whose code
    spans the Code Guard restores exactly, [parse] returns what the Bridge
    renders for the whole document, and calls the Bridge once, on the
    document. *)
Theorem parse_without_markers
  (fuel : nat) (text : str) (options : MarkOverOptions) :
  is_empty (trim text) = false ->
  includes OPEN_MARK text = false ->
  includes DIV_CLASS text = false ->
  restoreCodeBlocks (fst (protectCodeBlocks text)) (snd (protectCodeBlocks text))
  = text ->
  parse marked_parse (S fuel) text options = Some (marked_parse text, [text]).
Proof.
  intros Hb Ho Hd Hr. unfold parse. rewrite Hb.
  rewrite processAllBlocks_no_marker by (apply includes_false; exact Ho).
  rewrite Hr. unfold processMarkdownOutsideDivs. cbn [bind ret].
  rewrite splitByDivs_no_div by assumption. reflexivity.
Qed.

(** The same for a document without backtick: there the Code Guard has
    nothing to restore. *)
Corollary parse_plain_document
  (fuel : nat) (text : str) (options : MarkOverOptions) :
  is_empty (trim text) = false ->
  includes OPEN_MARK text = false ->
  includes DIV_CLASS text = false ->
  forallb (is_not TICK) text = true ->
  parse marked_parse (S fuel) text options = Some (marked_parse text, [text]).
Proof.
  intros Hb Ho Hd Ht. unfold parse. rewrite Hb.
  rewrite processAllBlocks_no_marker by (apply includes_false; exact Ho).
  rewrite restore_protect_no_tick by exact Ht.
  unfold processMarkdownOutsideDivs. cbn [bind ret].
  rewrite splitByDivs_no_div by assumption. reflexivity.
Qed.

End ParseFacts.

Lemma parse_unterminated_block_witness :
  forallb (is_not QUOTE) (u "a") = true
  /\ forallb (is_not TICK) (u "a") = true
  /\ includes OPEN_MARK (u " X") = false
  /\ includes CLOSE_MARK (OPEN_MARK ++ u "a" ++ QUOTE :: u " X") = false
  /\ exists html log,
       parse paragraph_bridge 1 (OPEN_MARK ++ u "a" ++ QUOTE :: u " X") defaultOptions
       = Some (html, log)
       /\ includes OPEN_MARK html = false /\ html = [] /\ log = [].
Proof.
  repeat (split; [reflexivity|]).
  apply (parse_unterminated_block paragraph_bridge 0 (u "a") (u " X") defaultOptions);
    reflexivity.
Defined.

(** The input of the witness is the example of the specification. *)
Example unterminated_example_text :
  OPEN_MARK ++ u "a" ++ QUOTE :: u " X" = u "<>'a' X".
Proof. reflexivity. Qed.

(** C4 as stated fails where the content holds the opening marker syntax
    again.  The clean-up removes the first opener with the text up to the
    second [<>'] and stops there, as no quote closes a class list behind
    it: the only quote left is inside inline code, which the Code Guard has
    taken out.  The Code Guard then puts the code back, and the final pass
    copies the container with the code in it.  The output holds [<>'],
    whatever the Bridge returns. *)
Lemma parse_unterminated_keeps_marker :
  let content := u " X <>'b " ++ DIV_CLASS ++ u "c" ++ [DQUOTE] ++ u ">`<>'`</div>" in
  let text := OPEN_MARK ++ u "a" ++ QUOTE :: content in
  includes CLOSE_MARK text = false
  /\ forall marked_parse : str -> str,
       exists html log,
         parse marked_parse 1 text defaultOptions = Some (html, log)
         /\ html = marked_parse (u "<>'b ")
                     ++ DIV_CLASS ++ u "c" ++ [DQUOTE] ++ u ">`<>'`</div>"
         /\ log = [u "<>'b "]
         /\ includes OPEN_MARK html = true.
Proof.
  cbv zeta. split; [reflexivity|]. intros marked_parse.
  eexists. eexists. split; [vm_compute; reflexivity|].
  split; [reflexivity|]. split; [reflexivity|].
  apply includes_occurs. apply occurs_app_r.
  exists (DIV_CLASS ++ u "c" ++ [DQUOTE] ++ u ">`"), (u "`</div>"). reflexivity.
Qed.

(** With a backtick in the class list and another one behind it, the Code
    Guard swallows the closing quote and the text reaches the Bridge as it
    is; what the output holds is then up to the Bridge. *)
Example parse_unterminated_backtick :
  parse paragraph_bridge 1 (u "<>'a`b' `") defaultOptions
  = Some (u "<p><>'a`b' `</p>", [u "<>'a`b' `"]).
Proof. vm_compute. reflexivity. Qed.

Lemma parse_without_markers_witness :
  is_empty (trim (u "# Hi `code` there")) = false
  /\ includes OPEN_MARK (u "# Hi `code` there") = false
  /\ includes DIV_CLASS (u "# Hi `code` there") = false
  /\ restoreCodeBlocks (fst (protectCodeBlocks (u "# Hi `code` there")))
       (snd (protectCodeBlocks (u "# Hi `code` there")))
     = u "# Hi `code` there"
  /\ parse paragraph_bridge 1 (u "# Hi `code` there") defaultOptions
     = Some (paragraph_bridge (u "# Hi `code` there"), [u "# Hi `code` there"]).
Proof.
  repeat (split; [reflexivity|]).
  apply (parse_without_markers paragraph_bridge 0 (u "# Hi `code` there") defaultOptions);
    reflexivity.
Defined.

(** C3 as stated fails on a document with container markup of its own:
    the container is copied, and the Bridge gets the text before it and
    the text behind it, not the document. *)
Lemma parse_container_markup_not_bridge :
  let doc := u "a " ++ DIV_CLASS ++ u "x" ++ [DQUOTE] ++ u ">b</div> c" in
  doc <> [] /\ includes OPEN_MARK doc = false
  /\ exists html log,
       parse paragraph_bridge 1 doc defaultOptions = Some (html, log)
       /\ html = u "<p>a </p>" ++ DIV_CLASS ++ u "x" ++ [DQUOTE] ++ u ">b</div>"
                   ++ u "<p> c</p>"
       /\ log = [u "a "; u " c"]
       /\ html <> paragraph_bridge doc.
Proof.
  cbv zeta. split; [discriminate|]. split; [reflexivity|].
  eexists. eexists. split; [vm_compute; reflexivity|].
  split; [reflexivity|]. split; [reflexivity | discriminate].
Qed.

(** C3 also fails where the Code Guard does not restore the text. *)
Example parse_nested_fence :
  parse paragraph_bridge 1 (u "````a````") defaultOptions
  = Some (paragraph_bridge (u "```__INLINE_CODE_0__```"), [u "```__INLINE_CODE_0__```"]).
Proof. vm_compute. reflexivity. Qed.

Section ResolveFacts.

Variable marked_parse : str -> str.
Variable rec : str -> M str.

Lemma substring_prefix (pre rest : str) :
  substring (pre ++ rest) 0 (len pre) = pre.
Proof.
  unfold substring, clamp. pose proof (len_nonneg pre). pose proof (len_nonneg rest).
  rewrite len_app.
  replace (Z.max 0 (Z.min (len pre + len rest) 0)) with 0 by lia.
  replace (Z.max 0 (Z.min (len pre + len rest) (len pre))) with (len pre) by lia.
  rewrite Z.min_l, Z.max_r by lia. simpl.
  replace (Z.to_nat (len pre - 0)) with (length pre) by (unfold len; lia).
  apply firstn_exact.
Qed.

(** C9, as amended.  A text whose first opening marker carries the class
    list [cls] and has a matching closing marker at [c] resolves to the
    text before the marker, a container and the text from [c + 4] on.  The
    class attribute of the container is [cls] with the white space at its
    two ends removed, and otherwise [cls] as it is: nothing is reordered,
    dropped, escaped or checked.  The container body is what the Bridge
    renders for the processed content. *)
Theorem processAngleBlocks_class_attribute
  (pre cls rest : str) (c : Z) (processedContent : str) (log : list str) :
  search re_open (pre ++ OPEN_MARK ++ cls ++ QUOTE :: rest) = Some (length pre) ->
  forallb (is_not QUOTE) cls = true ->
  findMatchingClosingTag (pre ++ OPEN_MARK ++ cls ++ QUOTE :: rest)
    (len pre) (OPEN_MARK ++ cls ++ [QUOTE]) = Some c ->
  c <> -1 ->
  rec (substring (pre ++ OPEN_MARK ++ cls ++ QUOTE :: rest)
         (len pre + len (OPEN_MARK ++ cls ++ [QUOTE])) c)
  = Some (processedContent, log) ->
  processAngleBlocks marked_parse rec (pre ++ OPEN_MARK ++ cls ++ QUOTE :: rest)
  = Some (pre
            ++ (DIV_CLASS ++ trim cls ++ [DQUOTE; GT]
                  ++ marked_parse processedContent ++ DIV_CLOSE)
            ++ substring_from (pre ++ OPEN_MARK ++ cls ++ QUOTE :: rest) (c + 4),
          log ++ [processedContent])
  /\ exists a b, cls = a ++ trim cls ++ b
                 /\ forallb is_space a = true /\ forallb is_space b = true.
Proof.
  intros Hs Hq Hc Hne Hrec. split; [|apply trim_decomp].
  unfold processAngleBlocks. rewrite exec_open_at by assumption.
  rewrite Hc. cbn [lift bind].
  destruct (Z.eqb_spec c (-1)); [contradiction|]. cbn [negb].
  rewrite Hrec. unfold bridge. cbn [bind ret].
  rewrite substring_prefix, !app_nil_r. reflexivity.
Qed.

End ResolveFacts.

Lemma processAngleBlocks_class_attribute_witness :
  search re_open ([] ++ OPEN_MARK ++ u " a b " ++ QUOTE :: u "x</>") = Some (length (@nil cu))
  /\ forallb (is_not QUOTE) (u " a b ") = true
  /\ findMatchingClosingTag ([] ++ OPEN_MARK ++ u " a b " ++ QUOTE :: u "x</>")
       (len []) (OPEN_MARK ++ u " a b " ++ [QUOTE]) = Some 10
  /\ 10 <> -1
  /\ processAllBlocks paragraph_bridge 1
       (substring ([] ++ OPEN_MARK ++ u " a b " ++ QUOTE :: u "x</>")
          (len [] + len (OPEN_MARK ++ u " a b " ++ [QUOTE])) 10)
     = Some (u "x", [])
  /\ processAngleBlocks paragraph_bridge (processAllBlocks paragraph_bridge 1)
       ([] ++ OPEN_MARK ++ u " a b " ++ QUOTE :: u "x</>")
     = Some ([] ++ (DIV_CLASS ++ trim (u " a b ") ++ [DQUOTE; GT]
                      ++ paragraph_bridge (u "x") ++ DIV_CLOSE)
                ++ substring_from ([] ++ OPEN_MARK ++ u " a b " ++ QUOTE :: u "x</>")
                     (10 + 4),
             [] ++ [u "x"])
  /\ exists a b, u " a b " = a ++ trim (u " a b ") ++ b
                 /\ forallb is_space a = true /\ forallb is_space b = true.
Proof.
  split; [reflexivity|]. split; [reflexivity|]. split; [reflexivity|].
  split; [discriminate|]. split; [reflexivity|].
  apply (processAngleBlocks_class_attribute paragraph_bridge
           (processAllBlocks paragraph_bridge 1) [] (u " a b ") (u "x</>") 10 (u "x") []).
  - reflexivity.
  - reflexivity.
  - reflexivity.
  - discriminate.
  - reflexivity.
Defined.

(** C9 as stated fails on a class list with white space at its ends: the
    class attribute is the trimmed list, and the class-list text as it was
    written is nowhere in the output. *)
Lemma parse_trims_class_list :
  exists html log,
    parse paragraph_bridge 2 (u "<>' a b 'x</>") defaultOptions = Some (html, log)
    /\ html = DIV_CLASS ++ u "a b" ++ [DQUOTE; GT] ++ u "<p>x</p>" ++ DIV_CLOSE
    /\ includes (u " a b ") html = false.
Proof.
  eexists. eexists. split; [vm_compute; reflexivity|].
  split; reflexivity.
Qed.

(** ** The final pass *)

Lemma indexOf_found (p s : str) (i r : Z) :
  indexOf p s i = r -> r <> -1 -> i <= len s ->
  0 <= r /\ i <= r /\ r <= len s /\ starts p (skipn (Z.to_nat r) s) = true.
Proof.
  unfold indexOf. pose proof (len_nonneg s) as L. intros Hr Hm Hi.
  set (k := clamp 0 (len s) i) in *.
  assert (Hk : 0 <= k <= len s /\ i <= k) by (unfold k, clamp; lia).
  destruct (find_first p (skipn (Z.to_nat k) s)) as [j|] eqn:F; [|congruence].
  subst r. apply find_first_some in F as (Hj & St & _).
  rewrite length_skipn in Hj. unfold len in *.
  repeat split; try lia.
  rewrite <- skipn_plus in St.
  replace (Z.to_nat (k + Z.of_nat j)) with (Z.to_nat k + j)%nat by lia.
  exact St.
Qed.

Lemma indexOf_first (p s : str) (i r : Z) (j : nat) :
  indexOf p s i = r -> r <> -1 -> 0 <= i <= len s ->
  i <= Z.of_nat j < r -> starts p (skipn j s) = false.
Proof.
  unfold indexOf. intros Hr Hm Hi Hj. revert Hr.
  replace (clamp 0 (len s) i) with i by (unfold clamp; lia).
  destruct (find_first p (skipn (Z.to_nat i) s)) as [k|] eqn:F; [|congruence].
  intros <-. apply find_first_some in F as (_ & _ & Bef).
  specialize (Bef (j - Z.to_nat i)%nat ltac:(lia)).
  rewrite <- skipn_plus in Bef.
  replace (Z.to_nat i + (j - Z.to_nat i))%nat with j in Bef by lia.
  exact Bef.
Qed.

Lemma indexOf_none (p s : str) (i : Z) :
  indexOf p s i = -1 -> includes p (substring_from s i) = false.
Proof.
  unfold indexOf, includes. rewrite substring_from_skipn.
  pose proof (len_nonneg s).
  destruct (find_first p (skipn (Z.to_nat (clamp 0 (len s) i)) s)) as [j|];
    [|reflexivity].
  unfold clamp. lia.
Qed.

Lemma substring_between (s : str) (a b : Z) :
  0 <= a <= b -> b <= len s ->
  substring s a b = firstn (Z.to_nat (b - a)) (skipn (Z.to_nat a) s).
Proof.
  intros Hab Hb. unfold substring, clamp.
  replace (Z.max 0 (Z.min (len s) a)) with a by lia.
  replace (Z.max 0 (Z.min (len s) b)) with b by lia.
  rewrite Z.min_l, Z.max_r by lia. reflexivity.
Qed.

Lemma starts_firstn (p s : str) (n : nat) :
  p <> [] -> starts p (firstn n s) = true -> starts p s = true /\ (0 < n)%nat.
Proof.
  intros Hne H. split.
  - apply starts_iff in H as [t E]. apply starts_iff.
    exists (t ++ skipn n s). rewrite app_assoc, <- E. symmetry. apply firstn_skipn.
  - destruct n; [|lia]. simpl in H. destruct p; [congruence | discriminate].
Qed.

(** Before the first occurrence found by [indexOf] there is none. *)
Lemma includes_before_indexOf (p s : str) (i d : Z) :
  p <> [] -> indexOf p s i = d -> d <> -1 -> 0 <= i <= len s ->
  includes p (substring s i d) = false.
Proof.
  intros Hne Hd Hm Hi. apply includes_false. intros Hocc.
  destruct (indexOf_found _ _ _ _ Hd Hm ltac:(lia)) as (_ & Hid & Hdl & _).
  rewrite substring_between in Hocc by lia.
  apply occurs_skipn in Hocc as [j Hj].
  rewrite skipn_firstn_comm in Hj.
  apply starts_firstn in Hj as [Hj Hn]; [|exact Hne].
  rewrite <- skipn_plus in Hj.
  rewrite (indexOf_first p s i d (Z.to_nat i + j)) in Hj by lia.
  discriminate.
Qed.

Lemma divEnd_body_some (text : str) (st : Z * Z) : divEnd_body text st <> None.
Proof.
  destruct st as [i depth]. unfold divEnd_body.
  repeat match goal with
         | |- context [if ?b then _ else _] => destruct b
         end; discriminate.
Qed.

Lemma divEnd_body_progress (text : str) (i depth i' depth' : Z) :
  divEnd_body text (i, depth) = Some (Next (i', depth')) ->
  i < i' /\ i < len text.
Proof.
  unfold divEnd_body.
  destruct (Z.ltb_spec i (len text)) as [Hi|]; [|discriminate].
  destruct (Z.eqb_spec (indexOf DIV_OPEN text i) (-1)) as [E1|E1];
    destruct (Z.eqb_spec (indexOf DIV_CLOSE text i) (-1)) as [E2|E2];
    cbn [andb orb negb]; try discriminate.
  - destruct (_ =? 0); [discriminate|]. intros [= <- <-].
    destruct (indexOf_found _ _ _ _ eq_refl E2 ltac:(lia)) as (_ & H & _). lia.
  - intros [= <- <-].
    destruct (indexOf_found _ _ _ _ eq_refl E1 ltac:(lia)) as (_ & H & _). lia.
  - destruct (_ <? _).
    + intros [= <- <-].
      destruct (indexOf_found _ _ _ _ eq_refl E1 ltac:(lia)) as (_ & H & _). lia.
    + destruct (_ =? 0); [discriminate|]. intros [= <- <-].
      destruct (indexOf_found _ _ _ _ eq_refl E2 ltac:(lia)) as (_ & H & _). lia.
Qed.

Lemma findMatchingDivEnd_total (text : str) (startIndex : Z) :
  exists r, findMatchingDivEnd text startIndex = Some r.
Proof.
  unfold findMatchingDivEnd.
  apply (while_loop_total (divEnd_body text)
           (fun st => Z.to_nat (len text - fst st))).
  - apply divEnd_body_some.
  - intros [j d] [j' d'] H. apply divEnd_body_progress in H. simpl. lia.
  - simpl. lia.
Qed.

Lemma findMatchingDivEnd_ge (text : str) (startIndex r : Z) :
  findMatchingDivEnd text startIndex = Some r -> r = -1 \/ startIndex <= r.
Proof.
  unfold findMatchingDivEnd.
  apply (while_loop_inv (divEnd_body text)
           (fun st => startIndex <= fst st)
           (fun r => r = -1 \/ startIndex <= r)).
  - intros [i d] [i' d'] Hi H. apply divEnd_body_progress in H. simpl in *. lia.
  - intros [i d] r' Hi. simpl in Hi. unfold divEnd_body.
    destruct (Z.ltb_spec i (len text)) as [Hl|]; [|intros [= <-]; auto].
    destruct (Z.eqb_spec (indexOf DIV_OPEN text i) (-1)) as [E1|E1];
      destruct (Z.eqb_spec (indexOf DIV_CLOSE text i) (-1)) as [E2|E2];
      cbn [andb orb negb]; try (intros [= <-]; auto; fail); try discriminate.
    + destruct (_ =? 0); [|discriminate]. intros [= <-].
      destruct (indexOf_found _ _ _ _ eq_refl E2 ltac:(lia)) as (_ & H & _).
      right. lia.
    + destruct (_ <? _); [discriminate|].
      destruct (_ =? 0); [|discriminate]. intros [= <-].
      destruct (indexOf_found _ _ _ _ eq_refl E2 ltac:(lia)) as (_ & H & _).
      right. lia.
  - simpl. lia.
Qed.

(** *** The closing tag of a container: the loop against the count *)

Lemma starts_open_not_close (s : str) :
  starts DIV_OPEN s = true -> starts DIV_CLOSE s = false.
Proof. intros H. apply starts_iff in H as [t ->]. reflexivity. Qed.

(** The count passes over a stretch in which no tag starts. *)
Lemma div_close_pass (n : nat) : forall (s : str) (depth : Z),
  (n <= length s)%nat ->
  (forall j, (j < n)%nat ->
     starts DIV_OPEN (skipn j s) = false /\ starts DIV_CLOSE (skipn j s) = false) ->
  div_close s depth = option_map (Nat.add n) (div_close (skipn n s) depth).
Proof.
  induction n as [|n IH]; intros s depth Hl H.
  - cbn [skipn]. destruct (div_close s depth); reflexivity.
  - destruct s as [|c s]; [simpl in Hl; lia|].
    destruct (H O ltac:(lia)) as [H1 H2]. cbn [skipn] in H1, H2.
    cbn [div_close]. rewrite H1, H2. cbn [skipn].
    rewrite (IH s depth);
      [| simpl in Hl; lia | intros j Hj; apply (H (S j)); lia].
    destruct (div_close (skipn n s) depth); reflexivity.
Qed.

(** Inside a tag no tag starts. *)
Lemma no_tag_inside (p rest : str) (j : nat) :
  forallb (is_not LANGLE) p = true -> (j < length p)%nat ->
  starts DIV_OPEN (skipn j (p ++ rest)) = false
  /\ starts DIV_CLOSE (skipn j (p ++ rest)) = false.
Proof.
  intros Hp Hj. split; apply (starts_no_head LANGLE); assumption.
Qed.

Lemma div_close_at_open (s : str) (depth : Z) :
  starts DIV_OPEN s = true ->
  div_close s depth = option_map (Nat.add 4) (div_close (skipn 4 s) (depth + 1)).
Proof.
  intros H. pose proof H as H'. apply starts_iff in H' as [t E].
  destruct s as [|c s]; [discriminate|].
  cbn [div_close]. rewrite H.
  assert (Es : s = u "div" ++ t) by (injection E as _ ->; reflexivity).
  rewrite Es.
  rewrite (div_close_pass 3 (u "div" ++ t));
    [| rewrite length_app; simpl; lia
     | intros j Hj; apply no_tag_inside; [reflexivity | simpl; lia]].
  change (skipn 4 (c :: u "div" ++ t)) with (skipn 3 (u "div" ++ t)).
  destruct (div_close (skipn 3 (u "div" ++ t)) (depth + 1)); reflexivity.
Qed.

Lemma div_close_at_close (s : str) (depth : Z) :
  starts DIV_CLOSE s = true ->
  div_close s depth
  = if depth - 1 =? 0 then Some O
    else option_map (Nat.add 6) (div_close (skipn 6 s) (depth - 1)).
Proof.
  intros H. pose proof H as H'. apply starts_iff in H' as [t E].
  destruct s as [|c s]; [discriminate|].
  cbn [div_close]. rewrite H.
  replace (starts DIV_OPEN (c :: s)) with false by (rewrite E; reflexivity).
  destruct (depth - 1 =? 0); [reflexivity|].
  assert (Es : s = u "/div>" ++ t) by (injection E as _ ->; reflexivity).
  rewrite Es.
  rewrite (div_close_pass 5 (u "/div>" ++ t));
    [| rewrite length_app; simpl; lia
     | intros j Hj; apply no_tag_inside; [reflexivity | simpl; lia]].
  change (skipn 6 (c :: u "/div>" ++ t)) with (skipn 5 (u "/div>" ++ t)).
  destruct (div_close (skipn 5 (u "/div>" ++ t)) (depth - 1)); reflexivity.
Qed.

(** What the count finds is a closing tag. *)
Lemma div_close_found (s : str) : forall (depth : Z) (k : nat),
  div_close s depth = Some k ->
  starts DIV_CLOSE (skipn k s) = true /\ (k + 6 <= length s)%nat.
Proof.
  assert (Hlen : forall x : str, starts DIV_CLOSE x = true -> (6 <= length x)%nat).
  { intros x H. apply starts_iff in H as [t ->]. rewrite length_app. simpl. lia. }
  induction s as [|c s IH]; intros depth k; cbn [div_close]; [discriminate|].
  destruct (starts DIV_OPEN (c :: s)).
  - destruct (div_close s (depth + 1)) as [k'|] eqn:E; [|discriminate].
    intros [= <-]. apply IH in E as [E1 E2]. split; [exact E1 | simpl; lia].
  - destruct (starts DIV_CLOSE (c :: s)) eqn:Hc.
    + destruct (depth - 1 =? 0).
      * intros [= <-]. split; [exact Hc | apply Hlen in Hc; lia].
      * destruct (div_close s (depth - 1)) as [k'|] eqn:E; [|discriminate].
        intros [= <-]. apply IH in E as [E1 E2]. split; [exact E1 | simpl; lia].
    + destruct (div_close s depth) as [k'|] eqn:E; [|discriminate].
      intros [= <-]. apply IH in E as [E1 E2]. split; [exact E1 | simpl; lia].
Qed.

Lemma indexOf_before (p s : str) (i : Z) (j : nat) :
  0 <= i <= len s -> i <= Z.of_nat j ->
  indexOf p s i = -1 \/ Z.of_nat j < indexOf p s i ->
  starts p (skipn j s) = false.
Proof.
  intros Hi Hj [H|H].
  - apply indexOf_none in H. rewrite substring_from_nonneg in H by lia.
    apply includes_false in H.
    replace j with (Z.to_nat i + (j - Z.to_nat i))%nat by lia.
    rewrite skipn_plus. apply not_occurs_starts. exact H.
  - apply (indexOf_first p s i (indexOf p s i)); [reflexivity | lia | lia | lia].
Qed.

(** The count from [i] goes on at [t] when no tag starts in between. *)
Lemma div_close_upto (text : str) (i t depth : Z) :
  0 <= i <= t -> t <= len text ->
  (forall j, i <= Z.of_nat j < t ->
     starts DIV_OPEN (skipn j text) = false
     /\ starts DIV_CLOSE (skipn j text) = false) ->
  div_close (skipn (Z.to_nat i) text) depth
  = option_map (Nat.add (Z.to_nat (t - i)))
      (div_close (skipn (Z.to_nat t) text) depth).
Proof.
  intros Hi Ht H.
  rewrite (div_close_pass (Z.to_nat (t - i))).
  - rewrite <- skipn_plus. do 3 f_equal. lia.
  - rewrite length_skipn. unfold len in *. lia.
  - intros j Hj. rewrite <- skipn_plus. apply H. lia.
Qed.

(** The loop of [findMatchingDivEnd] computes the count. *)
Lemma divEnd_loop_count (text : str) (fuel : nat) : forall (i depth : Z),
  0 <= i -> (Z.to_nat (len text - i) < fuel)%nat ->
  while_loop fuel (divEnd_body text) (i, depth)
  = Some (match div_close (skipn (Z.to_nat i) text) depth with
          | Some k => i + Z.of_nat k
          | None => -1
          end).
Proof.
  induction fuel as [|fuel IH]; intros i depth Hi Hf; [lia|].
  cbn [while_loop]. unfold divEnd_body.
  destruct (Z.ltb_spec i (len text)) as [Hl|Hl].
  2:{ rewrite skipn_all2 by (unfold len in *; lia). reflexivity. }
  pose proof (indexOf_before DIV_OPEN text i) as Bo.
  pose proof (indexOf_before DIV_CLOSE text i) as Bc.
  pose proof (fun r H1 H2 => indexOf_found DIV_OPEN text i r H1 H2 ltac:(lia)) as Fo.
  pose proof (fun r H1 H2 => indexOf_found DIV_CLOSE text i r H1 H2 ltac:(lia)) as Fc.
  set (a := indexOf DIV_OPEN text i) in *.
  set (b := indexOf DIV_CLOSE text i) in *.
  destruct (Z.eqb_spec a (-1)) as [Ea|Ea];
    destruct (Z.eqb_spec b (-1)) as [Eb|Eb]; cbn [andb orb negb].
  - (* no tag left *)
    rewrite (div_close_upto text i (len text)); [| lia | lia |].
    + rewrite (skipn_all2 text) by (unfold len; lia). reflexivity.
    + intros j Hj. split; [apply Bo | apply Bc]; auto; lia.
  - (* a closing tag only *)
    destruct (Fc b eq_refl Eb) as (Hb0 & Hib & Hbl & Hst).
    rewrite (div_close_upto text i b); [| lia | lia |].
    2:{ intros j Hj. split; [apply Bo | apply Bc]; auto; lia. }
    rewrite (div_close_at_close _ _ Hst).
    destruct (Z.eqb_spec (depth - 1) 0) as [Ez|Ez].
    + cbn [option_map]. f_equal. lia.
    + rewrite IH by lia.
      rewrite <- skipn_plus.
      replace (Z.to_nat b + 6)%nat with (Z.to_nat (b + 6)) by lia.
      destruct (div_close (skipn (Z.to_nat (b + 6)) text) (depth - 1));
        cbn [option_map]; [f_equal; lia | reflexivity].
  - (* an opening tag only *)
    destruct (Fo a eq_refl Ea) as (Ha0 & Hia & Hal & Hst).
    rewrite (div_close_upto text i a); [| lia | lia |].
    2:{ intros j Hj. split; [apply Bo | apply Bc]; auto; lia. }
    rewrite (div_close_at_open _ _ Hst).
    rewrite IH by lia.
    rewrite <- skipn_plus.
    replace (Z.to_nat a + 4)%nat with (Z.to_nat (a + 4)) by lia.
    destruct (div_close (skipn (Z.to_nat (a + 4)) text) (depth + 1));
      cbn [option_map]; [f_equal; lia | reflexivity].
  - (* both: the first one wins *)
    destruct (Fo a eq_refl Ea) as (Ha0 & Hia & Hal & Hsa).
    destruct (Fc b eq_refl Eb) as (Hb0 & Hib & Hbl & Hsb).
    destruct (Z.ltb_spec a b) as [Hab|Hab].
    + rewrite (div_close_upto text i a); [| lia | lia |].
      2:{ intros j Hj. split; [apply Bo | apply Bc]; auto; lia. }
      rewrite (div_close_at_open _ _ Hsa).
      rewrite IH by lia.
      rewrite <- skipn_plus.
      replace (Z.to_nat a + 4)%nat with (Z.to_nat (a + 4)) by lia.
      destruct (div_close (skipn (Z.to_nat (a + 4)) text) (depth + 1));
        cbn [option_map]; [f_equal; lia | reflexivity].
    + rewrite (div_close_upto text i b); [| lia | lia |].
      2:{ intros j Hj. split; [apply Bo | apply Bc]; auto; lia. }
      rewrite (div_close_at_close _ _ Hsb).
      destruct (Z.eqb_spec (depth - 1) 0) as [Ez|Ez].
      * cbn [option_map]. f_equal. lia.
      * rewrite IH by lia.
        rewrite <- skipn_plus.
        replace (Z.to_nat b + 6)%nat with (Z.to_nat (b + 6)) by lia.
        destruct (div_close (skipn (Z.to_nat (b + 6)) text) (depth - 1));
          cbn [option_map]; [f_equal; lia | reflexivity].
Qed.

(** [findMatchingDivEnd] returns the closing tag that the count finds. *)
Lemma findMatchingDivEnd_count (text : str) (startIndex : Z) :
  0 <= startIndex ->
  findMatchingDivEnd text startIndex
  = Some (match div_close (skipn (Z.to_nat startIndex) text) 0 with
          | Some k => startIndex + Z.of_nat k
          | None => -1
          end).
Proof.
  intros H. unfold findMatchingDivEnd. apply divEnd_loop_count; lia.
Qed.

(** *** The layout *)

Lemma first_container_before (before rest : str) :
  first_container before rest -> ~ occurs DIV_CLASS before.
Proof.
  intros [_ H] Hocc. apply occurs_skipn in Hocc as [j Hj].
  destruct (Nat.lt_ge_cases j (length before)) as [Hlt|Hge].
  - specialize (H j Hlt). rewrite skipn_app in H.
    apply starts_iff in Hj as [t Et]. rewrite Et, <- app_assoc in H.
    rewrite starts_app in H. discriminate.
  - rewrite skipn_all2 in Hj by exact Hge. discriminate.
Qed.

(** The pieces of a layout are the text, piece by piece. *)
Lemma layout_text (s : str) (pieces : list piece) :
  layout s pieces -> concat (map piece_text pieces) = s.
Proof.
  induction 1 as [| s _ _ | before rest _ _ | before c behind k pieces _ _ _ _ IH];
    cbn [map concat piece_text].
  - reflexivity.
  - apply app_nil_r.
  - rewrite app_nil_r. reflexivity.
  - rewrite IH. reflexivity.
Qed.

(** The spans of a layout that are not blank are what the Bridge may be
    given. *)
Lemma layout_log (s : str) (pieces : list piece) :
  layout s pieces -> Forall submitted_span (flat_map piece_log pieces).
Proof.
  assert (Hspan : forall span, (~ occurs DIV_CLASS span
                    \/ (starts DIV_CLASS span = true /\ div_close span 0 = None)) ->
                  Forall submitted_span (piece_log (Span span))).
  { intros span H. cbn [piece_log].
    destruct (is_empty (trim span)) eqn:Hb; constructor; [|constructor].
    split; assumption. }
  induction 1 as [| s _ Hs | before rest Hf Hd
                  | before c behind k pieces Hf _ _ _ IH];
    cbn [flat_map].
  - constructor.
  - rewrite app_nil_r. apply Hspan. left. exact Hs.
  - rewrite app_nil_r. apply Forall_app. split; apply Hspan.
    + left. exact (first_container_before _ _ Hf).
    + right. split; [apply Hf | exact Hd].
  - apply Forall_app. split; [|exact IH].
    apply Hspan. left. exact (first_container_before _ _ Hf).
Qed.

(** The first container opening of a text is at one place. *)
Lemma first_container_unique (b r b' r' : str) :
  first_container b r -> first_container b' r' -> b ++ r = b' ++ r' ->
  b = b' /\ r = r'.
Proof.
  intros [Hs H] [Hs' H'] E.
  assert (Hlen : length b = length b').
  { destruct (Nat.lt_trichotomy (length b) (length b')) as [Hlt|[Heq|Hgt]];
      [exfalso | exact Heq | exfalso].
    - specialize (H' (length b) Hlt). rewrite <- E, skipn_exact in H'. congruence.
    - specialize (H (length b') Hgt). rewrite E, skipn_exact in H. congruence. }
  split.
  - apply (f_equal (firstn (length b))) in E.
    rewrite firstn_exact in E. rewrite Hlen, firstn_exact in E. exact E.
  - apply (f_equal (skipn (length b))) in E.
    rewrite skipn_exact in E. rewrite Hlen, skipn_exact in E. exact E.
Qed.

(** The four ways a layout is made. *)
Lemma layout_cases (s : str) (p : list piece) :
  layout s p ->
  (s = [] /\ p = [])
  \/ (s <> [] /\ ~ occurs DIV_CLASS s /\ p = [Span s])
  \/ (exists before rest,
        s = before ++ rest /\ first_container before rest
        /\ div_close rest 0 = None /\ p = [Span before; Span rest])
  \/ (exists before c behind k pieces,
        s = before ++ c ++ behind /\ first_container before (c ++ behind)
        /\ div_close (c ++ behind) 0 = Some k /\ length c = (k + 6)%nat
        /\ layout behind pieces /\ p = Span before :: Container c :: pieces).
Proof.
  destruct 1 as [| s Hne Hs | before rest Hf Hd | before c behind k pieces Hf Hd Hl L].
  - left. auto.
  - right. left. auto.
  - right. right. left. exists before, rest. auto.
  - right. right. right. exists before, c, behind, k, pieces. auto 6.
Qed.

(** A text has one layout. *)
Lemma layout_unique (s : str) (p1 : list piece) :
  layout s p1 -> forall p2, layout s p2 -> p1 = p2.
Proof.
  assert (Hopen : forall before rest,
            first_container before rest -> occurs DIV_CLASS (before ++ rest)).
  { intros before rest [H _]. apply occurs_app_r, occurs_skipn.
    exists O. exact H. }
  assert (Hnil : forall before rest,
            first_container before rest -> before ++ rest <> []).
  { intros before rest [H _] E. apply app_eq_nil in E as [_ ->]. discriminate. }
  induction 1 as [| s Hne Hs | before rest Hf Hd
                  | before c behind k pieces Hf Hd Hl _ IH];
    intros p2 L2;
    apply layout_cases in L2
      as [[E' ->] | [(Hne' & Hs' & ->)
         | [(b' & r' & E' & Hf' & Hd' & ->)
           | (b' & c' & h' & k' & ps' & E' & Hf' & Hd' & Hl' & L' & ->)]]].
  - reflexivity.
  - congruence.
  - exfalso. symmetry in E'. exact (Hnil _ _ Hf' E').
  - exfalso. symmetry in E'. exact (Hnil _ _ Hf' E').
  - congruence.
  - reflexivity.
  - exfalso. apply Hs. rewrite E'. apply Hopen, Hf'.
  - exfalso. apply Hs. rewrite E'. apply Hopen, Hf'.
  - exfalso. exact (Hnil _ _ Hf E').
  - exfalso. apply Hs', Hopen, Hf.
  - destruct (first_container_unique _ _ _ _ Hf Hf' E') as [-> ->]. reflexivity.
  - destruct (first_container_unique _ _ _ _ Hf Hf' E') as [-> E2].
    rewrite E2 in Hd. congruence.
  - exfalso. exact (Hnil _ _ Hf E').
  - exfalso. apply Hs', Hopen, Hf.
  - destruct (first_container_unique _ _ _ _ Hf Hf' E') as [-> E2].
    rewrite E2 in Hd. congruence.
  - destruct (first_container_unique _ _ _ _ Hf Hf' E') as [-> E2].
    rewrite E2 in Hd. assert (k' = k) by congruence. subst k'.
    assert (Ec : c = c').
    { apply (f_equal (firstn (k + 6))) in E2.
      rewrite <- Hl in E2 at 1. rewrite firstn_exact in E2.
      rewrite <- Hl', firstn_exact in E2. exact E2. }
    subst c'. apply app_inv_head in E2. subst h'.
    f_equal. f_equal. apply IH. exact L'.
Qed.

(** The layout of a text with a container in which a container is
    nested. *)
Example layout_nested_container :
  layout (u "a" ++ DIV_CLASS ++ u "x" ++ [DQUOTE] ++ u "><div>b</div></div>c")
    [Span (u "a");
     Container (DIV_CLASS ++ u "x" ++ [DQUOTE] ++ u "><div>b</div></div>");
     Span (u "c")].
Proof.
  apply (layout_container (u "a")
           (DIV_CLASS ++ u "x" ++ [DQUOTE] ++ u "><div>b</div></div>") (u "c")
           27 [Span (u "c")]).
  - split; [reflexivity|]. intros [|j] Hj; [reflexivity | simpl in Hj; lia].
  - reflexivity.
  - reflexivity.
  - apply layout_plain; [discriminate|]. apply includes_false. reflexivity.
Qed.

Section FinalPass.

Variable marked_parse : str -> str.

Lemma bind_some {A B : Type} (c : M A) (k : A -> M B)
  (a : A) (l1 : list str) (b : B) (l2 : list str) :
  c = Some (a, l1) -> k a = Some (b, l2) -> bind c k = Some (b, l1 ++ l2).
Proof. intros -> H. simpl. rewrite H. reflexivity. Qed.

(** A span is rendered when it is not blank, and then it is logged. *)
Lemma renderSpan_piece (result span : str) :
  renderSpan marked_parse result span
  = Some (result ++ piece_html marked_parse (Span span), piece_log (Span span)).
Proof.
  unfold renderSpan. cbn [piece_html piece_log].
  destruct (is_empty (trim span)); [|reflexivity].
  unfold ret. rewrite app_nil_r. reflexivity.
Qed.

(** The loop of the final pass, from the scan position [i]: it renders
    the layout of the text from [i] on. *)
Lemma splitByDivs_loop (text : str) (fuel : nat) : forall (i : Z) (result : str),
  0 <= i <= len text -> (Z.to_nat (len text - i) < fuel)%nat ->
  exists pieces,
    layout (skipn (Z.to_nat i) text) pieces
    /\ while_logged fuel (splitByDivs_body marked_parse text) (i, result)
       = Some (result ++ concat (map (piece_html marked_parse) pieces),
               flat_map piece_log pieces).
Proof.
  induction fuel as [|fuel IH]; intros i result Hi Hf; [lia|].
  cbn [while_logged]. unfold splitByDivs_body at 1.
  destruct (Z.ltb_spec i (len text)) as [Hl|Hl].
  2:{ exists []. rewrite skipn_all2 by (unfold len in *; lia).
      split; [constructor|]. simpl. rewrite app_nil_r. reflexivity. }
  assert (Hne : skipn (Z.to_nat i) text <> []).
  { intros E. apply (f_equal (@length cu)) in E. rewrite length_skipn in E.
    unfold len in *. simpl in E. lia. }
  destruct (Z.eqb_spec (indexOf DIV_CLASS text i) (-1)) as [E|E].
  - (* no container left: the rest of the text is one span *)
    exists [Span (skipn (Z.to_nat i) text)]. split.
    + apply layout_plain; [exact Hne|].
      apply includes_false. rewrite <- substring_from_nonneg by lia.
      apply indexOf_none. exact E.
    + rewrite substring_from_nonneg by lia. rewrite renderSpan_piece.
      cbn [bind ret map concat flat_map]. rewrite !app_nil_r. reflexivity.
  - (* a container opens at divStart *)
    destruct (indexOf_found _ _ _ _ eq_refl E ltac:(lia)) as (Hd0 & Hid & Hdl & Hst).
    pose proof (indexOf_first DIV_CLASS text i (indexOf DIV_CLASS text i)) as Hfirst.
    set (divStart := indexOf DIV_CLASS text i) in *.
    set (before := firstn (Z.to_nat (divStart - i)) (skipn (Z.to_nat i) text)).
    set (rest := skipn (Z.to_nat divStart) text) in *.
    assert (Esplit : skipn (Z.to_nat i) text = before ++ rest).
    { unfold before, rest.
      replace (Z.to_nat divStart) with (Z.to_nat i + Z.to_nat (divStart - i))%nat
        by lia.
      rewrite skipn_plus. symmetry. apply firstn_skipn. }
    assert (Hbl : length before = Z.to_nat (divStart - i)).
    { unfold before. rewrite firstn_length_le; [reflexivity|].
      rewrite length_skipn. unfold len in *. lia. }
    assert (Hfc : first_container before rest).
    { split; [exact Hst|]. intros j Hj. rewrite <- Esplit, <- skipn_plus.
      apply (Hfirst (Z.to_nat i + j)%nat eq_refl E); lia. }
    rewrite (substring_between text i divStart) by lia. fold before.
    rewrite renderSpan_piece. cbn [bind].
    rewrite (findMatchingDivEnd_count text divStart Hd0). fold rest.
    cbn [lift bind].
    destruct (div_close rest 0) as [k|] eqn:Ek.
    + (* the container is copied and the scan goes on behind it *)
      destruct (div_close_found _ _ _ Ek) as [Hck Hkl].
      assert (Hrl : length rest = Z.to_nat (len text - divStart)).
      { unfold rest. rewrite length_skipn. unfold len. lia. }
      destruct (Z.eqb_spec (divStart + Z.of_nat k) (-1)) as [Em|_]; [lia|].
      cbn [ret].
      set (c := firstn (k + 6) rest). set (behind := skipn (k + 6) rest).
      assert (Ec : substring text divStart (divStart + Z.of_nat k + 6) = c).
      { rewrite substring_between by (unfold len in *; lia).
        unfold c, rest. f_equal. lia. }
      assert (Eb : skipn (Z.to_nat (divStart + Z.of_nat k + 6)) text = behind).
      { unfold behind, rest. rewrite <- skipn_plus. f_equal. lia. }
      assert (Erest : rest = c ++ behind) by (symmetry; apply firstn_skipn).
      destruct (IH (divStart + Z.of_nat k + 6)
                  ((result ++ piece_html marked_parse (Span before)) ++ c))
        as (pieces & L & Ew); [unfold len in *; lia | lia |].
      rewrite Eb in L.
      exists (Span before :: Container c :: pieces). split.
      * rewrite Esplit, Erest.
        apply (layout_container before c behind k pieces).
        -- rewrite <- Erest. exact Hfc.
        -- rewrite <- Erest. exact Ek.
        -- unfold c. apply firstn_length_le. lia.
        -- exact L.
      * rewrite Ec.
        etransitivity; [eapply bind_some; [reflexivity | exact Ew]|].
        f_equal. cbn [map concat flat_map piece_html piece_log].
        f_equal; [app_norm | rewrite app_nil_r; reflexivity].
    + (* its closing tag is not found: the rest from divStart on *)
      change (-1 =? -1) with true. cbv iota.
      rewrite (substring_from_nonneg text divStart Hd0). fold rest.
      rewrite renderSpan_piece. cbn [bind ret].
      exists [Span before; Span rest]. split.
      * rewrite Esplit. apply layout_unclosed; assumption.
      * cbn [map concat flat_map]. rewrite !app_nil_r, <- app_assoc. reflexivity.
Qed.

(** C2, as amended.  The final pass returns on every text.  It reads the
    text from left to right, without gaps, as pieces: the span up to the
    next container opening, then the container from that opening to the
    end of its matching closing tag, the containers nested in it included,
    then the pieces of the text behind it; when the opening has no matching
    closing tag, the whole rest of the text from the opening on is one last
    span.  The output is, in order, what the Bridge renders for each span
    that is not blank, and each container copied as it is.  The Bridge is
    called on the spans that are not blank, in order, and on nothing else:
    each text it gets is text before, between or behind the top-level
    containers, with no container opening in it, or the rest of the text
    from a container whose closing tag is not found.  The text has no
    other layout. *)
Theorem splitByDivs_submits_plain_spans (text : str) :
  exists pieces,
    layout text pieces
    /\ (forall pieces', layout text pieces' -> pieces' = pieces)
    /\ concat (map piece_text pieces) = text
    /\ splitByDivsAndProcessMarkdown marked_parse text
       = Some (concat (map (piece_html marked_parse) pieces),
               flat_map piece_log pieces)
    /\ Forall submitted_span (flat_map piece_log pieces).
Proof.
  destruct (splitByDivs_loop text (S (length text)) 0 [])
    as (pieces & L & E); [pose proof (len_nonneg text); lia | unfold len; lia |].
  cbn [Z.to_nat skipn] in L. exists pieces.
  split; [exact L|].
  split; [intros pieces' L'; exact (layout_unique _ _ L' _ L)|].
  split; [exact (layout_text _ _ L)|].
  split; [exact E | exact (layout_log _ _ L)].
Qed.

End FinalPass.

(** A balanced container with a container nested in it is copied by the
    final pass; the Bridge gets the text around it. *)
Example splitByDivs_nested_container :
  splitByDivsAndProcessMarkdown paragraph_bridge
    (u "a" ++ DIV_CLASS ++ u "x" ++ [DQUOTE] ++ u "><div>b</div></div>c")
  = Some (u "<p>a</p>" ++ DIV_CLASS ++ u "x" ++ [DQUOTE]
            ++ u "><div>b</div></div>" ++ u "<p>c</p>",
          [u "a"; u "c"]).
Proof. vm_compute. reflexivity. Qed.

(** C2 as stated fails where a resolved block holds an unclosed [<div]:
    the closing tag of the rendered container is then not found, and the
    final pass submits the rendered container to the Bridge. *)
Lemma parse_resubmits_container :
  exists html log,
    parse paragraph_bridge 2 (u "<>'a'<div>x</>") defaultOptions = Some (html, log)
    /\ log = [u "<div>x";
              DIV_CLASS ++ u "a" ++ [DQUOTE; GT] ++ u "<p><div>x</p></div>"]
    /\ Exists (fun span => includes (DIV_CLASS ++ u "a" ++ [DQUOTE; GT]) span = true) log.
Proof.
  eexists. eexists. split; [vm_compute; reflexivity|].
  split; [reflexivity|]. apply Exists_cons_tl, Exists_cons_hd. reflexivity.
Qed.

(** While blocks are resolved, the content of a block goes to the Bridge
    with the containers already rendered inside it. *)
Example parse_nested_blocks :
  parse paragraph_bridge 3 (u "<>'a' X <>'b' Y </> Z </>") defaultOptions
  = Some (DIV_CLASS ++ u "a" ++ [DQUOTE; GT] ++ u "<p> X "
            ++ DIV_CLASS ++ u "b" ++ [DQUOTE; GT] ++ u "<p> Y </p></div>Z </p></div>",
          [u " Y ";
           u " X " ++ DIV_CLASS ++ u "b" ++ [DQUOTE; GT] ++ u "<p> Y </p></div>Z "]).
Proof. vm_compute. reflexivity. Qed.

(* ================================================================== *)
(** * Part III  -  Further properties of the code                      *)
(* ================================================================== *)

(** ** Paginator: page count, single page, last fragment, lost text *)

Lemma zrange_snoc (n : Z) : 1 <= n -> zrange n = zrange (n - 1) ++ [n - 1].
Proof.
  intros H. unfold zrange.
  replace (Z.to_nat n) with (S (Z.to_nat (n - 1))) by lia.
  rewrite seq_S, map_app. simpl. do 2 f_equal. lia.
Qed.

(** The page list of a document that is not blank, spelled out. *)
Lemma splitIntoPages_unfold (html : str) (pageHeight n : Z) :
  is_empty (trim html) = false -> pagesNeeded html pageHeight = Finite n ->
  splitIntoPages html pageHeight
  = Some (if n =? 1 then [html]
          else map (pageAt html n (contentPerPage html n)) (zrange n)).
Proof.
  intros Hb Hn. unfold splitIntoPages. rewrite Hb, Hn.
  destruct (n =? 1); reflexivity.
Qed.

Lemma getPageCount_value (html : str) (pageHeight : Z) :
  is_empty (trim html) = false -> pageHeight <> 0 ->
  getPageCount html pageHeight
  = Some (Z.max 1 (ceil_div (estimateContentHeight html) pageHeight)).
Proof.
  intros Hb Hp. unfold getPageCount.
  assert (Hn : pagesNeeded html pageHeight
               = Finite (Z.max 1 (ceil_div (estimateContentHeight html) pageHeight))).
  { unfold pagesNeeded. destruct (Z.eqb_spec pageHeight 0); [contradiction | reflexivity]. }
  rewrite (splitIntoPages_unfold _ _ _ Hb Hn). simpl. f_equal.
  destruct (Z.eqb_spec (Z.max 1 (ceil_div (estimateContentHeight html) pageHeight)) 1)
    as [E|E].
  - rewrite E. reflexivity.
  - rewrite length_map, zrange_length. lia.
Qed.

(** X1.  The page count of a document that is not blank, for a positive page
    height, is the estimated height divided by the page height, rounded
    up: the pages counted are the fewest whose heights add up to the
    estimate. *)
Theorem getPageCount_formula (html : str) (pageHeight : Z) :
  is_empty (trim html) = false -> 0 < pageHeight ->
  exists n, getPageCount html pageHeight = Some n
    /\ n = Z.max 1 (ceil_div (estimateContentHeight html) pageHeight)
    /\ pageHeight * (n - 1) < estimateContentHeight html <= pageHeight * n.
Proof.
  intros Hb Hpos. eexists. split; [apply getPageCount_value; [exact Hb | lia]|].
  split; [reflexivity|].
  pose proof (ceil_div_bounds (estimateContentHeight html) pageHeight Hpos).
  pose proof (estimateContentHeight_base html).
  assert (1 <= ceil_div (estimateContentHeight html) pageHeight) by nia.
  rewrite Z.max_r by lia. lia.
Qed.

Lemma getPageCount_formula_witness :
  is_empty (trim (u "<p>a</p><p>b</p><p>c</p>")) = false
  /\ 0 < 100
  /\ exists n, getPageCount (u "<p>a</p><p>b</p><p>c</p>") 100 = Some n
       /\ n = Z.max 1 (ceil_div (estimateContentHeight (u "<p>a</p><p>b</p><p>c</p>")) 100)
       /\ 100 * (n - 1) < estimateContentHeight (u "<p>a</p><p>b</p><p>c</p>")
           <= 100 * n.
Proof.
  split; [reflexivity|]. split; [lia|].
  apply (getPageCount_formula (u "<p>a</p><p>b</p><p>c</p>") 100);
    [reflexivity | lia].
Defined.

Lemma ceil_div_antitone (a b b' : Z) :
  0 < a -> 0 < b <= b' -> ceil_div a b' <= ceil_div a b.
Proof.
  intros Ha Hb.
  pose proof (ceil_div_bounds a b ltac:(lia)) as B.
  pose proof (ceil_div_bounds a b' ltac:(lia)) as B'.
  assert (Hc : 1 <= ceil_div a b) by nia.
  destruct (Z_le_gt_dec (ceil_div a b') (ceil_div a b)) as [|Hgt]; [assumption|].
  exfalso.
  assert (b' * (ceil_div a b + 1) <= b' * ceil_div a b') by nia.
  assert (b * ceil_div a b <= b' * ceil_div a b) by nia.
  lia.
Qed.

(** X2.  A taller page never needs more pages. *)
Theorem getPageCount_antitone (html : str) (pageHeight pageHeight' : Z) :
  0 < pageHeight <= pageHeight' ->
  exists n n',
    getPageCount html pageHeight = Some n
    /\ getPageCount html pageHeight' = Some n' /\ n' <= n.
Proof.
  intros Hp. destruct (is_empty (trim html)) eqn:Hb.
  - exists 1, 1. unfold getPageCount, splitIntoPages. rewrite Hb.
    repeat split; lia.
  - rewrite !getPageCount_value by (try assumption; lia).
    eexists. eexists. split; [reflexivity|]. split; [reflexivity|].
    pose proof (estimateContentHeight_base html).
    pose proof (ceil_div_antitone (estimateContentHeight html) pageHeight
                  pageHeight' ltac:(lia) Hp).
    lia.
Qed.

Lemma getPageCount_antitone_witness :
  0 < 200 <= 1123
  /\ exists n n',
       getPageCount (u "<p>a</p><pre>b</pre><img><img>") 200 = Some n
       /\ getPageCount (u "<p>a</p><pre>b</pre><img><img>") 1123 = Some n'
       /\ n' <= n.
Proof.
  split; [split; [reflexivity | discriminate]|].
  apply (getPageCount_antitone (u "<p>a</p><pre>b</pre><img><img>") 200 1123).
  split; [reflexivity | discriminate].
Defined.

(** X3.  A document whose estimated height fits the page, or any document
    under a negative page height, is one fragment: the document itself. *)
Theorem splitIntoPages_single_page (html : str) (pageHeight : Z) :
  is_empty (trim html) = false ->
  (estimateContentHeight html <= pageHeight \/ pageHeight < 0) ->
  splitIntoPages html pageHeight = Some [html].
Proof.
  intros Hb H. pose proof (estimateContentHeight_base html) as Hbase.
  assert (Hn : pagesNeeded html pageHeight = Finite 1).
  { destruct H as [H|H]; [|apply pagesNeeded_negative; exact H].
    destruct (pagesNeeded_finite html pageHeight ltac:(lia)) as (n & -> & _ & H1).
    f_equal. apply H1. lia. }
  rewrite (splitIntoPages_unfold _ _ _ Hb Hn). reflexivity.
Qed.

Lemma splitIntoPages_single_page_witness :
  is_empty (trim (u "<h1>Hi</h1><p>text</p>")) = false
  /\ (estimateContentHeight (u "<h1>Hi</h1><p>text</p>") <= 1123 \/ 1123 < 0)
  /\ splitIntoPages (u "<h1>Hi</h1><p>text</p>") 1123 = Some [u "<h1>Hi</h1><p>text</p>"].
Proof.
  split; [reflexivity|].
  split; [left; discriminate|].
  apply (splitIntoPages_single_page (u "<h1>Hi</h1><p>text</p>") 1123).
  - reflexivity.
  - left. discriminate.
Defined.

(** X4.  The last fragment is never cut: it is the document from the last
    multiple of the share to its end. *)
Theorem splitIntoPages_last_fragment (html : str) (pageHeight : Z) :
  is_empty (trim html) = false -> pageHeight <> 0 ->
  exists pages n,
    splitIntoPages html pageHeight = Some pages
    /\ pagesNeeded html pageHeight = Finite n
    /\ last pages []
       = skipn (Z.to_nat ((n - 1) * share html pageHeight)) html.
Proof.
  intros Hb Hp.
  destruct (pagesNeeded_finite html pageHeight Hp) as (n & Hn & H1 & _).
  rewrite (splitIntoPages_unfold _ _ _ Hb Hn).
  eexists. exists n. split; [reflexivity|]. split; [exact Hn|].
  unfold share. rewrite Hn.
  pose proof (ceil_div_bounds (len html) n ltac:(lia)) as B.
  fold (contentPerPage html n) in B. pose proof (len_nonneg html) as L.
  destruct (Z.eqb_spec n 1) as [->|Hne].
  - reflexivity.
  - rewrite zrange_snoc by lia. rewrite map_app. simpl. rewrite last_last.
    unfold pageAt.
    destruct (Z.ltb_spec (n - 1) (n - 1)); [lia|]. cbn [andb].
    fold (pageSlice html (contentPerPage html n) (n - 1)).
    rewrite pageSlice_chunk by nia.
    apply firstn_all2. rewrite length_skipn. unfold len in *. nia.
Qed.

Lemma splitIntoPages_last_fragment_witness :
  is_empty (trim (u "<p>aaaaaaaaaaa</p>b<p>cccccccccccc</p>")) = false
  /\ 200 <> 0
  /\ exists pages n,
       splitIntoPages (u "<p>aaaaaaaaaaa</p>b<p>cccccccccccc</p>") 200 = Some pages
       /\ pagesNeeded (u "<p>aaaaaaaaaaa</p>b<p>cccccccccccc</p>") 200 = Finite n
       /\ last pages []
          = skipn (Z.to_nat ((n - 1)
                     * share (u "<p>aaaaaaaaaaa</p>b<p>cccccccccccc</p>") 200))
              (u "<p>aaaaaaaaaaa</p>b<p>cccccccccccc</p>").
Proof.
  split; [reflexivity|]. split; [discriminate|].
  apply (splitIntoPages_last_fragment (u "<p>aaaaaaaaaaa</p>b<p>cccccccccccc</p>") 200).
  - reflexivity.
  - discriminate.
Defined.

Lemma nth_error_Forall2 {A B} (R : A -> B -> Prop) (l1 : list A) (l2 : list B) :
  length l1 = length l2 ->
  (forall i a b, nth_error l1 i = Some a -> nth_error l2 i = Some b -> R a b) ->
  Forall2 R l1 l2.
Proof.
  revert l2. induction l1 as [|a l1 IH]; intros [|b l2] Hl H; try discriminate.
  - constructor.
  - constructor.
    + apply (H O); reflexivity.
    + apply IH; [simpl in Hl; lia|]. intros i. apply (H (S i)).
Qed.

(** Fragments that are prefixes of their slices: together they are never
    longer than the slices, and they add up to the same text only when
    each of them is its whole slice. *)
Lemma prefixes_concat (ps ss : list str) :
  Forall2 (fun p s => exists k, p = firstn k s) ps ss ->
  (length (concat ps) <= length (concat ss))%nat
  /\ (concat ps = concat ss -> ps = ss).
Proof.
  induction 1 as [|p s ps ss [k ->] _ [IHl IHe]]; simpl.
  - split; [lia | reflexivity].
  - rewrite !length_app. pose proof (length_firstn k s) as Hk.
    split; [lia|]. intros E.
    assert (Hlen : length (firstn k s) = length s).
    { apply (f_equal (@length cu)) in E. rewrite !length_app in E. lia. }
    assert (Es : firstn k s = s).
    { rewrite <- (firstn_skipn k s) at 2.
      assert (Hs : length (skipn k s) = O).
      { rewrite <- (firstn_skipn k s) in Hlen at 2.
        rewrite length_app in Hlen. lia. }
      destruct (skipn k s); [rewrite app_nil_r; reflexivity | discriminate]. }
    rewrite Es in *. f_equal. apply IHe. eapply app_inv_head. exact E.
Qed.

(** X5.  The fragments never hold more text than the document, and they add up
    to the document exactly when no fragment is cut short of its slice:
    text behind a snapped boundary is in no fragment. *)
Theorem splitIntoPages_roundtrip_iff (html : str) (pageHeight : Z) :
  is_empty (trim html) = false -> pageHeight <> 0 ->
  exists pages,
    splitIntoPages html pageHeight = Some pages
    /\ (length (concat pages) <= length html)%nat
    /\ (concat pages = html
        <-> forall i frag, nth_error pages i = Some frag ->
              frag = pageSlice html (share html pageHeight) (Z.of_nat i)).
Proof.
  intros Hb Hp.
  destruct (splitIntoPages_shape html pageHeight Hp Hb)
    as (n & En & Hn & Hcover & Hc & pages & E & Hlen & Hfrag).
  exists pages. split; [exact E|].
  set (c := share html pageHeight) in *.
  assert (F : Forall2 (fun p s => exists k, p = firstn k s)
                pages (map (pageSlice html c) (zrange n))).
  { apply nth_error_Forall2.
    - rewrite length_map, zrange_length. exact Hlen.
    - intros i a b Ha Hb'. destruct (Hfrag i a Ha) as (k & -> & _).
      rewrite nth_error_map in Hb'.
      destruct (nth_error (zrange n) i) as [j|] eqn:Hj; [|discriminate].
      apply zrange_nth in Hj as [-> _]. injection Hb' as <-. eauto. }
  destruct (prefixes_concat _ _ F) as [Hl He].
  rewrite (concat_pageSlices html n c Hc Hcover) in Hl, He.
  split; [exact Hl|]. split.
  - intros Hcat i frag Hi. rewrite (He Hcat) in Hi.
    rewrite nth_error_map in Hi.
    destruct (nth_error (zrange n) i) as [j|] eqn:Hj; [|discriminate].
    apply zrange_nth in Hj as [-> _]. injection Hi as <-. reflexivity.
  - intros Hwhole.
    rewrite <- (concat_pageSlices html n c Hc Hcover) at 1.
    f_equal. apply nth_error_ext. intros i. rewrite nth_error_map.
    destruct (nth_error pages i) as [frag|] eqn:Hi.
    + assert (L : (i < Z.to_nat n)%nat)
        by (rewrite <- Hlen; apply nth_error_Some; congruence).
      unfold zrange. rewrite nth_error_map, nth_error_seq.
      destruct (Nat.ltb_spec i (Z.to_nat n)); [|lia]. simpl.
      f_equal. apply Hwhole. exact Hi.
    + apply nth_error_None in Hi.
      assert (Hz : nth_error (zrange n) i = None)
        by (apply nth_error_None; rewrite zrange_length; lia).
      rewrite Hz. reflexivity.
Qed.

Lemma splitIntoPages_roundtrip_iff_witness :
  is_empty (trim (u "<p>aaaaaaaaaaa</p>b<p>cccccccccccc</p>")) = false
  /\ 200 <> 0
  /\ exists pages,
       splitIntoPages (u "<p>aaaaaaaaaaa</p>b<p>cccccccccccc</p>") 200 = Some pages
       /\ (length (concat pages)
           <= length (u "<p>aaaaaaaaaaa</p>b<p>cccccccccccc</p>"))%nat
       /\ (concat pages = u "<p>aaaaaaaaaaa</p>b<p>cccccccccccc</p>"
           <-> forall i frag, nth_error pages i = Some frag ->
                 frag = pageSlice (u "<p>aaaaaaaaaaa</p>b<p>cccccccccccc</p>")
                          (share (u "<p>aaaaaaaaaaa</p>b<p>cccccccccccc</p>") 200)
                          (Z.of_nat i)).
Proof.
  split; [reflexivity|]. split; [discriminate|].
  apply (splitIntoPages_roundtrip_iff (u "<p>aaaaaaaaaaa</p>b<p>cccccccccccc</p>") 200).
  - reflexivity.
  - discriminate.
Defined.

(** ** Height estimate: text without tags, code blocks counted twice *)

Lemma m_until_heads (c0 : cu) (lit : str) (stop : cu) (least : nat) :
  heads_with c0 (m_until (c0 :: lit) stop least).
Proof.
  intros s n H. apply m_until_starts in H. apply starts_iff in H as [t ->].
  exists (lit ++ t). reflexivity.
Qed.

Lemma re_heading_heads : heads_with LANGLE re_heading.
Proof.
  intros s n H. destruct s as [|a s]; [discriminate H|]. exists s. f_equal.
  unfold re_heading in H. destruct a as [|a]; [discriminate H|].
  do 6 (try (destruct a as [a|a|]; try discriminate H)); reflexivity.
Qed.

Lemma re_list_heads : heads_with LANGLE re_list.
Proof.
  intros s n. unfold re_list.
  destruct (m_until (u "<ul") GT 0 s) as [k|] eqn:E.
  - intros _. exact (m_until_heads LANGLE (u "ul") GT 0 s k E).
  - apply (m_until_heads LANGLE (u "ol") GT 0).
Qed.

Lemma no_head_no_match (c0 : cu) (m : matcher) (p rest : str) :
  heads_with c0 m -> forallb (is_not c0) p = true ->
  forall j, (j < length p)%nat -> m (skipn j (p ++ rest)) = None.
Proof.
  intros Hm Hp j Hj.
  destruct (skipn_head_of_prefix p rest j Hj) as (c & t & E & Hin).
  destruct (m (skipn j (p ++ rest))) as [n|] eqn:M; [|reflexivity].
  apply Hm in M as [t' E']. rewrite E in E'. injection E' as -> _.
  rewrite forallb_forall in Hp. specialize (Hp _ Hin).
  unfold is_not in Hp. rewrite N.eqb_refl in Hp. discriminate.
Qed.

Lemma no_head_no_match_all (c0 : cu) (m : matcher) (s : str) :
  heads_with c0 m -> forallb (is_not c0) s = true ->
  forall j, m (skipn j s) = None.
Proof.
  intros Hm Hs j. destruct (Nat.lt_ge_cases j (length s)) as [Hj|Hj].
  - rewrite <- (app_nil_r s). apply (no_head_no_match c0); assumption.
  - rewrite skipn_all2 by exact Hj.
    destruct (m []) as [n|] eqn:E; [|reflexivity].
    apply Hm in E as [t E]. discriminate.
Qed.

Lemma match_all_from_none (m : matcher) (s : str) (k : nat) :
  (forall j, m (skipn j s) = None) -> match_all_from m k s = [].
Proof.
  revert k. induction s as [|c s IH]; intros k H; simpl; [reflexivity|].
  destruct k as [|k].
  - rewrite (H O : m (c :: s) = None). apply IH. intros j. apply (H (S j)).
  - apply IH. intros j. apply (H (S j)).
Qed.

(** X6.  A text without [<] has no element to count: its estimated height is
    the base height, and it fits a page of height 200 or more. *)
Theorem estimateContentHeight_no_tag (html : str) :
  forallb (is_not LANGLE) html = true ->
  estimateContentHeight html = 200
  /\ forall pageHeight, 200 <= pageHeight ->
       is_empty (trim html) = false -> splitIntoPages html pageHeight = Some [html].
Proof.
  intros H.
  assert (E : estimateContentHeight html = 200).
  { rewrite estimateContentHeight_sum. unfold match_all.
    rewrite !match_all_from_none; [reflexivity | | | | | |];
      apply (no_head_no_match_all LANGLE); try exact H.
    - apply (m_until_heads LANGLE (u "blockquote")).
    - apply (m_until_heads LANGLE (u "pre")).
    - apply (m_until_heads LANGLE (u "img")).
    - apply re_list_heads.
    - apply (m_until_heads LANGLE (u "p")).
    - apply re_heading_heads. }
  split; [exact E|]. intros pageHeight Hp Hb.
  assert (Hn : pagesNeeded html pageHeight = Finite 1).
  { destruct (pagesNeeded_finite html pageHeight ltac:(lia)) as (n & -> & _ & H1).
    f_equal. apply H1. lia. }
  rewrite (splitIntoPages_unfold _ _ _ Hb Hn). reflexivity.
Qed.

Lemma estimateContentHeight_no_tag_witness :
  forallb (is_not LANGLE) (u "plain text, 2 > 1") = true
  /\ estimateContentHeight (u "plain text, 2 > 1") = 200
  /\ forall pageHeight, 200 <= pageHeight ->
       is_empty (trim (u "plain text, 2 > 1")) = false ->
       splitIntoPages (u "plain text, 2 > 1") pageHeight
       = Some [u "plain text, 2 > 1"].
Proof.
  split; [reflexivity|].
  apply (estimateContentHeight_no_tag (u "plain text, 2 > 1")). reflexivity.
Defined.

Lemma first_gt_unique (s : str) (a b : nat) :
  forallb (is_not GT) (firstn a s) = true -> nth_error s a = Some GT ->
  forallb (is_not GT) (firstn b s) = true -> nth_error s b = Some GT ->
  a = b.
Proof.
  revert a b. induction s as [|c s IH]; intros [|a] [|b]; simpl;
    try discriminate; try reflexivity.
  - intros _ [= ->] H _. rewrite andb_true_iff in H. destruct H as [H _].
    discriminate H.
  - intros H _ _ [= ->]. rewrite andb_true_iff in H. destruct H as [H _].
    discriminate H.
  - intros Ha Na Hb Nb. apply andb_true_iff in Ha as [_ Ha].
    apply andb_true_iff in Hb as [_ Hb]. f_equal. eapply IH; eassumption.
Qed.

Lemma m_until_gt_ends (lit : str) (s : str) (n : nat) :
  forallb (is_not GT) lit = true ->
  m_until lit GT 0 s = Some n -> (1 <= n)%nat /\ ends_at n s.
Proof.
  intros Hl H. apply m_until_some in H as (run & rest & -> & -> & Hrun & _).
  split; [lia|]. unfold ends_at.
  replace (length lit + length run + 1 - 1)%nat with (length (lit ++ run))
    by (rewrite length_app; lia).
  rewrite app_assoc. split.
  - rewrite firstn_exact, forallb_app, Hl, Hrun. reflexivity.
  - rewrite nth_error_app2, Nat.sub_diag by lia. reflexivity.
Qed.

(** Where the code-block pattern matches, the paragraph pattern matches
    the same text. *)
Lemma re_pre_is_paragraph (s : str) (n : nat) :
  re_pre s = Some n -> re_paragraph s = Some n.
Proof.
  intros H. pose proof H as H'.
  apply (m_until_gt_ends (u "<pre")) in H' as [Hn He]; [|reflexivity].
  apply m_until_starts, starts_iff in H as [t ->].
  unfold re_paragraph, m_until. simpl starts. cbv iota.
  change (skipn (length (u "<p")) (u "<pre" ++ t)) with (u "re" ++ t).
  destruct He as [Hf Hg].
  destruct n as [|[|[|[|[|n]]]]]; try (simpl in Hg; discriminate Hg).
  simpl in Hf, Hg.
  assert (Hspan : span_len (is_not GT) t = n).
  { destruct (span_len_split (is_not GT) t) as [S1 S2].
    destruct (nth_error t (span_len (is_not GT) t)) as [c|] eqn:Hc.
    - apply (first_gt_unique t); try assumption.
      unfold is_not in S2. apply negb_false_iff, N.eqb_eq in S2. subst c. exact Hc.
    - exfalso. apply nth_error_None in Hc.
      assert (Hlt : (n < length t)%nat) by (apply nth_error_Some; congruence).
      assert (Hin : In GT (firstn (span_len (is_not GT) t) t)).
      { rewrite firstn_all2 by lia. eapply nth_error_In. exact Hg. }
      rewrite forallb_forall in S1. specialize (S1 _ Hin). discriminate S1. }
  simpl span_len. rewrite Hspan. simpl nth_error. rewrite Hg.
  cbn [Nat.leb]. f_equal. simpl. lia.
Qed.

Lemma ends_at_tail (k : nat) (c : cu) (s : str) :
  (2 <= k)%nat -> ends_at k (c :: s) -> ends_at (k - 1) s.
Proof.
  intros Hk [Hf Hn]. destruct k as [|[|k]]; try lia. unfold ends_at.
  replace (S (S k) - 1 - 1)%nat with k by lia.
  replace (S (S k) - 1)%nat with (S k) in Hf, Hn by lia.
  cbn [firstn forallb nth_error] in Hf, Hn.
  apply andb_true_iff in Hf as [_ Hf]. split; assumption.
Qed.

Lemma re_pre_in_rest (k : nat) (s : str) (n : nat) :
  (1 <= k)%nat -> ends_at k s -> re_pre s = Some n -> n = k.
Proof.
  intros Hk [Hf Hn] H.
  apply (m_until_gt_ends (u "<pre")) in H as [H1 [Hf' Hn']]; [|reflexivity].
  pose proof (first_gt_unique s (n - 1) (k - 1) Hf' Hn' Hf Hn). lia.
Qed.

(** The two scans side by side: in step, or the paragraph scan inside a
    match that the code-block scan has not counted. *)
Lemma pre_matches_le_paragraph_matches (s : str) :
  (forall k, (length (match_all_from re_pre k s)
              <= length (match_all_from re_paragraph k s))%nat)
  /\ (forall k, (1 <= k)%nat -> ends_at k s ->
        (length (match_all_from re_pre O s)
         <= length (match_all_from re_paragraph k s) + 1)%nat).
Proof.
  induction s as [|c s [IHa IHb]]; [split; intros; simpl; lia|]. split.
  - intros [|k]; simpl; [|apply IHa].
    destruct (re_pre (c :: s)) as [n|] eqn:Er.
    + rewrite (re_pre_is_paragraph _ _ Er). simpl.
      specialize (IHa (pred n)). lia.
    + destruct (re_paragraph (c :: s)) as [n|] eqn:Ep; [|apply IHa].
      simpl. apply (m_until_gt_ends (u "<p")) in Ep as [Hn He]; [|reflexivity].
      destruct (Nat.le_gt_cases 2 n) as [H2|H2].
      * apply ends_at_tail in He; [|exact H2].
        replace (pred n) with (n - 1)%nat by lia.
        specialize (IHb (n - 1)%nat ltac:(lia) He). lia.
      * replace (pred n) with O by lia. specialize (IHa O). lia.
  - intros k Hk He. simpl. destruct k as [|k]; [lia|].
    destruct (re_pre (c :: s)) as [n|] eqn:Er.
    + pose proof (re_pre_in_rest _ _ _ Hk He Er) as ->. simpl.
      specialize (IHa k). lia.
    + destruct k as [|k].
      * specialize (IHa O). lia.
      * apply ends_at_tail in He; [|lia]. simpl in He.
        specialize (IHb (S k) ltac:(lia) He). lia.
Qed.

(** X7.  Every code block is also counted as a paragraph: the paragraph count
    is at least the code-block count, so each [<pre ...>] adds 210 to the
    estimate, not 150. *)
Theorem estimateContentHeight_counts_pre_twice (html : str) :
  count (match_all re_pre html) <= count (match_all re_paragraph html)
  /\ 200 + 210 * count (match_all re_pre html) <= estimateContentHeight html.
Proof.
  assert (H : count (match_all re_pre html) <= count (match_all re_paragraph html)).
  { unfold count, match_all.
    pose proof (proj1 (pre_matches_le_paragraph_matches html) O). lia. }
  split; [exact H|].
  rewrite estimateContentHeight_sum.
  pose proof (count_nonneg (match_all re_heading html)).
  pose proof (count_nonneg (match_all re_list html)).
  pose proof (count_nonneg (match_all re_image html)).
  pose proof (count_nonneg (match_all re_blockquote html)).
  lia.
Qed.

(** ** Code Guard: the round trip *)

(** The scan at a match: the callback's text, then the scan behind the
    match. *)
Lemma replace_from_match {St : Type} (m : matcher) (f : St -> str -> str * St)
  (s : str) (n : nat) (st : St) :
  m s = Some n -> (1 <= n)%nat -> s <> [] ->
  replace_from m f O s st =
    (fst (f st (firstn n s))
       ++ fst (replace_from m f O (skipn n s) (snd (f st (firstn n s)))),
     snd (replace_from m f O (skipn n s) (snd (f st (firstn n s))))).
Proof.
  intros Hm Hn Hs. destruct s as [|c s]; [congruence|].
  cbn [replace_from]. rewrite Hm.
  destruct (f st (firstn n (c :: s))) as [r st1]. cbn [fst snd].
  rewrite replace_from_skip.
  replace (skipn (pred n) s) with (skipn n (c :: s))
    by (destruct n; [lia | reflexivity]).
  destruct (replace_from m f O (skipn n (c :: s)) st1). reflexivity.
Qed.

Lemma replace_fn_prefix (m : matcher) (f : str -> str) (p rest : str) :
  (forall j, (j < length p)%nat -> m (skipn j (p ++ rest)) = None) ->
  replace_fn m f (p ++ rest) = p ++ replace_fn m f rest.
Proof.
  intros H. unfold replace_fn. rewrite replace_from_prefix by exact H.
  reflexivity.
Qed.

Lemma replace_fn_match (m : matcher) (f : str -> str) (s : str) (n : nat) :
  m s = Some n -> (1 <= n)%nat -> s <> [] ->
  replace_fn m f s = f (firstn n s) ++ replace_fn m f (skipn n s).
Proof.
  intros Hm Hn Hs. unfold replace_fn.
  rewrite (replace_from_match _ _ s n) by assumption. reflexivity.
Qed.

Lemma replace_fn_no_match (m : matcher) (f : str -> str) (s : str) :
  (forall j, m (skipn j s) = None) -> replace_fn m f s = s.
Proof.
  intros H. unfold replace_fn. rewrite replace_from_no_match by exact H.
  reflexivity.
Qed.

(** The text up to the leftmost match, if there is a match. *)
Lemma first_match_split (m : matcher) (s : str) :
  (forall j, m (skipn j s) = None)
  \/ exists k n, (k <= length s)%nat /\ m (skipn k s) = Some n
                 /\ forall j, (j < k)%nat -> m (skipn j s) = None.
Proof.
  destruct (search m s) as [k|] eqn:E.
  - right. apply search_some in E as (Hk & [n Hn] & Hj). eauto.
  - left. intros j. apply search_none. exact E.
Qed.

(** [parseInt] reads back the number that string interpolation printed. *)
Lemma parseInt_snoc (ds : str) (d : cu) :
  parseInt (ds ++ [d]) = (parseInt ds * 10 + (d - 48))%N.
Proof. unfold parseInt. rewrite fold_left_app. reflexivity. Qed.

Lemma parseInt_digit (n : N) : (n < 10)%N -> parseInt [(48 + n mod 10)%N] = n.
Proof.
  intros H. unfold parseInt. cbn [fold_left].
  rewrite N.mod_small by exact H. lia.
Qed.

Lemma digits_spec (fuel : nat) (n : N) (acc : str) :
  (n < 10 ^ N.of_nat (S fuel))%N ->
  exists ds, digits fuel n acc = ds ++ acc /\ ds <> []
             /\ forallb is_digit ds = true /\ parseInt ds = n.
Proof.
  revert n acc. induction fuel as [|fuel IH]; intros n acc Hn; cbn [digits].
  - exists [(48 + n mod 10)%N]. split; [reflexivity|]. split; [discriminate|].
    split; [cbn [forallb]; rewrite is_digit_mod10; reflexivity|].
    apply parseInt_digit. exact Hn.
  - destruct (N.ltb_spec n 10) as [Hlt|Hge].
    + exists [(48 + n mod 10)%N]. split; [reflexivity|]. split; [discriminate|].
      split; [cbn [forallb]; rewrite is_digit_mod10; reflexivity|].
      apply parseInt_digit. exact Hlt.
    + destruct (IH (n / 10)%N ((48 + n mod 10)%N :: acc)) as (ds & E & Hne & Hd & Hp).
      { apply N.Div0.div_lt_upper_bound.
        rewrite <- N.pow_succ_r', <- Nat2N.inj_succ. exact Hn. }
      exists (ds ++ [(48 + n mod 10)%N]). split; [|split; [|split]].
      * rewrite E, <- app_assoc. reflexivity.
      * intros H. apply app_eq_nil in H as [_ H]. discriminate.
      * rewrite forallb_app, Hd. cbn [forallb]. rewrite is_digit_mod10. reflexivity.
      * rewrite parseInt_snoc, Hp.
        pose proof (N.div_mod' n 10) as Hdm. revert Hdm.
        generalize (n / 10)%N (n mod 10)%N. intros q r Hdm. lia.
Qed.

Lemma decimal_spec (n : N) :
  decimal n <> [] /\ forallb is_digit (decimal n) = true
  /\ parseInt (decimal n) = n.
Proof.
  destruct (digits_spec (N.to_nat (N.log2 n)) n []) as (ds & E & Hne & Hd & Hp).
  - rewrite Nat2N.inj_succ, N2Nat.id.
    destruct (N.eq_dec n 0) as [->|Hn].
    + apply N.neq_0_lt_0, N.pow_nonzero. discriminate.
    + apply N.lt_le_trans with (2 ^ N.succ (N.log2 n))%N.
      * apply N.log2_spec. lia.
      * apply N.pow_le_mono_l. discriminate.
  - unfold decimal. rewrite E, app_nil_r. auto.
Qed.

(** The restore pattern at a placeholder, and its callback. *)
Lemma span_len_digits (ds rest : str) :
  forallb is_digit ds = true ->
  span_len is_digit (ds ++ u "__" ++ rest) = length ds.
Proof. intros H. apply span_len_run; [exact H | reflexivity]. Qed.

Lemma re_placeholder_at (tag ds rest : str) :
  ds <> [] -> forallb is_digit ds = true ->
  re_placeholder tag (tag ++ ds ++ u "__" ++ rest)
  = Some (length tag + length ds + 2)%nat.
Proof.
  intros Hne Hd. unfold re_placeholder.
  rewrite (proj2 (starts_iff tag _)) by eauto.
  rewrite skipn_exact, span_len_digits by exact Hd.
  rewrite skipn_exact.
  destruct ds; [congruence|]. reflexivity.
Qed.

Lemma restore_cb_at (tag : str) (table : list str) (ds block : str) :
  nth_error table (N.to_nat (parseInt ds)) = Some block -> block <> [] ->
  restore_cb tag table (tag ++ ds ++ u "__") = block.
Proof.
  intros Hn Hb. unfold restore_cb.
  rewrite skipn_exact.
  replace (length (tag ++ ds ++ u "__") - length tag - 2)%nat with (length ds)
    by (rewrite !length_app; simpl; lia).
  rewrite firstn_exact, Hn. destruct block; [congruence | reflexivity].
Qed.

Lemma starts_app_long (q x r : str) :
  (length q <= length x)%nat -> starts q (x ++ r) = true -> starts q x = true.
Proof.
  revert x. induction q as [|a q IH]; intros x Hl H; [reflexivity|].
  destruct x as [|b x]; simpl in *; [lia|].
  apply andb_true_iff in H as [H1 H2]. rewrite H1. apply IH; [lia | exact H2].
Qed.

(** In front of a placeholder no match of the restore pattern starts,
    when the tag itself does not occur there: a match that runs into the
    placeholder would need a digit where the placeholder has its tag. *)
Lemma re_placeholder_before (tag p rest : str) :
  forallb (fun c => negb (is_digit c)) tag = true ->
  ~ occurs tag p ->
  forall j, (j < length p)%nat ->
    re_placeholder tag (skipn j (p ++ tag ++ rest)) = None.
Proof.
  intros Ht Hp j Hj. unfold re_placeholder.
  destruct (starts tag (skipn j (p ++ tag ++ rest))) eqn:Hs; [|reflexivity].
  rewrite skipn_app in Hs. rewrite skipn_app.
  replace (j - length p)%nat with O in * by lia. cbn [skipn] in *.
  assert (Hx : length (skipn j p) = (length p - j)%nat) by apply length_skipn.
  destruct (Nat.le_gt_cases (length tag) (length (skipn j p))) as [Hl|Hl].
  - exfalso. apply Hp, occurs_skipn. exists j.
    eapply starts_app_long; eassumption.
  - rewrite skipn_app, (skipn_all2 (skipn j p)) by lia. cbn [app].
    destruct (skipn_head_of_prefix tag rest
                (length tag - length (skipn j p))%nat ltac:(lia))
      as (c & t & E & Hin).
    rewrite E. cbn [span_len].
    rewrite forallb_forall in Ht. specialize (Ht _ Hin).
    apply negb_true_iff in Ht. rewrite Ht. reflexivity.
Qed.

Lemma re_placeholder_absent (tag s : str) :
  ~ occurs tag s -> forall j, re_placeholder tag (skipn j s) = None.
Proof.
  intros H j. unfold re_placeholder.
  rewrite (not_occurs_starts tag s j H). reflexivity.
Qed.

(** One pass of the Code Guard and its inverse.  The table may already
    hold blocks, and more may be added behind before the text is
    restored. *)
Lemma restore_protect_pass (m : matcher) (tag : str) :
  (forall s n, m s = Some n -> (1 <= n <= length s)%nat) ->
  forallb (fun c => negb (is_digit c)) tag = true ->
  forall (k : nat) (s : str), (length s <= k)%nat -> ~ occurs tag s ->
  forall cb0,
    exists blocks,
      snd (replace_from m (protect_cb tag) O s cb0) = cb0 ++ blocks
      /\ forall ext,
           replace_fn (re_placeholder tag) (restore_cb tag (cb0 ++ blocks ++ ext))
             (fst (replace_from m (protect_cb tag) O s cb0)) = s.
Proof.
  intros Hm Ht. induction k as [|k IH]; intros s Hk Hs cb0.
  - destruct s; [|simpl in Hk; lia]. exists []. split.
    + simpl. rewrite app_nil_r. reflexivity.
    + intros ext. reflexivity.
  - destruct (first_match_split m s) as [Hno | (j & n & Hj & Hn & Hbefore)].
    + exists []. rewrite replace_from_no_match by exact Hno. split.
      * simpl. rewrite app_nil_r. reflexivity.
      * intros ext. apply replace_fn_no_match, re_placeholder_absent, Hs.
    + pose proof (Hm _ _ Hn) as [Hn1 Hn2].
      rewrite length_skipn in Hn2.
      set (p := firstn j s). set (s2 := skipn j s) in *.
      assert (Es : s = p ++ s2) by (symmetry; apply firstn_skipn).
      assert (Hp : length p = j) by (apply firstn_length_le; exact Hj).
      set (mt := firstn n s2). set (rest := skipn n s2).
      assert (E2 : s2 = mt ++ rest) by (symmetry; apply firstn_skipn).
      assert (Hmt : length mt = n).
      { apply firstn_length_le. unfold s2. rewrite length_skipn. lia. }
      assert (Hs2 : s2 <> []).
      { intros E. apply (f_equal (@length cu)) in E. unfold s2 in E.
        rewrite length_skipn in E. simpl in E. lia. }
      assert (Hrest : (length rest <= k)%nat).
      { apply (f_equal (@length cu)) in Es, E2.
        rewrite length_app in Es, E2. lia. }
      assert (Hor : ~ occurs tag rest).
      { intros H. apply Hs. rewrite Es, E2.
        apply occurs_app_r, occurs_app_r. exact H. }
      assert (Hop : ~ occurs tag p).
      { intros H. apply Hs. rewrite Es. apply occurs_app_l. exact H. }
      destruct (IH rest Hrest Hor (cb0 ++ [mt])) as (blocks & Eb & Hr).
      exists (mt :: blocks).
      assert (Erun : replace_from m (protect_cb tag) O s cb0
                     = (p ++ (tag ++ decimal (N.of_nat (length cb0)) ++ u "__")
                          ++ fst (replace_from m (protect_cb tag) O rest (cb0 ++ [mt])),
                        snd (replace_from m (protect_cb tag) O rest (cb0 ++ [mt])))).
      { rewrite Es at 1. rewrite replace_from_prefix.
        - rewrite (replace_from_match m (protect_cb tag) s2 n cb0 Hn Hn1 Hs2).
          reflexivity.
        - intros i Hi. rewrite <- Es. apply Hbefore. lia. }
      rewrite Erun. cbn [fst snd]. split.
      * rewrite Eb, <- app_assoc. reflexivity.
      * intros ext.
        destruct (decimal_spec (N.of_nat (length cb0))) as (Hdne & Hdd & Hdp).
        rewrite <- (app_assoc tag), <- (app_assoc (decimal _)).
        rewrite replace_fn_prefix
          by (apply re_placeholder_before; [exact Ht | exact Hop]).
        rewrite (replace_fn_match _ _ _ _ (re_placeholder_at tag _ _ Hdne Hdd));
          [| lia | intros E; apply (f_equal (@length cu)) in E;
                   rewrite !length_app in E; simpl in E; lia].
        replace (length tag + length (decimal (N.of_nat (length cb0))) + 2)%nat
          with (length (tag ++ decimal (N.of_nat (length cb0)) ++ u "__"))
          by (rewrite !length_app; simpl; lia).
        rewrite !(app_assoc tag), !(app_assoc (tag ++ _)).
        rewrite firstn_exact, skipn_exact, <- !app_assoc.
        rewrite (restore_cb_at tag _ _ mt).
        -- transitivity (p ++ mt ++ rest);
             [| rewrite <- E2; symmetry; exact Es].
           f_equal. f_equal. etransitivity; [|exact (Hr ext)].
           f_equal. f_equal. rewrite <- app_assoc. reflexivity.
        -- rewrite Hdp, Nat2N.id, nth_error_app2, Nat.sub_diag by lia. reflexivity.
        -- intros E. rewrite E in Hmt. simpl in Hmt. lia.
Qed.

(** The round trip of both passes, where the fenced pass finds nothing. *)
Lemma restore_protect_roundtrip (text : str) :
  ~ occurs (u "```") text ->
  ~ occurs INLINE_TAG text ->
  ~ occurs FENCED_TAG text ->
  restoreCodeBlocks (fst (protectCodeBlocks text)) (snd (protectCodeBlocks text))
  = text.
Proof.
  intros Hf Hi Hfe.
  destruct (restore_protect_pass re_inline_code INLINE_TAG) with
    (k := length text) (s := text) (cb0 := @nil str) as (blocks & Eb & Hr);
    [ intros s n H; apply m_until_bounds in H; simpl in H; lia
    | reflexivity | apply Nat.le_refl | exact Hi |].
  unfold protectCodeBlocks.
  destruct (replace_from re_inline_code (protect_cb INLINE_TAG) O text [])
    as [t1 cb1] eqn:E1.
  cbn [fst snd] in Eb, Hr. cbn [app] in Eb, Hr. subst cb1.
  assert (Hno : forall j, re_fenced_code (skipn j t1) = None).
  { intros j. unfold re_fenced_code.
    destruct (starts (u "```") (skipn j t1)) eqn:Hs; [|reflexivity].
    exfalso. apply Hf.
    apply (replace_from_occurs re_inline_code (protect_cb INLINE_TAG)
             is_placeholder_cu) with (st := @nil str).
    - intros st mt. apply protect_cb_nonempty.
    - intros st mt. apply protect_cb_class. reflexivity.
    - discriminate.
    - reflexivity.
    - rewrite E1. apply occurs_skipn. exists j. exact Hs. }
  rewrite (replace_from_no_match re_fenced_code) by exact Hno.
  cbn [fst snd]. unfold restoreCodeBlocks.
  specialize (Hr []). rewrite app_nil_r in Hr.
  etransitivity; [| apply (replace_fn_no_match (re_placeholder FENCED_TAG)
                             (restore_cb FENCED_TAG blocks) text);
                    apply re_placeholder_absent; exact Hfe].
  f_equal. exact Hr.
Qed.

(** X8.  The Code Guard gives back what it took: a text with no run of three
    backticks, and in which neither placeholder tag occurs, is restored
    code unit by code unit, whatever inline code it holds. *)
Theorem restoreCodeBlocks_protectCodeBlocks (text : str) :
  includes (u "```") text = false ->
  includes INLINE_TAG text = false ->
  includes FENCED_TAG text = false ->
  restoreCodeBlocks (fst (protectCodeBlocks text)) (snd (protectCodeBlocks text))
  = text.
Proof.
  intros Hf Hi Hfe.
  apply restore_protect_roundtrip; apply includes_false; assumption.
Qed.

Lemma restoreCodeBlocks_protectCodeBlocks_witness :
  includes (u "```") (u "run `npm i` then ``x`` and `a_b </> c`") = false
  /\ includes INLINE_TAG (u "run `npm i` then ``x`` and `a_b </> c`") = false
  /\ includes FENCED_TAG (u "run `npm i` then ``x`` and `a_b </> c`") = false
  /\ restoreCodeBlocks
       (fst (protectCodeBlocks (u "run `npm i` then ``x`` and `a_b </> c`")))
       (snd (protectCodeBlocks (u "run `npm i` then ``x`` and `a_b </> c`")))
     = u "run `npm i` then ``x`` and `a_b </> c`".
Proof.
  split; [reflexivity|]. split; [reflexivity|]. split; [reflexivity|].
  apply (restoreCodeBlocks_protectCodeBlocks
           (u "run `npm i` then ``x`` and `a_b </> c`")); reflexivity.
Defined.

(** ** Block processor: markers inside code, flat blocks *)

Section CodeShield.

Variable marked_parse : str -> str.

(** No opening marker is left once the code is taken out: the block
    processor gives back what the Code Guard restores, and the Bridge is
    not called. *)
Lemma processAllBlocks_no_marker_left (fuel : nat) (text : str) :
  includes OPEN_MARK (fst (protectCodeBlocks text)) = false ->
  processAllBlocks marked_parse (S fuel) text
  = ret (restoreCodeBlocks (fst (protectCodeBlocks text)) (snd (protectCodeBlocks text))).
Proof.
  intros Hp. cbn [processAllBlocks].
  destruct (protectCodeBlocks text) as [protectedText codeBlocks].
  cbn [fst snd] in *. unfold maxIterations.
  rewrite passes_fixpoint
    by (apply processAngleBlocks_no_opener, includes_false; exact Hp).
  cbn [bind ret]. unfold removeUnprocessed. rewrite Hp. reflexivity.
Qed.

(** X9.  Block markers inside inline code open no block.  A document whose
    opening markers all lie in inline code (none is left once the Code
    Guard has taken the code out) goes to the Bridge as it is, in one
    call. *)
Theorem parse_markers_in_code
  (fuel : nat) (text : str) (options : MarkOverOptions) :
  is_empty (trim text) = false ->
  includes (u "```") text = false ->
  includes INLINE_TAG text = false ->
  includes FENCED_TAG text = false ->
  includes DIV_CLASS text = false ->
  includes OPEN_MARK (fst (protectCodeBlocks text)) = false ->
  parse marked_parse (S fuel) text options = Some (marked_parse text, [text]).
Proof.
  intros Hb Hf Hi Hfe Hd Ho. unfold parse. rewrite Hb.
  rewrite processAllBlocks_no_marker_left by exact Ho.
  rewrite restore_protect_roundtrip by (apply includes_false; assumption).
  unfold processMarkdownOutsideDivs. cbn [bind ret].
  rewrite splitByDivs_no_div by assumption. reflexivity.
Qed.

End CodeShield.

Lemma parse_markers_in_code_witness :
  is_empty (trim (u "write `<>'box' text </>` for a box")) = false
  /\ includes OPEN_MARK (u "write `<>'box' text </>` for a box") = true
  /\ parse paragraph_bridge 1 (u "write `<>'box' text </>` for a box") defaultOptions
     = Some (paragraph_bridge (u "write `<>'box' text </>` for a box"),
             [u "write `<>'box' text </>` for a box"]).
Proof.
  split; [reflexivity|]. split; [reflexivity|].
  apply (parse_markers_in_code paragraph_bridge 0
           (u "write `<>'box' text </>` for a box") defaultOptions);
    reflexivity.
Defined.

Lemma search_at (m : matcher) (p r : str) (n : nat) :
  (forall j, (j < length p)%nat -> m (skipn j (p ++ r)) = None) ->
  m r = Some n -> search m (p ++ r) = Some (length p).
Proof.
  induction p as [|c p IH]; intros H Hr.
  - destruct r; cbn [app search]; rewrite Hr; reflexivity.
  - cbn [app search]. rewrite (H O ltac:(simpl; lia) : m (c :: p ++ r) = None).
    rewrite IH; [reflexivity | | exact Hr].
    intros j Hj. apply (H (S j)). simpl. lia.
Qed.

Lemma search_behind (m : matcher) (p r : str) (k : nat) :
  (forall j, (j <= length p)%nat -> m (skipn j (p ++ r)) = None) ->
  search m (p ++ r) = Some k -> (length p < k)%nat.
Proof.
  intros H Hs. apply search_some in Hs as (_ & [n Hn] & _).
  destruct (Nat.lt_ge_cases (length p) k) as [Hl|Hl]; [exact Hl|].
  rewrite H in Hn by exact Hl. discriminate.
Qed.

Lemma open_mark_quote (s : str) :
  starts OPEN_MARK s = true -> nth_error s 2 = Some QUOTE.
Proof. intros H. apply starts_iff in H as [t ->]. reflexivity. Qed.

(** No opening marker starts in a stretch without quote, unless the text
    behind it supplies the quote. *)
Lemma no_quote_no_opener (p r : str) :
  forallb (is_not QUOTE) p = true ->
  nth_error r 0 <> Some QUOTE -> nth_error r 1 <> Some QUOTE ->
  forall j, (j < length p)%nat -> starts OPEN_MARK (skipn j (p ++ r)) = false.
Proof.
  intros Hp H0 H1 j Hj.
  destruct (starts OPEN_MARK (skipn j (p ++ r))) eqn:E; [|reflexivity].
  exfalso. apply open_mark_quote in E. rewrite nth_error_skipn in E.
  destruct (Nat.lt_ge_cases (j + 2) (length p)) as [Hl|Hl].
  - rewrite nth_error_app1 in E by lia. apply nth_error_In in E.
    rewrite forallb_forall in Hp. specialize (Hp _ E). discriminate Hp.
  - rewrite nth_error_app2 in E by lia.
    destruct (j + 2 - length p)%nat as [|[|k]] eqn:D; [congruence | congruence | lia].
Qed.

Lemma m_until_not_starts (lit : str) (stop : cu) (least : nat) (s : str) :
  starts lit s = false -> m_until lit stop least s = None.
Proof. intros H. unfold m_until. rewrite H. reflexivity. Qed.

Lemma re_close_heads : heads_with LANGLE re_close.
Proof.
  intros s n. unfold re_close.
  destruct (starts CLOSE_MARK s) eqn:E; [|discriminate].
  intros _. apply starts_iff in E as [t ->]. eexists. reflexivity.
Qed.

Lemma re_open_any_heads : heads_with LANGLE re_open_any.
Proof. apply (m_until_heads LANGLE (u ">'") QUOTE 0). Qed.

Lemma block_assoc (pre cls rest : str) :
  pre ++ OPEN_MARK ++ cls ++ QUOTE :: rest
  = (pre ++ OPEN_MARK ++ cls ++ [QUOTE]) ++ rest.
Proof. rewrite (opener_assoc cls rest), app_assoc. reflexivity. Qed.

(** The closing marker of a block whose content has no [<]. *)
Lemma findMatchingClosingTag_flat (pre cls content tail : str) :
  forallb (is_not LANGLE) content = true ->
  findMatchingClosingTag
    (pre ++ OPEN_MARK ++ cls ++ QUOTE :: content ++ CLOSE_MARK ++ tail)
    (len pre) (OPEN_MARK ++ cls ++ [QUOTE])
  = Some (len pre + len (OPEN_MARK ++ cls ++ [QUOTE]) + len content).
Proof.
  intros Hc. rewrite block_assoc.
  set (A := pre ++ OPEN_MARK ++ cls ++ [QUOTE]).
  assert (HA : len pre + len (OPEN_MARK ++ cls ++ [QUOTE]) = len A)
    by (unfold A; rewrite (len_app pre); reflexivity).
  unfold findMatchingClosingTag. rewrite HA.
  pose proof (len_nonneg A) as HA0. pose proof (len_nonneg content) as Hc0.
  pose proof (len_nonneg tail) as Ht0.
  assert (Hlen : len (A ++ content ++ CLOSE_MARK ++ tail)
                 = len A + len content + 3 + len tail).
  { rewrite !len_app. change (len CLOSE_MARK) with 3. lia. }
  apply closes_at_loop; [|lia]. apply closes_here; [lia|].
  unfold next_token. rewrite substring_from_nonneg by exact HA0.
  replace (Z.to_nat (len A)) with (length A) by (unfold len; lia).
  rewrite skipn_exact.
  assert (Sc : search re_close (content ++ CLOSE_MARK ++ tail)
               = Some (length content)).
  { apply (search_at re_close content (CLOSE_MARK ++ tail) 3).
    - apply (no_head_no_match LANGLE); [apply re_close_heads | exact Hc].
    - reflexivity. }
  rewrite Sc.
  assert (Hnone : forall j, (j <= length content)%nat ->
            re_open_any (skipn j (content ++ CLOSE_MARK ++ tail)) = None).
  { intros j Hj. destruct (Nat.eq_dec j (length content)) as [->|Hne].
    - rewrite skipn_exact. reflexivity.
    - apply (no_head_no_match LANGLE);
        [apply re_open_any_heads | exact Hc | lia]. }
  destruct (search re_open_any (content ++ CLOSE_MARK ++ tail)) as [o|] eqn:So.
  - apply search_behind in So; [|exact Hnone].
    destruct (Nat.ltb_spec o (length content)) as [Hlt|_]; [lia|].
    unfold len. reflexivity.
  - unfold len. reflexivity.
Qed.

Section FlatBlock.

Variable marked_parse : str -> str.
Variable rec : str -> M str.

(** A block whose closing marker the matcher finds at the end of
    [content]. *)
Lemma processAngleBlocks_closed_at
  (pre cls content tail processedContent : str) (log : list str) :
  forallb (is_not QUOTE) pre = true ->
  cls <> [] -> forallb (is_not QUOTE) cls = true ->
  findMatchingClosingTag
    (pre ++ OPEN_MARK ++ cls ++ QUOTE :: content ++ CLOSE_MARK ++ tail)
    (len pre) (OPEN_MARK ++ cls ++ [QUOTE])
  = Some (len pre + len (OPEN_MARK ++ cls ++ [QUOTE]) + len content) ->
  rec content = Some (processedContent, log) ->
  processAngleBlocks marked_parse rec
    (pre ++ OPEN_MARK ++ cls ++ QUOTE :: content ++ CLOSE_MARK ++ tail)
  = Some (pre
            ++ (DIV_CLASS ++ trim cls ++ [DQUOTE; GT]
                  ++ marked_parse processedContent ++ DIV_CLOSE)
            ++ skipn 1 tail,
          log ++ [processedContent]).
Proof.
  intros Hpre Hne Hq Hfind Hrec.
  assert (Hs : search re_open
                 (pre ++ OPEN_MARK ++ cls ++ QUOTE :: content ++ CLOSE_MARK ++ tail)
               = Some (length pre)).
  { apply (search_at re_open pre _ (length OPEN_MARK + length cls + 1)).
    - intros j Hj. apply m_until_not_starts.
      apply no_quote_no_opener; [exact Hpre | discriminate | discriminate | exact Hj].
    - unfold re_open. rewrite m_until_eval by exact Hq.
      destruct cls; [congruence | reflexivity]. }
  unfold processAngleBlocks. rewrite exec_open_at by assumption.
  rewrite Hfind. cbn [lift bind].
  pose proof (len_nonneg pre) as Hp0. pose proof (len_nonneg content) as Hc0.
  pose proof (len_nonneg (OPEN_MARK ++ cls ++ [QUOTE])) as Ho0.
  destruct (Z.eqb_spec (len pre + len (OPEN_MARK ++ cls ++ [QUOTE]) + len content) (-1))
    as [E|_]; [lia|]. cbn [negb].
  rewrite substring_prefix.
  rewrite block_assoc.
  set (A := pre ++ OPEN_MARK ++ cls ++ [QUOTE]).
  assert (HA : len pre + len (OPEN_MARK ++ cls ++ [QUOTE]) = len A)
    by (unfold A; rewrite (len_app pre); reflexivity).
  rewrite HA. pose proof (len_nonneg A) as HA0. pose proof (len_nonneg tail) as Ht0.
  assert (Hcontent : substring (A ++ content ++ CLOSE_MARK ++ tail)
                       (len A) (len A + len content) = content).
  { rewrite substring_between;
      [| lia | rewrite !len_app; change (len CLOSE_MARK) with 3; lia].
    replace (Z.to_nat (len A)) with (length A) by (unfold len; lia).
    replace (Z.to_nat (len A + len content - len A)) with (length content)
      by (unfold len; lia).
    rewrite skipn_exact. apply firstn_exact. }
  assert (Hafter : substring_from (A ++ content ++ CLOSE_MARK ++ tail)
                     (len A + len content + 4) = skipn 1 tail).
  { rewrite substring_from_skipn. unfold clamp.
    set (B := A ++ content ++ CLOSE_MARK).
    assert (EB : A ++ content ++ CLOSE_MARK ++ tail = B ++ tail)
      by (unfold B; rewrite <- !app_assoc; reflexivity).
    assert (HB : len B = len A + len content + 3)
      by (unfold B; rewrite !len_app; change (len CLOSE_MARK) with 3; lia).
    rewrite EB, len_app, HB.
    destruct tail as [|t tail'].
    - change (len []) with 0. rewrite app_nil_r.
      replace (Z.to_nat _) with (length B) by (unfold len in *; lia).
      rewrite skipn_all. reflexivity.
    - change (t :: tail') with ([t] ++ tail'). rewrite app_assoc.
      replace (Z.to_nat _) with (length (B ++ [t])).
      + rewrite skipn_exact. reflexivity.
      + rewrite len_app, length_app. unfold len in *. simpl length. lia. }
  rewrite Hcontent, Hafter, Hrec. unfold bridge. cbn [bind ret].
  rewrite !app_nil_r. reflexivity.
Qed.

Lemma processAngleBlocks_flat
  (pre cls content tail processedContent : str) (log : list str) :
  forallb (is_not QUOTE) pre = true ->
  cls <> [] -> forallb (is_not QUOTE) cls = true ->
  forallb (is_not LANGLE) content = true ->
  rec content = Some (processedContent, log) ->
  processAngleBlocks marked_parse rec
    (pre ++ OPEN_MARK ++ cls ++ QUOTE :: content ++ CLOSE_MARK ++ tail)
  = Some (pre
            ++ (DIV_CLASS ++ trim cls ++ [DQUOTE; GT]
                  ++ marked_parse processedContent ++ DIV_CLOSE)
            ++ skipn 1 tail,
          log ++ [processedContent]).
Proof.
  intros Hpre Hne Hq Hc Hrec.
  apply processAngleBlocks_closed_at; try assumption.
  apply findMatchingClosingTag_flat. exact Hc.
Qed.

(** X10.  A block whose content has no [<], behind a text without quote,
    becomes a container: the class attribute is the class list trimmed,
    the body is what the Bridge renders for the processed content, and the
    text goes on one code unit behind the closing marker: that code unit
    is dropped. *)
Theorem processAngleBlocks_flat_block
  (pre cls content tail processedContent : str) (log : list str) :
  forallb (is_not QUOTE) pre = true ->
  cls <> [] -> forallb (is_not QUOTE) cls = true ->
  forallb (is_not LANGLE) content = true ->
  rec content = Some (processedContent, log) ->
  processAngleBlocks marked_parse rec
    (pre ++ OPEN_MARK ++ cls ++ QUOTE :: content ++ CLOSE_MARK ++ tail)
  = Some (pre
            ++ (DIV_CLASS ++ trim cls ++ [DQUOTE; GT]
                  ++ marked_parse processedContent ++ DIV_CLOSE)
            ++ skipn 1 tail,
          log ++ [processedContent]).
Proof.
  intros Hpre Hne Hq Hc Hrec.
  apply processAngleBlocks_closed_at; try assumption.
  apply findMatchingClosingTag_flat. exact Hc.
Qed.

End FlatBlock.

Lemma processAngleBlocks_flat_block_witness :
  forallb (is_not QUOTE) (u "intro ") = true
  /\ u "box" <> []
  /\ forallb (is_not QUOTE) (u "box") = true
  /\ forallb (is_not LANGLE) (u "hello") = true
  /\ processAllBlocks paragraph_bridge 1 (u "hello") = Some (u "hello", [])
  /\ processAngleBlocks paragraph_bridge (processAllBlocks paragraph_bridge 1)
       (u "intro " ++ OPEN_MARK ++ u "box" ++ QUOTE :: u "hello" ++ CLOSE_MARK ++ u "! rest")
     = Some (u "intro "
               ++ (DIV_CLASS ++ trim (u "box") ++ [DQUOTE; GT]
                     ++ paragraph_bridge (u "hello") ++ DIV_CLOSE)
               ++ skipn 1 (u "! rest"),
             [] ++ [u "hello"]).
Proof.
  split; [reflexivity|]. split; [discriminate|]. split; [reflexivity|].
  split; [reflexivity|]. split; [reflexivity|].
  apply (processAngleBlocks_flat_block paragraph_bridge
           (processAllBlocks paragraph_bridge 1)
           (u "intro ") (u "box") (u "hello") (u "! rest") (u "hello") []).
  - reflexivity.
  - discriminate.
  - reflexivity.
  - reflexivity.
  - reflexivity.
Defined.

(** ** Block processor: sibling blocks and the limit of twenty passes *)

Lemma forallb_trim (f : cu -> bool) (s : str) :
  forallb f s = true -> forallb f (trim s) = true.
Proof.
  intros H. destruct (trim_decomp s) as (a & b & E & _ & _).
  rewrite E, !forallb_app in H.
  apply andb_true_iff in H as [_ H]. apply andb_true_iff in H as [H _]. exact H.
Qed.

Lemma forallb_skipn {A} (f : A -> bool) (n : nat) (l : list A) :
  forallb f l = true -> forallb f (skipn n l) = true.
Proof.
  intros H. rewrite <- (firstn_skipn n l), forallb_app in H.
  apply andb_true_iff in H. apply H.
Qed.

Lemma forallb_firstn {A} (f : A -> bool) (n : nat) (l : list A) :
  forallb f l = true -> forallb f (firstn n l) = true.
Proof.
  intros H. rewrite <- (firstn_skipn n l), forallb_app in H.
  apply andb_true_iff in H. apply H.
Qed.

Lemma no_quote_no_occurs (s : str) :
  forallb (is_not QUOTE) s = true -> ~ occurs OPEN_MARK s.
Proof.
  intros H [a [b E]]. rewrite E, !forallb_app in H.
  apply andb_true_iff in H as [_ H]. apply andb_true_iff in H as [H _].
  discriminate H.
Qed.

Lemma no_langle_no_occurs (s : str) :
  forallb (is_not LANGLE) s = true -> ~ occurs OPEN_MARK s.
Proof.
  intros H [a [b E]]. rewrite E, !forallb_app in H.
  apply andb_true_iff in H as [_ H]. apply andb_true_iff in H as [H _].
  discriminate H.
Qed.

Lemma written_app (b : sibling) (rest : str) :
  written b ++ rest
  = OPEN_MARK ++ s_class b ++ QUOTE :: s_content b ++ CLOSE_MARK
      ++ (s_after b ++ rest).
Proof.
  unfold written. rewrite <- !app_assoc. cbn [app]. rewrite <- !app_assoc.
  reflexivity.
Qed.

Lemma siblings_head (bs : list sibling) :
  nth_error (concat (map written bs)) 0 <> Some QUOTE
  /\ nth_error (concat (map written bs)) 1 <> Some QUOTE.
Proof.
  destruct bs as [|b bs]; [split; discriminate|].
  cbn [map concat]. rewrite written_app. split; discriminate.
Qed.

Section Siblings.

Variable marked_parse : str -> str.

Lemma flat_parts (b : sibling) :
  flat marked_parse b = true ->
  s_class b <> [] /\ forallb (is_not QUOTE) (s_class b) = true
  /\ forallb (is_not TICK) (s_class b) = true
  /\ (forallb (is_not LANGLE) (s_content b) = true
      /\ forallb (is_not QUOTE) (s_content b) = true
      /\ forallb (is_not TICK) (s_content b) = true)
  /\ s_after b <> []
  /\ (forallb (is_not LANGLE) (s_after b) = true
      /\ forallb (is_not QUOTE) (s_after b) = true
      /\ forallb (is_not TICK) (s_after b) = true)
  /\ forallb (is_not QUOTE) (marked_parse (s_content b)) = true.
Proof.
  unfold flat, plain. rewrite !andb_true_iff, !negb_true_iff.
  intros [[[[[[H1 H2] H3] [[H4 H5] H6]] H7] [[H8 H9] H10]] H11].
  repeat split; try assumption.
  - intros E. rewrite E in H1. discriminate.
  - intros E. rewrite E in H7. discriminate.
Qed.

Lemma resolved_no_quote (b : sibling) :
  flat marked_parse b = true ->
  forallb (is_not QUOTE) (resolved marked_parse b) = true.
Proof.
  intros H. apply flat_parts in H
    as (_ & Hq & _ & _ & _ & (_ & Ha & _) & Hm).
  unfold resolved, container. rewrite !forallb_app.
  rewrite (forallb_trim _ _ Hq), Hm, (forallb_skipn _ 1 _ Ha). reflexivity.
Qed.

Lemma resolved_all_no_quote (bs : list sibling) :
  forallb (flat marked_parse) bs = true ->
  forallb (is_not QUOTE) (concat (map (resolved marked_parse) bs)) = true.
Proof.
  induction bs as [|b bs IH]; intros H; [reflexivity|].
  cbn [forallb] in H. apply andb_true_iff in H as [Hb Hbs].
  cbn [map concat]. rewrite forallb_app, (resolved_no_quote b Hb), IH by exact Hbs.
  reflexivity.
Qed.

Lemma written_no_tick (bs : list sibling) :
  forallb (flat marked_parse) bs = true ->
  forallb (is_not TICK) (concat (map written bs)) = true.
Proof.
  induction bs as [|b bs IH]; intros H; [reflexivity|].
  cbn [forallb] in H. apply andb_true_iff in H as [Hb Hbs].
  apply flat_parts in Hb as (_ & _ & Ht & (_ & _ & Hc) & _ & (_ & _ & Ha) & _).
  cbn [map concat]. rewrite forallb_app, IH by exact Hbs.
  unfold written. rewrite !forallb_app. cbn [forallb].
  rewrite !forallb_app, Ht, Hc, Ha. reflexivity.
Qed.

(** The content of a flat block has nothing to resolve. *)
Lemma processAllBlocks_plain_content (fuel : nat) (content : str) :
  forallb (is_not LANGLE) content = true ->
  forallb (is_not TICK) content = true ->
  processAllBlocks marked_parse (S fuel) content = Some (content, []).
Proof.
  intros Hl Ht. rewrite processAllBlocks_no_marker
    by (apply no_langle_no_occurs; exact Hl).
  rewrite restore_protect_no_tick by exact Ht. reflexivity.
Qed.

(** The loop of [processAllBlocks] on sibling blocks: one block is
    resolved per pass. *)
Lemma passes_siblings (fuel : nat) :
  forall (n : nat) (bs : list sibling) (D : str),
    forallb (is_not QUOTE) D = true ->
    forallb (flat marked_parse) bs = true ->
    passes (processAngleBlocks marked_parse (processAllBlocks marked_parse (S fuel)))
      n (D ++ concat (map written bs))
    = Some (D ++ concat (map (resolved marked_parse) (firstn n bs))
              ++ concat (map written (skipn n bs)),
            map s_content (firstn n bs)).
Proof.
  induction n as [|n IH]; intros bs D HD Hbs.
  - reflexivity.
  - destruct bs as [|b bs].
    + cbn [map concat firstn skipn app]. rewrite app_nil_r.
      apply passes_fixpoint, processAngleBlocks_no_opener, no_quote_no_occurs, HD.
    + cbn [forallb] in Hbs. apply andb_true_iff in Hbs as [Hb Hbs].
      pose proof (resolved_no_quote b Hb) as Hrq.
      apply flat_parts in Hb
        as (Hne & Hq & _ & (Hcl & _ & Hct) & Hane & _ & _).
      cbn [map concat firstn skipn].
      set (W := concat (map written bs)).
      assert (Hpass :
        processAngleBlocks marked_parse (processAllBlocks marked_parse (S fuel))
          (D ++ written b ++ W)
        = Some ((D ++ resolved marked_parse b) ++ W, [] ++ [s_content b])).
      { rewrite written_app.
        rewrite (processAngleBlocks_flat marked_parse _ D (s_class b) (s_content b)
                   (s_after b ++ W) (s_content b) []); try assumption.
        - f_equal. f_equal. unfold resolved, container. rewrite <- !app_assoc.
          do 6 f_equal. destruct (s_after b); [congruence | reflexivity].
        - apply processAllBlocks_plain_content; assumption. }
      assert (Hdiff : str_eqb ((D ++ resolved marked_parse b) ++ W)
                        (D ++ written b ++ W) = false).
      { destruct (str_eqb _ _) eqn:E; [|reflexivity]. exfalso.
        apply str_eqb_eq in E. rewrite <- app_assoc in E.
        apply app_inv_head in E.
        apply (f_equal (fun s => nth_error s 1)) in E.
        rewrite written_app in E. unfold resolved, container in E.
        rewrite <- !app_assoc in E. discriminate E. }
      specialize (IH bs (D ++ resolved marked_parse b)).
      rewrite forallb_app, HD, Hrq in IH. specialize (IH eq_refl Hbs).
      subst W. cbn [passes].
      refine (bind_some _ _ _ _ _ _ Hpass _).
      rewrite Hdiff, IH, <- !app_assoc. reflexivity.
Qed.

(** The clean-up on blocks that the loop has left. *)
Lemma lazy_stop_prefix (p r : str) :
  forallb (is_not LANGLE) p = true -> starts CLOSE_MARK r = true ->
  lazy_stop (p ++ r) = length p.
Proof.
  intros Hp Hr. induction p as [|c p IH].
  - cbn [app length]. destruct r as [|x r]; [discriminate|].
    cbn [lazy_stop]. rewrite Hr, orb_true_r. reflexivity.
  - cbn [forallb] in Hp. apply andb_true_iff in Hp as [Hc Hp].
    cbn [app length lazy_stop].
    unfold is_not in Hc. apply negb_true_iff in Hc.
    assert (Ho : starts OPEN_MARK (c :: p ++ r) = false).
    { change (N.eqb 60 c && starts (u ">'") (p ++ r) = false).
      rewrite N.eqb_sym. unfold LANGLE in Hc. rewrite Hc. reflexivity. }
    assert (Hcl : starts CLOSE_MARK (c :: p ++ r) = false).
    { change (N.eqb 60 c && starts (u "/>") (p ++ r) = false).
      rewrite N.eqb_sym. unfold LANGLE in Hc. rewrite Hc. reflexivity. }
    rewrite Ho, Hcl. cbn [orb]. rewrite IH by exact Hp. reflexivity.
Qed.

Lemma re_unprocessed_at (cls content rest : str) :
  forallb (is_not QUOTE) cls = true ->
  forallb (is_not LANGLE) content = true ->
  re_unprocessed (OPEN_MARK ++ cls ++ QUOTE :: content ++ CLOSE_MARK ++ rest)
  = Some (length ((OPEN_MARK ++ cls ++ [QUOTE]) ++ content)).
Proof.
  intros Hq Hc. unfold re_unprocessed, re_open_any.
  rewrite m_until_eval by exact Hq. cbn [Nat.leb].
  rewrite <- opener_length, (opener_assoc cls (content ++ CLOSE_MARK ++ rest)).
  rewrite skipn_exact.
  rewrite lazy_stop_prefix; [| exact Hc | reflexivity].
  rewrite (length_app (OPEN_MARK ++ cls ++ [QUOTE]) content). reflexivity.
Qed.

Lemma re_unprocessed_before (p r : str) :
  forallb (is_not QUOTE) p = true ->
  nth_error r 0 <> Some QUOTE -> nth_error r 1 <> Some QUOTE ->
  forall j, (j < length p)%nat -> re_unprocessed (skipn j (p ++ r)) = None.
Proof.
  intros Hp H0 H1 j Hj. unfold re_unprocessed, re_open_any.
  rewrite m_until_not_starts; [reflexivity|].
  apply no_quote_no_opener; assumption.
Qed.

Lemma unprocessed_siblings (bs : list sibling) :
  forallb (flat marked_parse) bs = true ->
  remove_all re_unprocessed (concat (map written bs))
  = concat (map (fun b => CLOSE_MARK ++ s_after b) bs).
Proof.
  unfold remove_all.
  induction bs as [|b bs IH]; intros H; [reflexivity|].
  cbn [forallb] in H. apply andb_true_iff in H as [Hb Hbs].
  apply flat_parts in Hb
    as (Hne & Hq & _ & (Hcl & _ & _) & _ & (_ & Haq & _) & _).
  cbn [map concat]. rewrite written_app.
  rewrite (replace_fn_match _ _ _ _ (re_unprocessed_at _ _ _ Hq Hcl));
    [| rewrite !length_app; simpl; lia | discriminate].
  rewrite (opener_assoc (s_class b)
             (s_content b ++ CLOSE_MARK ++ s_after b ++ concat (map written bs))).
  rewrite (app_assoc (OPEN_MARK ++ s_class b ++ [QUOTE]) (s_content b)).
  rewrite skipn_exact. cbn [app].
  rewrite (app_assoc CLOSE_MARK (s_after b)).
  rewrite replace_fn_prefix.
  - rewrite IH by exact Hbs. rewrite <- app_assoc. reflexivity.
  - apply re_unprocessed_before; [| apply siblings_head | apply siblings_head].
    rewrite forallb_app, Haq. reflexivity.
Qed.

(** A closing marker cannot run from one text into the next when the
    next is empty or starts with [<]. *)
Lemma re_close_boundary (x b : str) :
  x <> [] -> (b = [] \/ exists b', b = LANGLE :: b') ->
  re_close (x ++ b) = re_close x.
Proof.
  intros Hx Hb. unfold re_close.
  replace (starts CLOSE_MARK (x ++ b)) with (starts CLOSE_MARK x); [reflexivity|].
  destruct Hb as [->|[b' ->]]; [rewrite app_nil_r; reflexivity|].
  destruct x as [|c1 [|c2 [|c3 x]]]; [congruence | | |].
  - change (N.eqb 60 c1 && false = N.eqb 60 c1 && (false && starts [GT] b')).
    reflexivity.
  - change (N.eqb 60 c1 && (N.eqb 47 c2 && false)
            = N.eqb 60 c1 && (N.eqb 47 c2 && (false && true))).
    reflexivity.
  - reflexivity.
Qed.

Lemma replace_close_app (g : str -> str) (b : str) :
  (b = [] \/ exists b', b = LANGLE :: b') ->
  forall (a : str) (skip : nat), (skip <= length a)%nat ->
    fst (replace_from re_close (fun (st : unit) mt => (g mt, st)) skip (a ++ b) tt)
    = fst (replace_from re_close (fun (st : unit) mt => (g mt, st)) skip a tt)
        ++ fst (replace_from re_close (fun (st : unit) mt => (g mt, st)) O b tt).
Proof.
  intros Hb. induction a as [|c a IH]; intros skip Hs.
  - destruct skip; [|simpl in Hs; lia]. reflexivity.
  - cbn [app replace_from]. destruct skip as [|k].
    + change (c :: a ++ b) with ((c :: a) ++ b).
      rewrite (re_close_boundary (c :: a) b) by (discriminate || exact Hb).
      destruct (re_close (c :: a)) as [n|] eqn:E.
      * assert (Hn : n = 3%nat /\ (3 <= length (c :: a))%nat).
        { unfold re_close in E.
          destruct (starts CLOSE_MARK (c :: a)) eqn:Es; [|discriminate].
          injection E as <-. split; [reflexivity|].
          apply starts_iff in Es as [t ->]. rewrite length_app. simpl. lia. }
        destruct Hn as [-> Hlen]. cbn [pred].
        rewrite firstn_app.
        replace (3 - length (c :: a))%nat with O by lia.
        cbn [firstn]. rewrite app_nil_r.
        specialize (IH 2%nat ltac:(simpl in Hlen; lia)).
        destruct (replace_from re_close _ 2 (a ++ b) tt) as [o1 []].
        destruct (replace_from re_close _ 2 a tt) as [o2 []].
        cbn [fst] in *. rewrite IH, app_assoc. reflexivity.
      * specialize (IH O ltac:(lia)).
        destruct (replace_from re_close _ 0 (a ++ b) tt) as [o1 []].
        destruct (replace_from re_close _ 0 a tt) as [o2 []].
        cbn [fst] in *. rewrite IH. reflexivity.
    + apply IH. simpl in Hs. lia.
Qed.

Lemma remove_close_app (a b : str) :
  (b = [] \/ exists b', b = LANGLE :: b') ->
  remove_all re_close (a ++ b) = remove_all re_close a ++ remove_all re_close b.
Proof.
  intros Hb. unfold remove_all, replace_fn.
  apply replace_close_app; [exact Hb | lia].
Qed.

Lemma closers_removed (bs : list sibling) :
  forallb (flat marked_parse) bs = true ->
  remove_all re_close (concat (map (fun b => CLOSE_MARK ++ s_after b) bs))
  = concat (map s_after bs).
Proof.
  unfold remove_all.
  induction bs as [|b bs IH]; intros H; [reflexivity|].
  cbn [forallb] in H. apply andb_true_iff in H as [Hb Hbs].
  apply flat_parts in Hb as (_ & _ & _ & _ & _ & (Hal & _ & _) & _).
  cbn [map concat]. rewrite <- !app_assoc.
  set (X := concat (map (fun b0 => CLOSE_MARK ++ s_after b0) bs)) in *.
  rewrite (replace_fn_match re_close _ _ 3); [| reflexivity | lia | discriminate].
  change (skipn 3 (CLOSE_MARK ++ s_after b ++ X)) with (s_after b ++ X).
  cbn [app].
  rewrite replace_fn_prefix.
  - rewrite IH by exact Hbs. reflexivity.
  - apply (no_head_no_match LANGLE); [apply re_close_heads | exact Hal].
Qed.

End Siblings.

Section SiblingBlocks.

Variable marked_parse : str -> str.

Lemma removeUnprocessed_siblings (D : str) (bs : list sibling) :
  forallb (is_not QUOTE) D = true ->
  forallb (flat marked_parse) bs = true -> bs <> [] ->
  removeUnprocessed (D ++ concat (map written bs))
  = remove_all re_close D ++ concat (map s_after bs).
Proof.
  intros HD Hbs Hne. unfold removeUnprocessed.
  assert (Hin : includes OPEN_MARK (D ++ concat (map written bs)) = true).
  { apply includes_occurs. destruct bs as [|b bs]; [congruence|].
    cbn [map concat]. rewrite written_app. eexists D, _. reflexivity. }
  rewrite Hin.
  assert (E1 : remove_all re_unprocessed (D ++ concat (map written bs))
               = D ++ concat (map (fun b => CLOSE_MARK ++ s_after b) bs)).
  { unfold remove_all. rewrite replace_fn_prefix.
    - f_equal. apply (unprocessed_siblings marked_parse). exact Hbs.
    - apply re_unprocessed_before;
        [exact HD | apply siblings_head | apply siblings_head]. }
  cbv zeta. rewrite E1. rewrite remove_close_app.
  - rewrite (closers_removed marked_parse) by exact Hbs. reflexivity.
  - right. destruct bs as [|b bs]; [congruence|].
    cbn [map concat]. eexists. reflexivity.
Qed.

Lemma processAllBlocks_unfold (fuel : nat) (text : str) :
  processAllBlocks marked_parse (S fuel) text
  = (result <- passes (processAngleBlocks marked_parse
                         (processAllBlocks marked_parse fuel))
                 maxIterations (fst (protectCodeBlocks text)) ;;
     ret (restoreCodeBlocks (removeUnprocessed result)
            (snd (protectCodeBlocks text)))).
Proof.
  cbn [processAllBlocks]. destruct (protectCodeBlocks text). reflexivity.
Qed.

(** One flat block behind plain text. *)
Lemma processAllBlocks_one_sibling (fuel : nat) (pre : str) (b : sibling) :
  plain pre = true -> flat marked_parse b = true ->
  processAllBlocks marked_parse (S (S fuel)) (pre ++ written b)
  = Some (pre ++ resolved marked_parse b, [s_content b]).
Proof.
  intros Hpre Hb. unfold plain in Hpre. rewrite !andb_true_iff in Hpre.
  destruct Hpre as [[Hlp Hqp] Htp].
  assert (H : forallb (flat marked_parse) [b] = true)
    by (cbn [forallb]; rewrite Hb; reflexivity).
  pose proof (passes_siblings marked_parse fuel 20 [b] pre Hqp H) as Hp.
  pose proof (written_no_tick marked_parse [b] H) as Hwt.
  pose proof (resolved_all_no_quote marked_parse [b] H) as Hrq.
  cbn [map concat firstn skipn] in Hp, Hwt, Hrq.
  rewrite ?app_nil_r in Hp. rewrite ?app_nil_r in Hwt. rewrite ?app_nil_r in Hrq.
  rewrite processAllBlocks_unfold.
  rewrite protectCodeBlocks_no_tick by (rewrite forallb_app, Htp; exact Hwt).
  cbn [fst snd]. unfold maxIterations. rewrite Hp. cbn [bind ret app].
  rewrite restoreCodeBlocks_empty_table. unfold removeUnprocessed.
  rewrite (proj2 (includes_false OPEN_MARK _)); [reflexivity|].
  apply no_quote_no_occurs. rewrite forallb_app, Hqp. exact Hrq.
Qed.

(** X11.  The loop of [processAllBlocks] resolves one block per pass and makes
    at most twenty passes.  A document of flat sibling blocks behind
    plain text is resolved block by block when it has at most twenty of
    them.  When it has more, the first twenty are resolved; of every later
    block only the text behind its closing marker is kept: its class list
    and its content are removed from the output, and the Bridge never sees
    them. *)
Theorem processAllBlocks_sibling_blocks
  (fuel : nat) (pre : str) (bs : list sibling) :
  plain pre = true ->
  forallb (flat marked_parse) bs = true ->
  processAllBlocks marked_parse (S (S fuel)) (pre ++ concat (map written bs))
  = Some (if (length bs <=? 20)%nat
          then pre ++ concat (map (resolved marked_parse) bs)
          else pre
               ++ remove_all re_close
                    (concat (map (resolved marked_parse) (firstn 20 bs)))
               ++ concat (map s_after (skipn 20 bs)),
          map s_content (firstn 20 bs)).
Proof.
  intros Hpre H. unfold plain in Hpre. rewrite !andb_true_iff in Hpre.
  destruct Hpre as [[Hlp Hqp] Htp].
  pose proof (passes_siblings marked_parse fuel 20 bs pre Hqp H) as Hp.
  rewrite processAllBlocks_unfold.
  rewrite protectCodeBlocks_no_tick
    by (rewrite forallb_app, Htp; apply (written_no_tick marked_parse); exact H).
  cbn [fst snd]. unfold maxIterations. rewrite Hp. cbn [bind ret].
  rewrite app_nil_r, restoreCodeBlocks_empty_table. f_equal. f_equal.
  destruct (Nat.leb_spec (length bs) 20) as [Hl|Hl].
  - rewrite skipn_all2, firstn_all2 by lia. cbn [map concat]. rewrite app_nil_r.
    unfold removeUnprocessed.
    rewrite (proj2 (includes_false OPEN_MARK _)); [reflexivity|].
    apply no_quote_no_occurs. rewrite forallb_app, Hqp.
    apply resolved_all_no_quote. exact H.
  - rewrite app_assoc. rewrite removeUnprocessed_siblings.
    + unfold remove_all. rewrite replace_fn_prefix, <- app_assoc; [reflexivity|].
      apply (no_head_no_match LANGLE); [apply re_close_heads | exact Hlp].
    + rewrite forallb_app, Hqp. apply resolved_all_no_quote, forallb_firstn. exact H.
    + apply forallb_skipn. exact H.
    + intros E. apply (f_equal (@length sibling)) in E.
      rewrite length_skipn in E. simpl in E. lia.
Qed.

End SiblingBlocks.

Lemma processAllBlocks_sibling_blocks_witness :
  plain (u "intro ") = true
  /\ forallb (flat paragraph_bridge)
       (repeat {| s_class := u "box"; s_content := u "text"; s_after := u "!" |} 21)
     = true
  /\ processAllBlocks paragraph_bridge 2
       (u "intro " ++ concat (map written
          (repeat {| s_class := u "box"; s_content := u "text"; s_after := u "!" |} 21)))
     = Some (if (length (repeat {| s_class := u "box"; s_content := u "text";
                                   s_after := u "!" |} 21) <=? 20)%nat
             then u "intro " ++ concat (map (resolved paragraph_bridge)
                    (repeat {| s_class := u "box"; s_content := u "text";
                               s_after := u "!" |} 21))
             else u "intro "
                  ++ remove_all re_close
                    (concat (map (resolved paragraph_bridge)
                       (firstn 20
                          (repeat {| s_class := u "box"; s_content := u "text";
                                     s_after := u "!" |} 21))))
                  ++ concat (map s_after
                       (skipn 20
                          (repeat {| s_class := u "box"; s_content := u "text";
                                     s_after := u "!" |} 21))),
             map s_content
               (firstn 20
                  (repeat {| s_class := u "box"; s_content := u "text";
                             s_after := u "!" |} 21))).
Proof.
  split; [reflexivity|]. split; [reflexivity|].
  apply (processAllBlocks_sibling_blocks paragraph_bridge 0 (u "intro ")
           (repeat {| s_class := u "box"; s_content := u "text"; s_after := u "!" |} 21));
    reflexivity.
Defined.

(** ** Final pass: the end of a container *)

(** X12.  [findMatchingDivEnd] returns on every text and from every start
    index.  What it returns is [-1] or the index of a closing tag [</div>]
    that is not before the start index. *)
Theorem findMatchingDivEnd_result (text : str) (startIndex : Z) :
  exists r, findMatchingDivEnd text startIndex = Some r
    /\ (r = -1
        \/ (startIndex <= r /\ 0 <= r
            /\ starts DIV_CLOSE (skipn (Z.to_nat r) text) = true)).
Proof.
  destruct (findMatchingDivEnd_total text startIndex) as [r Hr].
  exists r. split; [exact Hr|]. revert Hr. unfold findMatchingDivEnd.
  apply (while_loop_inv (divEnd_body text)
           (fun st => startIndex <= fst st)
           (fun r => r = -1
                     \/ (startIndex <= r /\ 0 <= r
                         /\ starts DIV_CLOSE (skipn (Z.to_nat r) text) = true))).
  - intros [i d] [i' d'] Hi H. apply divEnd_body_progress in H. simpl in *. lia.
  - intros [i d] r' Hi. simpl in Hi. unfold divEnd_body.
    destruct (Z.ltb_spec i (len text)) as [Hl|]; [|intros [= <-]; auto].
    destruct (Z.eqb_spec (indexOf DIV_OPEN text i) (-1)) as [E1|E1];
      destruct (Z.eqb_spec (indexOf DIV_CLOSE text i) (-1)) as [E2|E2];
      cbn [andb orb negb]; try (intros [= <-]; auto; fail); try discriminate.
    + destruct (_ =? 0); [|discriminate]. intros [= <-].
      destruct (indexOf_found _ _ _ _ eq_refl E2 ltac:(lia)) as (H0 & H1 & _ & H3).
      right. split; [lia|]. split; [exact H0 | exact H3].
    + destruct (_ <? _); [discriminate|].
      destruct (_ =? 0); [|discriminate]. intros [= <-].
      destruct (indexOf_found _ _ _ _ eq_refl E2 ltac:(lia)) as (H0 & H1 & _ & H3).
      right. split; [lia|]. split; [exact H0 | exact H3].
  - simpl. lia.
Qed.

(** ** Block processor: a nested block closed right before its parent *)

Lemma next_token_split (P rest : str) :
  next_token (P ++ rest) (len P)
  = match search re_open_any rest, search re_close rest with
    | Some o, Some c =>
        if (o <? c)%nat
        then Opener (len P + Z.of_nat o) (first_match_len re_open_any rest)
        else Closer (len P + Z.of_nat c)
    | Some o, None => Opener (len P + Z.of_nat o) (first_match_len re_open_any rest)
    | None, Some c => Closer (len P + Z.of_nat c)
    | None, None => NoToken
    end.
Proof.
  unfold next_token. rewrite substring_from_nonneg by apply len_nonneg.
  replace (Z.to_nat (len P)) with (length P) by (unfold len; lia).
  rewrite skipn_exact. reflexivity.
Qed.

Lemma no_quote_no_open_any (s : str) :
  forallb (is_not QUOTE) s = true -> search re_open_any s = None.
Proof.
  intros H. apply search_none_intro. intros j. apply m_until_not_starts.
  apply not_occurs_starts, no_quote_no_occurs, H.
Qed.

Lemma no_langle_no_close (s : str) :
  forallb (is_not LANGLE) s = true -> search re_close s = None.
Proof.
  intros H. apply search_none_intro.
  apply (no_head_no_match_all LANGLE); [apply re_close_heads | exact H].
Qed.

(** The first token behind plain text that an opening marker follows. *)
Lemma next_token_opener_first (P c1 cls rest : str) :
  forallb (is_not LANGLE) c1 = true ->
  forallb (is_not QUOTE) cls = true ->
  next_token (P ++ c1 ++ OPEN_MARK ++ cls ++ QUOTE :: rest) (len P)
  = Opener (len P + len c1) (len (OPEN_MARK ++ cls ++ [QUOTE])).
Proof.
  intros Hc Hq. rewrite next_token_split.
  assert (Hm : re_open_any (OPEN_MARK ++ cls ++ QUOTE :: rest)
               = Some (length (OPEN_MARK ++ cls ++ [QUOTE]))).
  { unfold re_open_any. rewrite m_until_eval by exact Hq.
    cbn [Nat.leb]. rewrite opener_length. reflexivity. }
  assert (So : search re_open_any (c1 ++ OPEN_MARK ++ cls ++ QUOTE :: rest)
               = Some (length c1)).
  { eapply search_at; [|exact Hm].
    apply (no_head_no_match LANGLE); [apply re_open_any_heads | exact Hc]. }
  assert (Hlen : first_match_len re_open_any (c1 ++ OPEN_MARK ++ cls ++ QUOTE :: rest)
                 = len (OPEN_MARK ++ cls ++ [QUOTE])).
  { unfold first_match_len. rewrite So, skipn_exact, Hm. reflexivity. }
  rewrite So, Hlen.
  destruct (search re_close (c1 ++ OPEN_MARK ++ cls ++ QUOTE :: rest)) as [c|] eqn:Sc;
    [|reflexivity].
  apply search_behind in Sc.
  - destruct (Nat.ltb_spec (length c1) c) as [_|Hge]; [reflexivity | lia].
  - intros j Hj. destruct (Nat.eq_dec j (length c1)) as [->|Hne].
    + rewrite skipn_exact. reflexivity.
    + apply (no_head_no_match LANGLE); [apply re_close_heads | exact Hc | lia].
Qed.

(** The first token behind plain text that a closing marker follows,
    when no opening marker comes later. *)
Lemma next_token_closer_first (P c2 rest : str) :
  forallb (is_not LANGLE) c2 = true ->
  forallb (is_not QUOTE) (c2 ++ CLOSE_MARK ++ rest) = true ->
  next_token (P ++ c2 ++ CLOSE_MARK ++ rest) (len P) = Closer (len P + len c2).
Proof.
  intros Hc Hq. rewrite next_token_split.
  rewrite (no_quote_no_open_any _ Hq).
  rewrite (search_at re_close c2 (CLOSE_MARK ++ rest) 3);
    [reflexivity | | reflexivity].
  apply (no_head_no_match LANGLE); [apply re_close_heads | exact Hc].
Qed.

Lemma next_token_nothing (P rest : str) :
  forallb (is_not LANGLE) rest = true ->
  forallb (is_not QUOTE) rest = true ->
  next_token (P ++ rest) (len P) = NoToken.
Proof.
  intros Hl Hq. rewrite next_token_split.
  rewrite (no_quote_no_open_any _ Hq), (no_langle_no_close _ Hl). reflexivity.
Qed.

Lemma lazy_stop_upto (p r : str) :
  forallb (is_not LANGLE) p = true ->
  starts OPEN_MARK r || starts CLOSE_MARK r = true ->
  lazy_stop (p ++ r) = length p.
Proof.
  intros Hp Hr. induction p as [|c p IH].
  - cbn [app length]. destruct r as [|x r]; [discriminate|].
    cbn [lazy_stop]. rewrite Hr. reflexivity.
  - cbn [forallb] in Hp. apply andb_true_iff in Hp as [Hc Hp].
    cbn [app length lazy_stop].
    unfold is_not in Hc. apply negb_true_iff in Hc.
    assert (Ho : starts OPEN_MARK (c :: p ++ r) = false).
    { change (N.eqb 60 c && starts (u ">'") (p ++ r) = false).
      rewrite N.eqb_sym. unfold LANGLE in Hc. rewrite Hc. reflexivity. }
    assert (Hcl : starts CLOSE_MARK (c :: p ++ r) = false).
    { change (N.eqb 60 c && starts (u "/>") (p ++ r) = false).
      rewrite N.eqb_sym. unfold LANGLE in Hc. rewrite Hc. reflexivity. }
    rewrite Ho, Hcl. cbn [orb]. rewrite IH by exact Hp. reflexivity.
Qed.

Lemma re_unprocessed_upto (cls content r : str) :
  forallb (is_not QUOTE) cls = true ->
  forallb (is_not LANGLE) content = true ->
  starts OPEN_MARK r || starts CLOSE_MARK r = true ->
  re_unprocessed (OPEN_MARK ++ cls ++ QUOTE :: content ++ r)
  = Some (length ((OPEN_MARK ++ cls ++ [QUOTE]) ++ content)).
Proof.
  intros Hq Hc Hr. unfold re_unprocessed, re_open_any.
  rewrite m_until_eval by exact Hq. cbn [Nat.leb].
  rewrite <- opener_length, (opener_assoc cls (content ++ r)).
  rewrite skipn_exact.
  rewrite lazy_stop_upto by assumption.
  rewrite (length_app (OPEN_MARK ++ cls ++ [QUOTE]) content). reflexivity.
Qed.

(** Removing an unresolved opening marker with the content behind it. *)
Lemma remove_unprocessed_block (cls content r : str) :
  forallb (is_not QUOTE) cls = true ->
  forallb (is_not LANGLE) content = true ->
  starts OPEN_MARK r || starts CLOSE_MARK r = true ->
  remove_all re_unprocessed (OPEN_MARK ++ cls ++ QUOTE :: content ++ r)
  = remove_all re_unprocessed r.
Proof.
  intros Hq Hc Hr. unfold remove_all.
  rewrite (replace_fn_match _ _ _ _ (re_unprocessed_upto _ _ _ Hq Hc Hr));
    [| rewrite !length_app; simpl; lia | discriminate].
  rewrite (opener_assoc cls (content ++ r)).
  rewrite (app_assoc (OPEN_MARK ++ cls ++ [QUOTE]) content).
  rewrite skipn_exact. reflexivity.
Qed.

Lemma remove_close_head (r : str) :
  remove_all re_close (CLOSE_MARK ++ r) = remove_all re_close r.
Proof.
  unfold remove_all.
  rewrite (replace_fn_match re_close _ _ 3); [| reflexivity | lia | discriminate].
  reflexivity.
Qed.

Section AdjacentClosers.

Variable marked_parse : str -> str.
Variable rec : str -> M str.

Lemma plain_parts (s : str) :
  plain s = true ->
  forallb (is_not LANGLE) s = true /\ forallb (is_not QUOTE) s = true
  /\ forallb (is_not TICK) s = true.
Proof.
  unfold plain. rewrite !andb_true_iff. intros [[H1 H2] H3]. auto.
Qed.

Lemma findMatchingClosingTag_adjacent (pre clsA c1 clsB c2 tail : str) :
  forallb (is_not QUOTE) clsB = true ->
  plain c1 = true -> plain c2 = true -> plain tail = true ->
  findMatchingClosingTag
    (pre ++ OPEN_MARK ++ clsA ++ QUOTE :: c1 ++ OPEN_MARK ++ clsB ++ QUOTE :: c2
       ++ CLOSE_MARK ++ CLOSE_MARK ++ tail)
    (len pre) (OPEN_MARK ++ clsA ++ [QUOTE])
  = Some (-1).
Proof.
  intros HqB H1 H2 Ht.
  apply plain_parts in H1 as (Hl1 & Hq1 & _).
  apply plain_parts in H2 as (Hl2 & Hq2 & _).
  apply plain_parts in Ht as (Hlt & Hqt & _).
  set (opA := OPEN_MARK ++ clsA ++ [QUOTE]).
  set (opB := OPEN_MARK ++ clsB ++ [QUOTE]).
  set (P0 := pre ++ opA).
  set (P1 := P0 ++ c1 ++ opB).
  set (P2 := P1 ++ c2 ++ CLOSE_MARK ++ [LANGLE]).
  set (text := pre ++ OPEN_MARK ++ clsA ++ QUOTE :: c1 ++ OPEN_MARK ++ clsB
                 ++ QUOTE :: c2 ++ CLOSE_MARK ++ CLOSE_MARK ++ tail).
  assert (E0 : text = P0 ++ c1 ++ OPEN_MARK ++ clsB ++ QUOTE :: c2
                        ++ CLOSE_MARK ++ CLOSE_MARK ++ tail).
  { unfold text, P0, opA. rewrite <- !app_assoc. reflexivity. }
  assert (E1 : text = P1 ++ c2 ++ CLOSE_MARK ++ CLOSE_MARK ++ tail).
  { rewrite E0. unfold P1, opB. rewrite <- !app_assoc. reflexivity. }
  assert (E2 : text = P2 ++ u "/>" ++ tail).
  { rewrite E1. unfold P2. rewrite <- !app_assoc. reflexivity. }
  assert (L0 : len pre + len opA = len P0) by (unfold P0; rewrite len_app; reflexivity).
  assert (L1 : len P0 + len c1 + len opB = len P1)
    by (unfold P1; rewrite !len_app; lia).
  assert (L2 : len P1 + len c2 + 4 = len P2)
    by (unfold P2; rewrite !len_app; change (len CLOSE_MARK) with 3;
        change (len [LANGLE]) with 1; lia).
  assert (Lt : len text = len P2 + 2 + len tail)
    by (rewrite E2, !len_app; change (len (u "/>")) with 2; lia).
  pose proof (len_nonneg pre). pose proof (len_nonneg opA).
  pose proof (len_nonneg c1). pose proof (len_nonneg opB).
  pose proof (len_nonneg c2). pose proof (len_nonneg tail).
  assert (S0 : closingTag_body text (len P0, 1) = Some (Next (len P1, 2))).
  { rewrite closingTag_body_token.
    destruct (Z.ltb_spec (len P0) (len text)) as [_|]; [|lia]. cbn [andb Z.ltb].
    change (0 <? 1) with true. cbv iota.
    rewrite E0 at 1. rewrite next_token_opener_first by assumption.
    fold opB. do 3 f_equal. exact L1. }
  assert (S1 : closingTag_body text (len P1, 2) = Some (Next (len P2, 1))).
  { rewrite closingTag_body_token.
    destruct (Z.ltb_spec (len P1) (len text)) as [_|]; [|lia].
    change (0 <? 2) with true. cbn [andb].
    rewrite E1 at 1. rewrite next_token_closer_first; [| exact Hl2 |].
    - change (2 - 1 =? 0) with false. cbv iota. do 3 f_equal. exact L2.
    - rewrite !forallb_app, Hq2, Hqt. reflexivity. }
  assert (S2 : closingTag_body text (len P2, 1) = Some (Done (-1))).
  { rewrite closingTag_body_token.
    destruct (Z.ltb_spec (len P2) (len text)) as [_|]; [|lia].
    change (0 <? 1) with true. cbn [andb].
    rewrite E2 at 1. rewrite next_token_nothing; [reflexivity | |].
    - rewrite forallb_app, Hlt. reflexivity.
    - rewrite forallb_app, Hqt. reflexivity. }
  unfold findMatchingClosingTag. fold opA. fold text. rewrite L0.
  replace (S (Z.to_nat (len text - len P0)))
    with (3 + (Z.to_nat (len text - len P0) - 2))%nat by lia.
  apply while_loop_mono. cbn [while_loop]. rewrite S0, S1, S2. reflexivity.
Qed.

End AdjacentClosers.

Section NestedBlockLost.

Variable marked_parse : str -> str.

(** X13.  In [findMatchingClosingTag] the scan goes on four code units behind
    a closing marker that does not end the block, one more than the marker
    is long.  So when a nested block is closed right before its parent,
    in [</></>], the parent's closing marker is not seen.  With nothing
    else to close it, the parent stays unresolved, the clean-up removes
    both blocks with their content, and the Bridge is not called: only
    the text around the blocks is left. *)
Theorem processAllBlocks_adjacent_closers
  (fuel : nat) (pre clsA c1 clsB c2 tail : str) :
  plain pre = true ->
  clsA <> [] ->
  forallb (is_not QUOTE) clsA = true -> forallb (is_not TICK) clsA = true ->
  forallb (is_not QUOTE) clsB = true -> forallb (is_not TICK) clsB = true ->
  plain c1 = true -> plain c2 = true -> plain tail = true ->
  processAllBlocks marked_parse (S fuel)
    (pre ++ OPEN_MARK ++ clsA ++ QUOTE :: c1 ++ OPEN_MARK ++ clsB ++ QUOTE :: c2
       ++ CLOSE_MARK ++ CLOSE_MARK ++ tail)
  = Some (pre ++ tail, []).
Proof.
  intros Hpre HneA HqA HtA HqB HtB H1 H2 Ht.
  pose proof (findMatchingClosingTag_adjacent pre clsA c1 clsB c2 tail HqB H1 H2 Ht)
    as Hfind.
  apply plain_parts in Hpre as (Hlp & Hqp & Htp).
  apply plain_parts in H1 as (Hl1 & Hq1 & Ht1).
  apply plain_parts in H2 as (Hl2 & Hq2 & Ht2).
  apply plain_parts in Ht as (Hlt & Hqt & Htt).
  set (body := c1 ++ OPEN_MARK ++ clsB ++ QUOTE :: c2
                 ++ CLOSE_MARK ++ CLOSE_MARK ++ tail) in *.
  assert (Htick : forallb (is_not TICK) (pre ++ OPEN_MARK ++ clsA ++ QUOTE :: body)
                  = true).
  { unfold body. rewrite !forallb_app. cbn [forallb]. rewrite !forallb_app.
    cbn [forallb]. rewrite !forallb_app.
    rewrite Htp, HtA, Ht1, HtB, Ht2, Htt. reflexivity. }
  assert (Hs : search re_open (pre ++ OPEN_MARK ++ clsA ++ QUOTE :: body)
               = Some (length pre)).
  { apply (search_at re_open pre _ (length OPEN_MARK + length clsA + 1)).
    - intros j Hj. apply m_until_not_starts.
      apply no_quote_no_opener; [exact Hqp | discriminate | discriminate | exact Hj].
    - unfold re_open. rewrite m_until_eval by exact HqA.
      destruct clsA; [congruence | reflexivity]. }
  assert (Hpass : processAngleBlocks marked_parse
                    (processAllBlocks marked_parse fuel)
                    (pre ++ OPEN_MARK ++ clsA ++ QUOTE :: body)
                  = ret (pre ++ OPEN_MARK ++ clsA ++ QUOTE :: body)).
  { unfold processAngleBlocks. rewrite exec_open_at by assumption.
    rewrite Hfind. reflexivity. }
  assert (Hclean : removeUnprocessed (pre ++ OPEN_MARK ++ clsA ++ QUOTE :: body)
                   = pre ++ tail).
  { unfold removeUnprocessed.
    rewrite (proj2 (includes_occurs OPEN_MARK _))
      by (exists pre, (clsA ++ QUOTE :: body); reflexivity).
    cbv zeta.
    assert (E1 : remove_all re_unprocessed (pre ++ OPEN_MARK ++ clsA ++ QUOTE :: body)
                 = pre ++ CLOSE_MARK ++ CLOSE_MARK ++ tail).
    { unfold remove_all at 1. rewrite replace_fn_prefix
        by (apply re_unprocessed_before;
            [exact Hqp | discriminate | discriminate]).
      f_equal. fold (remove_all re_unprocessed (OPEN_MARK ++ clsA ++ QUOTE :: body)).
      unfold body.
      rewrite remove_unprocessed_block; [| exact HqA | exact Hl1 | reflexivity].
      rewrite remove_unprocessed_block; [| exact HqB | exact Hl2 | reflexivity].
      apply replace_fn_no_match. intros j. unfold re_unprocessed, re_open_any.
      rewrite m_until_not_starts; [reflexivity|].
      apply not_occurs_starts, no_quote_no_occurs.
      rewrite !forallb_app, Hqt. reflexivity. }
    rewrite E1. unfold remove_all at 1.
    rewrite replace_fn_prefix
      by (apply (no_head_no_match LANGLE); [apply re_close_heads | exact Hlp]).
    f_equal. fold (remove_all re_close (CLOSE_MARK ++ CLOSE_MARK ++ tail)).
    rewrite !remove_close_head.
    apply replace_fn_no_match.
    apply (no_head_no_match_all LANGLE); [apply re_close_heads | exact Hlt]. }
  rewrite processAllBlocks_unfold.
  rewrite protectCodeBlocks_no_tick by exact Htick.
  cbn [fst snd]. unfold maxIterations.
  rewrite passes_fixpoint by exact Hpass.
  cbn [bind ret]. rewrite Hclean, restoreCodeBlocks_empty_table. reflexivity.
Qed.

End NestedBlockLost.

Lemma processAllBlocks_adjacent_closers_witness :
  plain (u "a ") = true
  /\ u "outer" <> []
  /\ forallb (is_not QUOTE) (u "outer") = true
  /\ forallb (is_not TICK) (u "outer") = true
  /\ forallb (is_not QUOTE) (u "inner") = true
  /\ forallb (is_not TICK) (u "inner") = true
  /\ plain (u "b ") = true /\ plain (u "c") = true /\ plain (u " d") = true
  /\ processAllBlocks paragraph_bridge 1
       (u "a " ++ OPEN_MARK ++ u "outer" ++ QUOTE :: u "b " ++ OPEN_MARK ++ u "inner"
          ++ QUOTE :: u "c" ++ CLOSE_MARK ++ CLOSE_MARK ++ u " d")
     = Some (u "a " ++ u " d", []).
Proof.
  split; [reflexivity|]. split; [discriminate|].
  split; [reflexivity|]. split; [reflexivity|]. split; [reflexivity|].
  split; [reflexivity|]. split; [reflexivity|]. split; [reflexivity|].
  split; [reflexivity|].
  apply (processAllBlocks_adjacent_closers paragraph_bridge 0
           (u "a ") (u "outer") (u "b ") (u "inner") (u "c") (u " d"));
    try reflexivity.
  discriminate.
Defined.

(** ** Block processor: a block nested in a block *)

(** The closing marker of a block that holds plain text and one flat
    block. *)
Lemma findMatchingClosingTag_inner_block
  (marked_parse : str -> str) (pre clsA c1 : str) (b : sibling) (tail : str) :
  plain c1 = true -> flat marked_parse b = true -> plain tail = true ->
  findMatchingClosingTag
    (pre ++ OPEN_MARK ++ clsA ++ QUOTE :: (c1 ++ written b) ++ CLOSE_MARK ++ tail)
    (len pre) (OPEN_MARK ++ clsA ++ [QUOTE])
  = Some (len pre + len (OPEN_MARK ++ clsA ++ [QUOTE]) + len (c1 ++ written b)).
Proof.
  intros H1 Hb Ht.
  apply plain_parts in H1 as (Hl1 & Hq1 & _).
  apply plain_parts in Ht as (Hlt & Hqt & _).
  apply flat_parts in Hb
    as (_ & HqB & _ & (Hl2 & Hq2 & _) & Hne3 & (Hl3 & Hq3 & _) & _).
  destruct b as [clsB c2 c3]. cbn [s_class s_content s_after] in *.
  destruct c3 as [|x c3]; [congruence|].
  cbn [forallb] in Hl3, Hq3.
  apply andb_true_iff in Hl3 as [_ Hl3]. apply andb_true_iff in Hq3 as [Hqx Hq3].
  unfold written. cbn [s_class s_content s_after].
  set (opA := OPEN_MARK ++ clsA ++ [QUOTE]).
  set (opB := OPEN_MARK ++ clsB ++ [QUOTE]).
  set (P0 := pre ++ opA).
  set (P1 := P0 ++ c1 ++ opB).
  set (P2 := P1 ++ c2 ++ CLOSE_MARK ++ [x]).
  set (content := c1 ++ OPEN_MARK ++ clsB ++ QUOTE :: c2 ++ CLOSE_MARK ++ x :: c3).
  set (text := pre ++ OPEN_MARK ++ clsA ++ QUOTE :: content ++ CLOSE_MARK ++ tail).
  assert (E0 : text = P0 ++ c1 ++ OPEN_MARK ++ clsB ++ QUOTE :: c2
                        ++ CLOSE_MARK ++ (x :: c3) ++ CLOSE_MARK ++ tail).
  { unfold text, content, P0, opA. rewrite <- !app_assoc. cbn [app].
    rewrite <- !app_assoc. reflexivity. }
  assert (E1 : text = P1 ++ c2 ++ CLOSE_MARK ++ (x :: c3) ++ CLOSE_MARK ++ tail).
  { rewrite E0. unfold P1, opB. rewrite <- !app_assoc. reflexivity. }
  assert (E2 : text = P2 ++ c3 ++ CLOSE_MARK ++ tail).
  { rewrite E1. unfold P2. rewrite <- !app_assoc. reflexivity. }
  assert (L0 : len pre + len opA = len P0) by (unfold P0; rewrite len_app; reflexivity).
  assert (L1 : len P0 + len c1 + len opB = len P1)
    by (unfold P1; rewrite !len_app; lia).
  assert (L2 : len P1 + len c2 + 4 = len P2)
    by (unfold P2; rewrite !len_app; change (len CLOSE_MARK) with 3;
        change (len [x]) with 1; lia).
  assert (Lt : len text = len P2 + len c3 + 3 + len tail)
    by (rewrite E2, !len_app; change (len CLOSE_MARK) with 3; lia).
  assert (Lc : len content = len c1 + len opB + len c2 + 3 + (1 + len c3)).
  { unfold content. rewrite (opener_assoc clsB _). fold opB.
    rewrite !len_app. change (len CLOSE_MARK) with 3.
    change (len (x :: c3)) with (Z.of_nat (S (length c3))). unfold len. lia. }
  pose proof (len_nonneg pre). pose proof (len_nonneg opA).
  pose proof (len_nonneg c1). pose proof (len_nonneg opB).
  pose proof (len_nonneg c2). pose proof (len_nonneg c3).
  pose proof (len_nonneg tail).
  unfold findMatchingClosingTag. fold opA. rewrite L0.
  apply closes_at_loop; [|lia].
  apply (closes_behind_opener text (len P0) 1 (len P0 + len c1) (len opB)); [lia | lia | |].
  { rewrite E0 at 1. apply next_token_opener_first; assumption. }
  replace (len P0 + len c1 + len opB) with (len P1) by lia.
  apply (closes_later text (len P1) (1 + 1) (len P1 + len c2)); [lia | lia | |].
  { rewrite E1 at 1. apply next_token_closer_first; [exact Hl2|].
    rewrite !forallb_app. cbn [forallb]. rewrite ?forallb_app.
    rewrite Hq2, Hqx, Hq3, Hqt. reflexivity. }
  replace (len P1 + len c2 + 4) with (len P2) by lia.
  replace (1 + 1 - 1) with 1 by lia.
  replace (len P0 + len content) with (len P2 + len c3) by lia.
  apply closes_here; [lia|].
  rewrite E2 at 1. apply next_token_closer_first; [exact Hl3|].
  rewrite !forallb_app, Hq3, Hqt. reflexivity.
Qed.

Section NestedBlock.

Variable marked_parse : str -> str.

(** X14.  A block that holds plain text and one flat block.  The inner block
    is resolved first, and the Bridge renders its content; then the
    Bridge renders the content of the outer block, with the inner
    container in it.  The code unit behind each closing marker is
    dropped. *)
Theorem processAllBlocks_nested_block
  (fuel : nat) (pre clsA c1 : str) (b : sibling) (tail : str) :
  plain pre = true ->
  clsA <> [] ->
  forallb (is_not QUOTE) clsA = true -> forallb (is_not TICK) clsA = true ->
  plain c1 = true -> flat marked_parse b = true -> plain tail = true ->
  forallb (is_not QUOTE) (marked_parse (c1 ++ resolved marked_parse b)) = true ->
  processAllBlocks marked_parse (S (S (S fuel)))
    (pre ++ OPEN_MARK ++ clsA ++ QUOTE :: (c1 ++ written b) ++ CLOSE_MARK ++ tail)
  = Some (pre
            ++ (DIV_CLASS ++ trim clsA ++ [DQUOTE; GT]
                  ++ marked_parse (c1 ++ resolved marked_parse b) ++ DIV_CLOSE)
            ++ skipn 1 tail,
          [s_content b; c1 ++ resolved marked_parse b]).
Proof.
  intros Hpre HneA HqA HtA H1 Hb Ht Hm.
  pose proof (findMatchingClosingTag_inner_block marked_parse pre clsA c1 b tail H1 Hb Ht)
    as Hfind.
  assert (Hrec : processAllBlocks marked_parse (S (S fuel)) (c1 ++ written b)
                 = Some (c1 ++ resolved marked_parse b, [] ++ [s_content b])).
  { apply processAllBlocks_one_sibling; assumption. }
  pose proof (written_no_tick marked_parse [b]) as Hwt.
  cbn [forallb map concat] in Hwt. rewrite Hb, app_nil_r in Hwt.
  specialize (Hwt eq_refl).
  apply plain_parts in Hpre as (Hlp & Hqp & Htp).
  apply plain_parts in H1 as (Hl1 & Hq1 & Ht1).
  apply plain_parts in Ht as (Hlt & Hqt & Htt).
  set (text := pre ++ OPEN_MARK ++ clsA ++ QUOTE :: (c1 ++ written b)
                 ++ CLOSE_MARK ++ tail) in *.
  set (out := pre
                ++ (DIV_CLASS ++ trim clsA ++ [DQUOTE; GT]
                      ++ marked_parse (c1 ++ resolved marked_parse b) ++ DIV_CLOSE)
                ++ skipn 1 tail).
  assert (Htick : forallb (is_not TICK) text = true).
  { unfold text. rewrite !forallb_app. cbn [forallb]. rewrite !forallb_app.
    rewrite Htp, HtA, Ht1, Hwt, Htt. reflexivity. }
  assert (Hpass : processAngleBlocks marked_parse
                    (processAllBlocks marked_parse (S (S fuel))) text
                  = Some (out, ([] ++ [s_content b]) ++ [c1 ++ resolved marked_parse b])).
  { apply processAngleBlocks_closed_at; assumption. }
  assert (Hoq : forallb (is_not QUOTE) out = true).
  { unfold out. rewrite !forallb_app.
    rewrite Hqp, (forallb_trim _ _ HqA), Hm, (forallb_skipn _ 1 _ Hqt). reflexivity. }
  assert (Hdiff : str_eqb out text = false).
  { destruct (str_eqb out text) eqn:E; [|reflexivity]. exfalso.
    apply str_eqb_eq in E. unfold out, text in E.
    apply app_inv_head in E.
    apply (f_equal (fun s => nth_error s 1)) in E.
    rewrite <- !app_assoc in E. discriminate E. }
  rewrite processAllBlocks_unfold.
  rewrite protectCodeBlocks_no_tick by exact Htick.
  cbn [fst snd]. unfold maxIterations.
  assert (Hloop : passes (processAngleBlocks marked_parse
                            (processAllBlocks marked_parse (S (S fuel)))) 20 text
                  = Some (out, [s_content b; c1 ++ resolved marked_parse b])).
  { assert (Hrest :
      (if str_eqb out text then ret text
       else passes (processAngleBlocks marked_parse
                      (processAllBlocks marked_parse (S (S fuel)))) 19 out)
      = Some (out, [])).
    { rewrite Hdiff.
      apply (passes_fixpoint _ 18), processAngleBlocks_no_opener,
        no_quote_no_occurs, Hoq. }
    change 20%nat with (S 19).
    exact (bind_some _ _ _ _ _ _ Hpass Hrest). }
  rewrite Hloop. cbn [bind ret]. unfold removeUnprocessed.
  rewrite (proj2 (includes_false OPEN_MARK out))
    by (apply no_quote_no_occurs, Hoq).
  rewrite restoreCodeBlocks_empty_table. reflexivity.
Qed.

End NestedBlock.

Lemma processAllBlocks_nested_block_witness :
  plain (u "a ") = true
  /\ u "outer" <> []
  /\ forallb (is_not QUOTE) (u "outer") = true
  /\ forallb (is_not TICK) (u "outer") = true
  /\ plain (u "b ") = true
  /\ flat paragraph_bridge
       {| s_class := u "inner"; s_content := u "c"; s_after := u "! " |} = true
  /\ plain (u " d") = true
  /\ forallb (is_not QUOTE)
       (paragraph_bridge
          (u "b " ++ resolved paragraph_bridge
                       {| s_class := u "inner"; s_content := u "c"; s_after := u "! " |}))
     = true
  /\ processAllBlocks paragraph_bridge 3
       (u "a " ++ OPEN_MARK ++ u "outer" ++ QUOTE
          :: (u "b " ++ written {| s_class := u "inner"; s_content := u "c";
                                  s_after := u "! " |})
          ++ CLOSE_MARK ++ u " d")
     = Some (u "a "
               ++ (DIV_CLASS ++ trim (u "outer") ++ [DQUOTE; GT]
                     ++ paragraph_bridge
                          (u "b " ++ resolved paragraph_bridge
                             {| s_class := u "inner"; s_content := u "c";
                                s_after := u "! " |})
                     ++ DIV_CLOSE)
               ++ skipn 1 (u " d"),
             [s_content {| s_class := u "inner"; s_content := u "c"; s_after := u "! " |};
              u "b " ++ resolved paragraph_bridge
                          {| s_class := u "inner"; s_content := u "c";
                             s_after := u "! " |}]).
Proof.
  split; [reflexivity|]. split; [discriminate|].
  split; [reflexivity|]. split; [reflexivity|]. split; [reflexivity|].
  split; [reflexivity|]. split; [reflexivity|]. split; [reflexivity|].
  apply (processAllBlocks_nested_block paragraph_bridge 0
           (u "a ") (u "outer") (u "b ")
           {| s_class := u "inner"; s_content := u "c"; s_after := u "! " |} (u " d"));
    try reflexivity.
  discriminate.
Defined.

(** ** Paginator: documents without closing tags *)

Lemma find_last_none (p s : str) :
  (forall j, starts p (skipn j s) = false) -> find_last p s = None.
Proof.
  induction s as [|c s IH]; intros H.
  - cbn [find_last]. rewrite (H O : starts p [] = false). reflexivity.
  - cbn [find_last]. rewrite IH by (intros j; apply (H (S j))).
    rewrite (H O : starts p (c :: s) = false). reflexivity.
Qed.

Lemma lastIndexOf_absent (p s : str) : ~ occurs p s -> lastIndexOf p s = -1.
Proof.
  intros H. unfold lastIndexOf. rewrite find_last_none; [reflexivity|].
  intros j. apply not_occurs_starts. exact H.
Qed.

Lemma occurs_longer (p q s : str) : occurs (p ++ q) s -> occurs p s.
Proof.
  intros [a [b E]]. exists a, (q ++ b). rewrite E, <- app_assoc. reflexivity.
Qed.

Lemma occurs_slice (p s : str) (a b : Z) : occurs p (slice s a b) -> occurs p s.
Proof.
  unfold slice. intros H.
  rewrite <- (firstn_skipn (Z.to_nat (slice_end s a)) s). apply occurs_app_r.
  rewrite <- (firstn_skipn (Z.to_nat (slice_end s b - slice_end s a))
                (skipn (Z.to_nat (slice_end s a)) s)).
  apply occurs_app_l. exact H.
Qed.

Lemma breakPointOf_no_closing_tag (pageContent : str) :
  ~ occurs (u "</") pageContent -> breakPointOf pageContent = -1.
Proof.
  intros H. unfold breakPointOf.
  rewrite (lastIndexOf_absent (u "</") _ H).
  rewrite (lastIndexOf_absent (u "</p>"))
    by (intros O; apply H, (occurs_longer (u "</") (u "p>")), O).
  rewrite (lastIndexOf_absent (u "</h"))
    by (intros O; apply H, (occurs_longer (u "</") (u "h")), O).
  rewrite (lastIndexOf_absent (u "</ul>"))
    by (intros O; apply H, (occurs_longer (u "</") (u "ul>")), O).
  rewrite (lastIndexOf_absent (u "</ol>"))
    by (intros O; apply H, (occurs_longer (u "</") (u "ol>")), O).
  reflexivity.
Qed.

(** No break point, no snap: [-1] is not above 70% of any share. *)
Lemma above07_none (contentPerPage : Z) :
  0 <= contentPerPage -> above07 (-1) contentPerPage = false.
Proof.
  intros Hc. unfold above07, mul07.
  assert (Hp : 0 <= contentPerPage * d07) by (unfold d07; lia).
  destruct (Z.leb_spec (Z.log2 (contentPerPage * d07) + 1) 53) as [Hb|Hb].
  - change (-53 <? 0) with true. cbv iota. apply Z.ltb_ge.
    change (- -53) with 53. lia.
  - set (s := Z.log2 (contentPerPage * d07) + 1 - 53).
    assert (Hq : 0 <= Z.shiftr (contentPerPage * d07) s)
      by (apply Z.shiftr_nonneg; exact Hp).
    assert (Hm : 0 <= round_even (Z.shiftr (contentPerPage * d07) s)
                        (Z.land (contentPerPage * d07) (2 ^ s - 1)) (2 ^ (s - 1))).
    { unfold round_even. destruct (_ || _); lia. }
    destruct (Z.ltb_spec (s - 53) 0) as [He|He]; apply Z.ltb_ge.
    + assert (0 < 2 ^ (- (s - 53))) by (apply Z.pow_pos_nonneg; lia). lia.
    + assert (0 < 2 ^ (s - 53)) by (apply Z.pow_pos_nonneg; lia). nia.
Qed.

Lemma pageAt_no_closing_tag (html : str) (n c i : Z) :
  0 <= c -> ~ occurs (u "</") html -> pageAt html n c i = pageSlice html c i.
Proof.
  intros Hc H. unfold pageAt. fold (pageSlice html c i).
  destruct ((i <? n - 1) && _); [|reflexivity].
  rewrite breakPointOf_no_closing_tag.
  - rewrite above07_none by exact Hc. reflexivity.
  - intros O. apply H. unfold pageSlice in O. eapply occurs_slice. exact O.
Qed.

(** X15.  A document in which no closing tag opens ([</] does not occur) is
    never cut short: the fragments are its page slices, and together they
    are the document. *)
Theorem splitIntoPages_no_closing_tag (html : str) (pageHeight : Z) :
  pageHeight <> 0 -> is_empty (trim html) = false ->
  includes (u "</") html = false ->
  exists pages, splitIntoPages html pageHeight = Some pages
    /\ concat pages = html
    /\ forall i frag, nth_error pages i = Some frag ->
         frag = pageSlice html (share html pageHeight) (Z.of_nat i).
Proof.
  intros Hp Hb Hno. apply includes_false in Hno.
  destruct (splitIntoPages_shape html pageHeight Hp Hb)
    as (n & En & Hn & Hcover & Hc & _).
  assert (Es : share html pageHeight = contentPerPage html n)
    by (unfold share; rewrite En; reflexivity).
  rewrite Es in *.
  rewrite (splitIntoPages_unfold _ _ _ Hb En).
  destruct (Z.eqb_spec n 1) as [->|Hn1].
  - exists [html]. split; [reflexivity|]. split; [apply app_nil_r|].
    intros [|i] frag; [|destruct i; discriminate]. intros [= <-].
    rewrite pageSlice_chunk by (try exact Hc; lia).
    replace (contentPerPage html 1) with (len html)
      by (unfold contentPerPage, ceil_div; rewrite Z.div_1_r; lia).
    change (Z.to_nat (Z.of_nat 0 * len html)) with O. cbn [skipn].
    replace (Z.to_nat (len html)) with (length html) by (unfold len; lia).
    symmetry. apply firstn_all.
  - assert (Em : map (pageAt html n (contentPerPage html n)) (zrange n)
                 = map (pageSlice html (contentPerPage html n)) (zrange n)).
    { apply map_ext. intros i. apply pageAt_no_closing_tag; assumption. }
    rewrite Em. eexists. split; [reflexivity|]. split.
    + apply concat_pageSlices; assumption.
    + intros i frag Hi. rewrite nth_error_map in Hi.
      destruct (nth_error (zrange n) i) as [z|] eqn:Ez; [|discriminate].
      injection Hi as <-. apply zrange_nth in Ez as [-> _]. reflexivity.
Qed.

Lemma splitIntoPages_no_closing_tag_witness :
  200 <> 0
  /\ is_empty (trim (u "<img src=a><img src=b>")) = false
  /\ includes (u "</") (u "<img src=a><img src=b>") = false
  /\ exists pages, splitIntoPages (u "<img src=a><img src=b>") 200 = Some pages
       /\ concat pages = u "<img src=a><img src=b>"
       /\ forall i frag, nth_error pages i = Some frag ->
            frag = pageSlice (u "<img src=a><img src=b>")
                     (share (u "<img src=a><img src=b>") 200) (Z.of_nat i).
Proof.
  split; [discriminate|]. split; [reflexivity|]. split; [reflexivity|].
  apply (splitIntoPages_no_closing_tag (u "<img src=a><img src=b>") 200);
    [discriminate | reflexivity | reflexivity].
Defined.

(** ** Code Guard: what the table holds *)

(** A property of the state that every callback keeps holds at the end
    of a replacement. *)
Lemma replace_from_state {St : Type} (m : matcher) (f : St -> str -> str * St)
  (P : St -> Prop) :
  (forall st s n, m s = Some n -> P st -> P (snd (f st (firstn n s)))) ->
  forall s skip st, P st -> P (snd (replace_from m f skip s st)).
Proof.
  intros Hf. induction s as [|c s IH]; intros skip st Hst; [exact Hst|].
  cbn [replace_from]. destruct skip as [|k]; [|apply IH; exact Hst].
  destruct (m (c :: s)) as [n|] eqn:E.
  - pose proof (Hf st (c :: s) n E Hst) as H1.
    destruct (f st (firstn n (c :: s))) as [r st1]. cbn [snd] in H1.
    specialize (IH (pred n) st1 H1).
    destruct (replace_from m f (pred n) s st1) as [out st2]. exact IH.
  - specialize (IH O st Hst).
    destruct (replace_from m f O s st) as [out st2]. exact IH.
Qed.

Lemma re_inline_code_span (s : str) (n : nat) :
  re_inline_code s = Some n -> code_span (firstn n s).
Proof.
  intros H. apply m_until_some in H as (run & rest & -> & -> & _ & Hl).
  exists run. split.
  - change (([TICK] ++ run ++ TICK :: rest)) with (TICK :: run ++ [TICK] ++ rest).
    replace (length [TICK] + length run + 1)%nat
      with (length (TICK :: run ++ [TICK])) by (simpl; rewrite length_app; simpl; lia).
    change (TICK :: run ++ [TICK] ++ rest) with ((TICK :: run) ++ [TICK] ++ rest).
    rewrite app_assoc. apply firstn_exact.
  - intros ->. simpl in Hl. lia.
Qed.

Lemma re_fenced_code_span (s : str) (n : nat) :
  re_fenced_code s = Some n -> code_span (firstn n s).
Proof.
  unfold re_fenced_code. destruct (starts (u "```") s) eqn:Es; [|discriminate].
  apply starts_iff in Es as [t ->].
  change (skipn 3 (u "```" ++ t)) with t.
  destruct (find_first (u "```") t) as [k|] eqn:Ef; [|discriminate].
  intros [= <-].
  apply find_first_some in Ef as (Hk & Hs & _).
  apply starts_iff in Hs as [t' Et'].
  assert (Et : t = firstn k t ++ u "```" ++ t')
    by (rewrite <- Et'; symmetry; apply firstn_skipn).
  exists ([TICK; TICK] ++ firstn k t ++ [TICK; TICK]). split; [|discriminate].
  rewrite Et at 1.
  assert (Hlen : (3 + k + 3)%nat = length (u "```" ++ firstn k t ++ u "```"))
    by (rewrite !length_app, firstn_length_le by exact Hk; simpl; lia).
  change (S (S (S (k + 3)))) with (3 + k + 3)%nat. rewrite Hlen.
  replace (u "```" ++ firstn k t ++ u "```" ++ t')
    with ((u "```" ++ firstn k t ++ u "```") ++ t')
    by (rewrite <- !app_assoc; reflexivity).
  rewrite firstn_exact. cbn [app]. rewrite <- !app_assoc. reflexivity.
Qed.

(** X16.  Every entry of the table that [protectCodeBlocks] returns is code
    as it stood in the text it was taken from: it starts with a backtick,
    ends with a backtick, and has something in between.  No entry is
    empty, so restoring an entry never falls back to the placeholder. *)
Theorem protectCodeBlocks_table (text : str) :
  Forall code_span (snd (protectCodeBlocks text))
  /\ forall i block, nth_error (snd (protectCodeBlocks text)) i = Some block ->
       forall tag,
         restore_cb tag (snd (protectCodeBlocks text))
           (tag ++ decimal (N.of_nat i) ++ u "__") = block.
Proof.
  assert (H : Forall code_span (snd (protectCodeBlocks text))).
  { unfold protectCodeBlocks.
    pose proof (replace_from_state re_inline_code (protect_cb INLINE_TAG)
                  (Forall code_span)) as H1.
    pose proof (replace_from_state re_fenced_code (protect_cb FENCED_TAG)
                  (Forall code_span)) as H2.
    destruct (replace_from re_inline_code (protect_cb INLINE_TAG) O text [])
      as [t1 cb1] eqn:E1.
    specialize (H1 ltac:(intros st s n Hm Hst; cbn [protect_cb snd];
                         apply Forall_app; split; [exact Hst|];
                         constructor; [eapply re_inline_code_span; exact Hm
                                      | constructor])
                   text O [] (Forall_nil _)).
    rewrite E1 in H1. cbn [snd] in H1.
    specialize (H2 ltac:(intros st s n Hm Hst; cbn [protect_cb snd];
                         apply Forall_app; split; [exact Hst|];
                         constructor; [eapply re_fenced_code_span; exact Hm
                                      | constructor])
                   t1 O cb1 H1).
    destruct (replace_from re_fenced_code (protect_cb FENCED_TAG) O t1 cb1)
      as [t2 cb2]. exact H2. }
  split; [exact H|]. intros i block Hi tag.
  destruct (decimal_spec (N.of_nat i)) as (_ & _ & Hp).
  apply restore_cb_at.
  - rewrite Hp, Nat2N.id. exact Hi.
  - rewrite Forall_forall in H. apply nth_error_In in Hi.
    destruct (H _ Hi) as (body & -> & _). discriminate.
Qed.

(** ** The whole pipeline on a document with one block *)

Lemma starts_tail_boundary (c0 : cu) (b : str) :
  (b = [] \/ exists b', b = c0 :: b') ->
  forall q x, forallb (is_not c0) q = true -> starts q (x ++ b) = starts q x.
Proof.
  intros Hb. induction q as [|a q IH]; intros x Hq; [reflexivity|].
  cbn [forallb] in Hq. apply andb_true_iff in Hq as [Ha Hq].
  destruct x as [|z x].
  - cbn [app]. destruct Hb as [->|[b' ->]]; [reflexivity|].
    cbn [starts]. unfold is_not in Ha. apply negb_true_iff in Ha.
    rewrite Ha. reflexivity.
  - cbn [app starts]. rewrite IH by exact Hq. reflexivity.
Qed.

(** A pattern whose first code unit does not come back in it cannot run
    from one text into the next when the next starts with that code
    unit. *)
Lemma starts_boundary (c0 : cu) (q x b : str) :
  forallb (is_not c0) q = true -> x <> [] ->
  (b = [] \/ exists b', b = c0 :: b') ->
  starts (c0 :: q) (x ++ b) = starts (c0 :: q) x.
Proof.
  intros Hq Hx Hb. destruct x as [|z x]; [congruence|].
  cbn [app starts]. rewrite (starts_tail_boundary c0 b Hb q x Hq). reflexivity.
Qed.

Lemma find_first_skip (q p r : str) :
  (forall j, (j < length p)%nat -> starts q (skipn j (p ++ r)) = false) ->
  find_first q (p ++ r) = option_map (Nat.add (length p)) (find_first q r).
Proof.
  induction p as [|c p IH]; intros H.
  - cbn [app length]. destruct (find_first q r); reflexivity.
  - cbn [app find_first].
    rewrite (H O ltac:(simpl; lia) : starts q (c :: p ++ r) = false).
    rewrite IH by (intros j Hj; apply (H (S j)); simpl; lia).
    destruct (find_first q r); reflexivity.
Qed.

Lemma find_first_here (q s : str) : starts q s = true -> find_first q s = Some O.
Proof. intros H. destruct s; cbn [find_first]; rewrite H; reflexivity. Qed.

Lemma find_first_absent (q s : str) :
  (forall j, starts q (skipn j s) = false) -> find_first q s = None.
Proof.
  induction s as [|c s IH]; intros H.
  - cbn [find_first]. rewrite (H O : starts q [] = false). reflexivity.
  - cbn [find_first]. rewrite (H O : starts q (c :: s) = false).
    rewrite IH by (intros j; apply (H (S j))). reflexivity.
Qed.

Lemma indexOf_split (q P rest : str) :
  indexOf q (P ++ rest) (len P)
  = match find_first q rest with
    | Some j => len P + Z.of_nat j
    | None => -1
    end.
Proof.
  unfold indexOf, clamp. rewrite len_app.
  pose proof (len_nonneg P). pose proof (len_nonneg rest).
  replace (Z.max 0 (Z.min (len P + len rest) (len P))) with (len P) by lia.
  replace (Z.to_nat (len P)) with (length P) by (unfold len; lia).
  rewrite skipn_exact. reflexivity.
Qed.

Section OneBlock.

Variable marked_parse : str -> str.

Lemma renderSpan_value (result span : str) :
  renderSpan marked_parse result span
  = Some (result ++ rendered marked_parse span, logged span).
Proof.
  unfold renderSpan, rendered, logged.
  destruct (is_empty (trim span)); [|reflexivity].
  unfold ret. rewrite app_nil_r. reflexivity.
Qed.

Lemma inside_no_close (cls body rest : str) :
  forallb (is_not LANGLE) cls = true ->
  ~ occurs DIV_CLOSE body ->
  forall j, (j < length (inside cls body))%nat ->
    starts DIV_CLOSE (skipn j (inside cls body ++ DIV_CLOSE ++ rest)) = false.
Proof.
  intros Hc Hb j Hj. unfold inside in *.
  set (K0 := u " class=" ++ [DQUOTE] ++ cls ++ [DQUOTE; GT]).
  assert (HK0 : forallb (is_not LANGLE) K0 = true)
    by (unfold K0; rewrite !forallb_app, Hc; reflexivity).
  assert (E : u " class=" ++ [DQUOTE] ++ cls ++ [DQUOTE; GT] ++ body = K0 ++ body)
    by (unfold K0; rewrite <- !app_assoc; reflexivity).
  rewrite E in *. rewrite <- app_assoc.
  destruct (Nat.lt_ge_cases j (length K0)) as [Hlt|Hge].
  - apply (starts_no_head LANGLE); assumption.
  - rewrite skipn_app, skipn_all2 by exact Hge. cbn [app].
    rewrite length_app in Hj. rewrite skipn_app.
    replace (j - length K0 - length body)%nat with O by lia. cbn [skipn].
    rewrite (starts_boundary LANGLE (u "/div>")).
    + apply not_occurs_starts. exact Hb.
    + reflexivity.
    + intros E0. apply (f_equal (@length cu)) in E0.
      rewrite length_skipn in E0.
        change (length (@nil cu)) with O in E0. lia.
    + right. eexists. reflexivity.
Qed.

Lemma inside_no_open (cls body rest : str) :
  forallb (is_not LANGLE) cls = true ->
  ~ occurs DIV_OPEN body ->
  forallb (is_not LANGLE) rest = true ->
  forall j, starts DIV_OPEN (skipn j (inside cls body ++ DIV_CLOSE ++ rest)) = false.
Proof.
  intros Hc Hb Hr j. unfold inside.
  set (K0 := u " class=" ++ [DQUOTE] ++ cls ++ [DQUOTE; GT]).
  assert (HK0 : forallb (is_not LANGLE) K0 = true)
    by (unfold K0; rewrite !forallb_app, Hc; reflexivity).
  assert (E : u " class=" ++ [DQUOTE] ++ cls ++ [DQUOTE; GT] ++ body = K0 ++ body)
    by (unfold K0; rewrite <- !app_assoc; reflexivity).
  rewrite E. rewrite <- app_assoc.
  destruct (Nat.lt_ge_cases j (length K0)) as [Hlt|Hge].
  - apply (starts_no_head LANGLE); assumption.
  - rewrite skipn_app, skipn_all2 by exact Hge. cbn [app].
    destruct (Nat.lt_ge_cases (j - length K0) (length body)) as [Hlt|Hge2].
    + rewrite skipn_app.
      replace (j - length K0 - length body)%nat with O by lia. cbn [skipn].
      rewrite (starts_boundary LANGLE (u "div")).
      * apply not_occurs_starts. exact Hb.
      * reflexivity.
      * intros E0. apply (f_equal (@length cu)) in E0.
        rewrite length_skipn in E0.
        change (length (@nil cu)) with O in E0. lia.
      * right. eexists. reflexivity.
    + rewrite skipn_app, skipn_all2 by exact Hge2. cbn [app].
      destruct (j - length K0 - length body)%nat as [|k]; [reflexivity|].
      change (skipn (S k) (DIV_CLOSE ++ rest)) with (skipn k (u "/div>" ++ rest)).
      destruct (Nat.lt_ge_cases k (length (u "/div>" ++ rest))) as [Hk|Hk].
      * rewrite <- (app_nil_r (u "/div>" ++ rest)).
        apply (starts_no_head LANGLE); [|exact Hk].
        rewrite forallb_app, Hr. reflexivity.
      * rewrite skipn_all2 by exact Hk. reflexivity.
Qed.

End OneBlock.

Lemma container_shape (cls body : str) :
  DIV_CLASS ++ cls ++ [DQUOTE; GT] ++ body ++ DIV_CLOSE
  = DIV_OPEN ++ inside cls body ++ DIV_CLOSE.
Proof.
  unfold inside, DIV_CLASS. rewrite <- !app_assoc. reflexivity.
Qed.

(** The closing tag of a container that holds no other container. *)
Lemma findMatchingDivEnd_flat (pre cls body rest : str) :
  forallb (is_not LANGLE) cls = true ->
  ~ occurs DIV_OPEN body -> ~ occurs DIV_CLOSE body ->
  forallb (is_not LANGLE) rest = true ->
  findMatchingDivEnd (pre ++ DIV_OPEN ++ inside cls body ++ DIV_CLOSE ++ rest)
    (len pre)
  = Some (len pre + 4 + len (inside cls body)).
Proof.
  intros Hc Hbo Hbc Hr.
  set (K := inside cls body).
  set (T := pre ++ DIV_OPEN ++ K ++ DIV_CLOSE ++ rest).
  assert (E1 : T = (pre ++ DIV_OPEN) ++ K ++ DIV_CLOSE ++ rest)
    by (unfold T; rewrite <- app_assoc; reflexivity).
  assert (Fc : find_first DIV_CLOSE (K ++ DIV_CLOSE ++ rest) = Some (length K + 0)%nat).
  { rewrite find_first_skip by (apply inside_no_close; assumption).
    rewrite find_first_here by reflexivity. reflexivity. }
  assert (Fo : find_first DIV_OPEN (K ++ DIV_CLOSE ++ rest) = None).
  { apply find_first_absent. apply inside_no_open; assumption. }
  assert (Io0 : indexOf DIV_OPEN T (len pre) = len pre).
  { unfold T. rewrite indexOf_split, find_first_here by reflexivity. lia. }
  assert (Ic0 : indexOf DIV_CLOSE T (len pre) = len pre + 4 + len K).
  { unfold T. rewrite indexOf_split.
    rewrite (find_first_skip DIV_CLOSE DIV_OPEN).
    - rewrite Fc. cbn [option_map]. change (length DIV_OPEN) with 4%nat.
      unfold len. lia.
    - intros [|[|[|[|j]]]] Hj; try reflexivity. simpl in Hj. lia. }
  assert (L1 : len (pre ++ DIV_OPEN) = len pre + 4)
    by (rewrite len_app; reflexivity).
  assert (Io1 : indexOf DIV_OPEN T (len pre + 4) = -1).
  { rewrite E1, <- L1, indexOf_split, Fo. reflexivity. }
  assert (Ic1 : indexOf DIV_CLOSE T (len pre + 4) = len pre + 4 + len K).
  { rewrite E1, <- L1, indexOf_split, Fc. unfold len. lia. }
  assert (Lt : len T = len pre + 4 + len K + 6 + len rest).
  { unfold T. rewrite !len_app. change (len DIV_OPEN) with 4.
    change (len DIV_CLOSE) with 6. lia. }
  pose proof (len_nonneg pre). pose proof (len_nonneg K).
  pose proof (len_nonneg rest).
  assert (S0 : divEnd_body T (len pre, 0) = Some (Next (len pre + 4, 0 + 1))).
  { unfold divEnd_body. rewrite Io0, Ic0.
    destruct (Z.ltb_spec (len pre) (len T)) as [_|]; [|lia].
    destruct (Z.eqb_spec (len pre) (-1)) as [|_]; [lia|].
    destruct (Z.eqb_spec (len pre + 4 + len K) (-1)) as [|_]; [lia|].
    destruct (Z.ltb_spec (len pre) (len pre + 4 + len K)) as [_|]; [|lia].
    reflexivity. }
  assert (S1 : divEnd_body T (len pre + 4, 0 + 1)
               = Some (Done (len pre + 4 + len K))).
  { unfold divEnd_body. rewrite Io1, Ic1.
    destruct (Z.ltb_spec (len pre + 4) (len T)) as [_|]; [|lia].
    destruct (Z.eqb_spec (len pre + 4 + len K) (-1)) as [|_]; [lia|].
    reflexivity. }
  unfold findMatchingDivEnd. fold K. fold T.
  replace (S (Z.to_nat (len T - len pre)))
    with (2 + (Z.to_nat (len T - len pre) - 1))%nat by lia.
  apply while_loop_mono. cbn [while_loop]. rewrite S0, S1. reflexivity.
Qed.

Section OnePipeline.

Variable marked_parse : str -> str.

(** The final pass on a text with one container that holds no other
    container: the text before it and the text behind it are rendered,
    the container is copied. *)
Lemma splitByDivs_one_container (pre cls body rest : str) :
  forallb (is_not LANGLE) pre = true ->
  forallb (is_not LANGLE) cls = true ->
  ~ occurs DIV_OPEN body -> ~ occurs DIV_CLOSE body ->
  forallb (is_not LANGLE) rest = true ->
  splitByDivsAndProcessMarkdown marked_parse
    (pre ++ (DIV_CLASS ++ cls ++ [DQUOTE; GT] ++ body ++ DIV_CLOSE) ++ rest)
  = Some (rendered marked_parse pre
            ++ (DIV_CLASS ++ cls ++ [DQUOTE; GT] ++ body ++ DIV_CLOSE)
            ++ rendered marked_parse rest,
          logged pre ++ logged rest).
Proof.
  intros Hp Hc Hbo Hbc Hr.
  pose proof (findMatchingDivEnd_flat pre cls body rest Hc Hbo Hbc Hr) as Hfind.
  set (C := DIV_CLASS ++ cls ++ [DQUOTE; GT] ++ body ++ DIV_CLOSE).
  assert (EC : C = DIV_OPEN ++ inside cls body ++ DIV_CLOSE)
    by apply container_shape.
  set (K := inside cls body) in *.
  set (T := pre ++ C ++ rest).
  assert (ET : T = pre ++ DIV_OPEN ++ K ++ DIV_CLOSE ++ rest)
    by (unfold T; rewrite EC, <- !app_assoc; reflexivity).
  rewrite <- ET in Hfind.
  assert (LC : len C = 4 + len K + 6).
  { rewrite EC, !len_app. change (len DIV_OPEN) with 4.
    change (len DIV_CLOSE) with 6. lia. }
  assert (Lt : len T = len pre + len C + len rest)
    by (unfold T; rewrite !len_app; lia).
  pose proof (len_nonneg pre). pose proof (len_nonneg K).
  pose proof (len_nonneg rest).
  assert (I0 : indexOf DIV_CLASS T 0 = len pre).
  { change 0 with (len (@nil cu)). change T with ([] ++ T).
    rewrite indexOf_split. unfold T.
    rewrite find_first_skip
      by (intros j Hj;
          apply (starts_no_head LANGLE (u "div class=" ++ [DQUOTE])); assumption).
    rewrite find_first_here
      by (apply starts_iff; exists (cls ++ [DQUOTE; GT] ++ body ++ DIV_CLOSE ++ rest);
          unfold C; rewrite <- !app_assoc; reflexivity).
    cbn [option_map]. unfold len. simpl length. lia. }
  assert (Hbefore : substring T 0 (len pre) = pre) by apply substring_prefix.
  assert (Hcopy : substring T (len pre) (len pre + 4 + len K + 6) = C).
  { rewrite substring_between by lia.
    replace (Z.to_nat (len pre)) with (length pre) by (unfold len; lia).
    replace (Z.to_nat (len pre + 4 + len K + 6 - len pre)) with (length C)
      by (unfold len in *; lia).
    unfold T. rewrite skipn_exact. apply firstn_exact. }
  assert (S0 : splitByDivs_body marked_parse T (0, [])
               = Some (Next (len pre + 4 + len K + 6,
                             ([] ++ rendered marked_parse pre) ++ C),
                       logged pre ++ [] ++ [])).
  { unfold splitByDivs_body.
    destruct (Z.ltb_spec 0 (len T)) as [_|]; [|lia].
    rewrite I0. destruct (Z.eqb_spec (len pre) (-1)) as [|_]; [lia|].
    rewrite Hbefore, renderSpan_value, Hfind. cbn [lift bind].
    destruct (Z.eqb_spec (len pre + 4 + len K) (-1)) as [|_]; [lia|].
    rewrite Hcopy. reflexivity. }
  assert (S1 : splitByDivs_body marked_parse T
                 (len pre + 4 + len K + 6, ([] ++ rendered marked_parse pre) ++ C)
               = Some (Done ((([] ++ rendered marked_parse pre) ++ C)
                               ++ rendered marked_parse rest),
                       logged rest ++ [])).
  { unfold splitByDivs_body.
    destruct (Z.ltb_spec (len pre + 4 + len K + 6) (len T)) as [Hlt|Hge].
    - assert (EP : len pre + 4 + len K + 6 = len (pre ++ C))
        by (rewrite len_app; lia).
      assert (ET2 : T = (pre ++ C) ++ rest)
        by (unfold T; rewrite <- app_assoc; reflexivity).
      assert (I1 : indexOf DIV_CLASS T (len pre + 4 + len K + 6) = -1).
      { rewrite EP, ET2, indexOf_split.
        rewrite find_first_absent; [reflexivity|].
        intros j. destruct (Nat.lt_ge_cases j (length rest)) as [Hj|Hj].
        - rewrite <- (app_nil_r rest).
          apply (starts_no_head LANGLE (u "div class=" ++ [DQUOTE])); assumption.
        - rewrite skipn_all2 by exact Hj. reflexivity. }
      rewrite I1. cbn [Z.eqb].
      rewrite substring_from_nonneg by lia.
      rewrite EP, ET2.
      replace (Z.to_nat (len (pre ++ C))) with (length (pre ++ C))
        by (unfold len; lia).
      rewrite skipn_exact, renderSpan_value. reflexivity.
    - assert (rest = []) as ->.
      { destruct rest; [reflexivity|]. unfold len in *. simpl length in *. lia. }
      unfold rendered, logged. cbn [trim trimStart trimEnd rev is_empty].
      unfold ret. rewrite app_nil_r. reflexivity. }
  unfold splitByDivsAndProcessMarkdown. fold C. fold T.
  replace (S (length T)) with (S (S (length T - 1)))
    by (unfold len in *; lia).
  cbn [while_logged].
  rewrite S0. cbn [bind]. rewrite S1. cbn [bind ret].
  rewrite !app_nil_r. cbn [app]. rewrite <- app_assoc. reflexivity.
Qed.

End OnePipeline.

Section ParseOneBlock.

Variable marked_parse : str -> str.

Lemma written_not_blank (pre : str) (b : sibling) :
  is_empty (trim (pre ++ written b)) = false.
Proof.
  destruct (is_empty (trim (pre ++ written b))) eqn:E; [|reflexivity].
  apply blank_iff in E. rewrite forallb_app in E.
  apply andb_true_iff in E as [_ E]. discriminate E.
Qed.

(** X17.  The whole pipeline on a document with one flat block between plain
    text.  [parse] returns what the Bridge renders for the text before the
    block, then the container, whose class attribute is the class list
    trimmed and whose body is what the Bridge renders for the content, then
    what the Bridge renders for the text behind the block, without its
    first code unit.  The Bridge is called on the content first, then on
    the text before and behind the block; blank text is not passed to it.
    The Bridge output for the content is assumed to hold no quote and no
    container tag. *)
Theorem parse_one_block
  (fuel : nat) (pre : str) (b : sibling) (options : MarkOverOptions) :
  plain pre = true -> flat marked_parse b = true ->
  forallb (is_not LANGLE) (s_class b) = true ->
  includes DIV_OPEN (marked_parse (s_content b)) = false ->
  includes DIV_CLOSE (marked_parse (s_content b)) = false ->
  parse marked_parse (S (S fuel)) (pre ++ written b) options
  = Some (rendered marked_parse pre
            ++ container marked_parse b
            ++ rendered marked_parse (skipn 1 (s_after b)),
          [s_content b] ++ logged pre ++ logged (skipn 1 (s_after b))).
Proof.
  intros Hpre Hb Hcl Hno Hnc.
  apply includes_false in Hno. apply includes_false in Hnc.
  pose proof (processAllBlocks_one_sibling marked_parse fuel pre b Hpre Hb) as Hs.
  apply plain_parts in Hpre as (Hlp & _ & _).
  apply flat_parts in Hb as (_ & _ & _ & _ & _ & (Hla & _ & _) & _).
  unfold parse. rewrite written_not_blank.
  unfold processMarkdownOutsideDivs.
  assert (Hfinal : splitByDivsAndProcessMarkdown marked_parse
                     (pre ++ resolved marked_parse b)
                   = Some (rendered marked_parse pre
                             ++ container marked_parse b
                             ++ rendered marked_parse (skipn 1 (s_after b)),
                           logged pre ++ logged (skipn 1 (s_after b)))).
  { unfold resolved, container.
    apply splitByDivs_one_container; try assumption.
    - apply forallb_trim. exact Hcl.
    - apply forallb_skipn. exact Hla. }
  eapply bind_some; [exact Hs|].
  rewrite <- (app_nil_r (logged pre ++ logged (skipn 1 (s_after b)))).
  eapply bind_some; [exact Hfinal | reflexivity].
Qed.

End ParseOneBlock.

Lemma parse_one_block_witness :
  plain (u "Intro text ") = true
  /\ flat paragraph_bridge
       {| s_class := u " note wide "; s_content := u "Hello"; s_after := u "! Bye" |}
     = true
  /\ forallb (is_not LANGLE) (u " note wide ") = true
  /\ includes DIV_OPEN (paragraph_bridge (u "Hello")) = false
  /\ includes DIV_CLOSE (paragraph_bridge (u "Hello")) = false
  /\ parse paragraph_bridge 2
       (u "Intro text "
          ++ written {| s_class := u " note wide "; s_content := u "Hello";
                        s_after := u "! Bye" |})
       defaultOptions
     = Some (rendered paragraph_bridge (u "Intro text ")
               ++ container paragraph_bridge
                    {| s_class := u " note wide "; s_content := u "Hello";
                       s_after := u "! Bye" |}
               ++ rendered paragraph_bridge (skipn 1 (u "! Bye")),
             [u "Hello"] ++ logged (u "Intro text ") ++ logged (skipn 1 (u "! Bye"))).
Proof.
  split; [reflexivity|]. split; [reflexivity|]. split; [reflexivity|].
  split; [reflexivity|]. split; [reflexivity|].
  apply (parse_one_block paragraph_bridge 0 (u "Intro text ")
           {| s_class := u " note wide "; s_content := u "Hello"; s_after := u "! Bye" |}
           defaultOptions); reflexivity.
Defined.

(** ** Block processor: a block with an empty class list *)

Section EmptyClass.

Variable marked_parse : str -> str.

(** X18.  The opening pattern of [processAngleBlocks] wants a class list that
    is not empty, the patterns of the matcher and of the clean-up do not.
    So a block written with an empty class list is never resolved, and the
    clean-up removes it with its content: only the text around it is
    left, and the Bridge is not called. *)
Theorem processAllBlocks_empty_class (fuel : nat) (pre content tail : str) :
  plain pre = true -> plain content = true -> plain tail = true ->
  processAllBlocks marked_parse (S fuel)
    (pre ++ OPEN_MARK ++ QUOTE :: content ++ CLOSE_MARK ++ tail)
  = Some (pre ++ tail, []).
Proof.
  intros Hpre Hc Ht.
  apply plain_parts in Hpre as (Hlp & Hqp & Htp).
  apply plain_parts in Hc as (Hlc & Hqc & Htc).
  apply plain_parts in Ht as (Hlt & Hqt & Htt).
  set (text := pre ++ OPEN_MARK ++ QUOTE :: content ++ CLOSE_MARK ++ tail).
  assert (Htick : forallb (is_not TICK) text = true).
  { unfold text. rewrite !forallb_app. cbn [forallb]. rewrite !forallb_app.
    rewrite Htp, Htc, Htt. reflexivity. }
  assert (Hsearch : search re_open text = None).
  { apply search_none_intro. intros j. unfold re_open.
    destruct (Nat.lt_ge_cases j (length pre)) as [Hj|Hj].
    - apply m_until_not_starts.
      apply no_quote_no_opener; [exact Hqp | discriminate | discriminate | exact Hj].
    - unfold text. rewrite skipn_app, skipn_all2 by exact Hj. cbn [app].
      destruct (j - length pre)%nat as [|k].
      + cbn [skipn]. apply (m_until_eval OPEN_MARK QUOTE 1 []). reflexivity.
      + apply m_until_not_starts.
        change (skipn (S k) (OPEN_MARK ++ QUOTE :: content ++ CLOSE_MARK ++ tail))
          with (skipn k (u ">''" ++ content ++ CLOSE_MARK ++ tail)).
        rewrite app_assoc.
        destruct (Nat.lt_ge_cases k (length (u ">''" ++ content))) as [Hk|Hk].
        * apply (starts_no_head LANGLE); [|exact Hk].
          rewrite forallb_app, Hlc. reflexivity.
        * rewrite skipn_app, skipn_all2 by exact Hk. cbn [app].
          destruct (k - length (u ">''" ++ content))%nat as [|i]; [reflexivity|].
          change (skipn (S i) (CLOSE_MARK ++ tail)) with (skipn i (u "/>" ++ tail)).
          destruct (Nat.lt_ge_cases i (length (u "/>" ++ tail))) as [Hi|Hi].
          -- rewrite <- (app_nil_r (u "/>" ++ tail)).
             apply (starts_no_head LANGLE); [|exact Hi].
             rewrite forallb_app, Hlt. reflexivity.
          -- rewrite skipn_all2 by exact Hi. reflexivity. }
  assert (Hpass : processAngleBlocks marked_parse
                    (processAllBlocks marked_parse fuel) text = ret text).
  { unfold processAngleBlocks, exec_open. rewrite Hsearch. reflexivity. }
  assert (Hclean : removeUnprocessed text = pre ++ tail).
  { unfold removeUnprocessed.
    rewrite (proj2 (includes_occurs OPEN_MARK text))
      by (exists pre, (QUOTE :: content ++ CLOSE_MARK ++ tail); reflexivity).
    cbv zeta.
    assert (E1 : remove_all re_unprocessed text = pre ++ CLOSE_MARK ++ tail).
    { unfold text. unfold remove_all at 1. rewrite replace_fn_prefix
        by (apply re_unprocessed_before;
            [exact Hqp | discriminate | discriminate]).
      f_equal.
      fold (remove_all re_unprocessed
              (OPEN_MARK ++ QUOTE :: content ++ CLOSE_MARK ++ tail)).
      change (OPEN_MARK ++ QUOTE :: content ++ CLOSE_MARK ++ tail)
        with (OPEN_MARK ++ [] ++ QUOTE :: content ++ CLOSE_MARK ++ tail).
      rewrite (remove_unprocessed_block [] content (CLOSE_MARK ++ tail));
        [| reflexivity | exact Hlc | reflexivity].
      apply replace_fn_no_match. intros j. unfold re_unprocessed, re_open_any.
      rewrite m_until_not_starts; [reflexivity|].
      apply not_occurs_starts, no_quote_no_occurs.
      rewrite forallb_app, Hqt. reflexivity. }
    rewrite E1. unfold remove_all at 1.
    rewrite replace_fn_prefix
      by (apply (no_head_no_match LANGLE); [apply re_close_heads | exact Hlp]).
    f_equal. fold (remove_all re_close (CLOSE_MARK ++ tail)).
    rewrite remove_close_head.
    apply replace_fn_no_match.
    apply (no_head_no_match_all LANGLE); [apply re_close_heads | exact Hlt]. }
  rewrite processAllBlocks_unfold.
  rewrite protectCodeBlocks_no_tick by exact Htick.
  cbn [fst snd]. unfold maxIterations.
  rewrite passes_fixpoint by exact Hpass.
  cbn [bind ret]. rewrite Hclean, restoreCodeBlocks_empty_table. reflexivity.
Qed.

End EmptyClass.

Lemma processAllBlocks_empty_class_witness :
  plain (u "a ") = true /\ plain (u "hello") = true /\ plain (u " b") = true
  /\ processAllBlocks paragraph_bridge 1
       (u "a " ++ OPEN_MARK ++ QUOTE :: u "hello" ++ CLOSE_MARK ++ u " b")
     = Some (u "a " ++ u " b", []).
Proof.
  split; [reflexivity|]. split; [reflexivity|]. split; [reflexivity|].
  apply (processAllBlocks_empty_class paragraph_bridge 0
           (u "a ") (u "hello") (u " b")); reflexivity.
Defined.

(** ** Code Guard: behind a fence *)

(** No run of three backticks starts anywhere in a text. *)
Lemma no_fence_plain (s : str) :
  forallb (is_not TICK) s = true ->
  forall j, starts (u "```") (skipn j s) = false.
Proof.
  intros H j. destruct (Nat.lt_ge_cases j (length s)) as [Hj|Hj].
  - rewrite <- (app_nil_r s). apply (starts_no_head TICK); assumption.
  - rewrite skipn_all2 by exact Hj. reflexivity.
Qed.

Lemma no_fence_app (p r : str) :
  forallb (is_not TICK) p = true ->
  (forall j, starts (u "```") (skipn j r) = false) ->
  forall j, starts (u "```") (skipn j (p ++ r)) = false.
Proof.
  intros Hp Hr j. destruct (Nat.lt_ge_cases j (length p)) as [Hj|Hj].
  - apply (starts_no_head TICK); assumption.
  - rewrite skipn_app, skipn_all2 by exact Hj. apply Hr.
Qed.

Lemma no_fence_tick (r : str) :
  nth_error r 0 <> Some TICK ->
  (forall j, starts (u "```") (skipn j r) = false) ->
  forall j, starts (u "```") (skipn j (TICK :: r)) = false.
Proof.
  intros Hh Hr [|j]; [|apply Hr].
  destruct r as [|c r]; [reflexivity|].
  cbn [skipn]. change (starts (u "```") (TICK :: c :: r))
    with (N.eqb TICK c && starts [TICK] r).
  destruct (N.eqb_spec TICK c) as [<-|]; [|reflexivity].
  exfalso. apply Hh. reflexivity.
Qed.

Lemma no_fence_two_ticks (r : str) :
  nth_error r 0 <> Some TICK ->
  (forall j, starts (u "```") (skipn j r) = false) ->
  forall j, starts (u "```") (skipn j (TICK :: TICK :: r)) = false.
Proof.
  intros Hh Hr [|j]; [|cbn [skipn]; apply no_fence_tick; assumption].
  destruct r as [|c r]; [reflexivity|].
  cbn [skipn]. change (starts (u "```") (TICK :: TICK :: c :: r))
    with (N.eqb TICK c && true).
  destruct (N.eqb_spec TICK c) as [<-|]; [|reflexivity].
  exfalso. apply Hh. reflexivity.
Qed.

Lemma re_inline_code_open (s : str) :
  forallb (is_not TICK) s = true -> re_inline_code (TICK :: s) = None.
Proof.
  intros H. unfold re_inline_code, m_until. cbn [starts N.eqb Pos.eqb andb].
  change (skipn (length [TICK]) (TICK :: s)) with s.
  assert (Hs : span_len (is_not TICK) s = length s).
  { induction s as [|c s IH]; [reflexivity|].
    cbn [forallb] in H. apply andb_true_iff in H as [Hc Hs].
    cbn [span_len length]. rewrite Hc, IH by exact Hs. reflexivity. }
  rewrite Hs.
  replace (nth_error s (length s)) with (@None cu)
    by (symmetry; apply nth_error_None; lia).
  reflexivity.
Qed.

Lemma inline_code_none_behind (x tail : str) :
  forallb (is_not TICK) x = true -> forallb (is_not TICK) tail = true ->
  forall j, re_inline_code (skipn j (x ++ TICK :: tail)) = None.
Proof.
  intros Hx Ht j. destruct (Nat.lt_ge_cases j (length x)) as [Hj|Hj].
  - apply no_tick_no_match; [apply re_inline_code_head | exact Hx | exact Hj].
  - rewrite skipn_app, skipn_all2 by exact Hj. cbn [app].
    destruct (j - length x)%nat as [|k]; [apply re_inline_code_open; exact Ht|].
    cbn [skipn]. destruct (Nat.lt_ge_cases k (length tail)) as [Hk|Hk].
    + rewrite <- (app_nil_r tail).
      apply no_tick_no_match; [apply re_inline_code_head | exact Ht | exact Hk].
    + rewrite skipn_all2 by exact Hk. reflexivity.
Qed.

Lemma re_inline_code_at (run rest : str) :
  run <> [] -> forallb (is_not TICK) run = true ->
  re_inline_code (TICK :: run ++ TICK :: rest)
  = Some (length (TICK :: run ++ [TICK])).
Proof.
  intros Hne Hr. unfold re_inline_code.
  change (TICK :: run ++ TICK :: rest) with ([TICK] ++ run ++ TICK :: rest).
  rewrite (m_until_eval [TICK] TICK 1 run rest Hr).
  destruct run as [|c run]; [congruence|]. cbn [length Nat.leb].
  rewrite length_app. cbn [length]. f_equal; lia.
Qed.

(** X19.  The inline pattern runs first and takes a fence apart.  Of a fenced
    block only its content with one backtick on each side is stored, two
    backticks of each fence stay in the text, and the last backtick of the
    closing fence pairs with the next backtick of the text: the text
    between the fence and the next inline code is stored as code, and
    that inline code stays in the text, unprotected. *)
Theorem protectCodeBlocks_behind_fence (pre a mid x tail : str) :
  forallb (is_not TICK) pre = true ->
  a <> [] -> forallb (is_not TICK) a = true ->
  mid <> [] -> forallb (is_not TICK) mid = true ->
  forallb (is_not TICK) x = true -> forallb (is_not TICK) tail = true ->
  protectCodeBlocks
    (pre ++ u "```" ++ a ++ u "```" ++ mid ++ TICK :: x ++ TICK :: tail)
  = (pre ++ u "``" ++ u "__INLINE_CODE_0__" ++ TICK
         :: u "__INLINE_CODE_1__" ++ x ++ TICK :: tail,
     [TICK :: a ++ [TICK]; TICK :: mid ++ [TICK]]).
Proof.
  intros Hpre Hane Ha Hmne Hm Hx Ht.
  rewrite protectCodeBlocks_prefix by exact Hpre.
  set (r2 := x ++ TICK :: tail).
  set (r1 := TICK :: TICK :: mid ++ TICK :: r2).
  change (u "```" ++ a ++ u "```" ++ mid ++ TICK :: r2)
    with ([TICK; TICK] ++ TICK :: a ++ TICK :: r1).
  assert (R2 : forall st, replace_from re_inline_code (protect_cb INLINE_TAG) O r2 st
                          = (r2, st)).
  { intros st. apply replace_from_no_match. apply inline_code_none_behind; assumption. }
  assert (R1 : replace_from re_inline_code (protect_cb INLINE_TAG) O r1
                 [TICK :: a ++ [TICK]]
               = (TICK :: u "__INLINE_CODE_1__" ++ r2,
                  [TICK :: a ++ [TICK]; TICK :: mid ++ [TICK]])).
  { unfold r1. change (TICK :: TICK :: mid ++ TICK :: r2)
      with ([TICK] ++ TICK :: mid ++ TICK :: r2).
    rewrite replace_from_prefix.
    - rewrite (replace_from_match _ _ _ _ _ (re_inline_code_at mid r2 Hmne Hm));
        [| cbn [length]; lia | discriminate].
      change (TICK :: mid ++ TICK :: r2) with ((TICK :: mid) ++ [TICK] ++ r2).
      rewrite app_assoc.
      change ((TICK :: mid) ++ [TICK]) with (TICK :: mid ++ [TICK]).
      rewrite firstn_exact, skipn_exact.
      cbn [protect_cb fst snd]. rewrite R2. reflexivity.
    - intros [|j] Hj; [reflexivity | simpl in Hj; lia]. }
  assert (P1 : replace_from re_inline_code (protect_cb INLINE_TAG) O
                 ([TICK; TICK] ++ TICK :: a ++ TICK :: r1) []
               = (u "``" ++ u "__INLINE_CODE_0__" ++ TICK :: u "__INLINE_CODE_1__" ++ r2,
                  [TICK :: a ++ [TICK]; TICK :: mid ++ [TICK]])).
  { rewrite replace_from_prefix.
    - rewrite (replace_from_match _ _ _ _ _ (re_inline_code_at a r1 Hane Ha));
        [| cbn [length]; lia | discriminate].
      change (TICK :: a ++ TICK :: r1) with ((TICK :: a) ++ [TICK] ++ r1).
      rewrite app_assoc.
      change ((TICK :: a) ++ [TICK]) with (TICK :: a ++ [TICK]).
      rewrite firstn_exact, skipn_exact.
      replace (protect_cb INLINE_TAG [] (TICK :: a ++ [TICK]))
        with (u "__INLINE_CODE_0__", [TICK :: a ++ [TICK]]) by reflexivity.
      cbn [fst snd]. rewrite R1. reflexivity.
    - intros [|[|j]] Hj; [reflexivity | reflexivity | simpl in Hj; lia]. }
  unfold protectCodeBlocks. rewrite P1.
  rewrite (replace_from_no_match re_fenced_code).
  - reflexivity.
  - intros j. unfold re_fenced_code.
    replace (starts (u "```") (skipn j _)) with false; [reflexivity|]. symmetry.
    apply (no_fence_two_ticks
             (u "__INLINE_CODE_0__" ++ TICK :: u "__INLINE_CODE_1__" ++ r2));
      [discriminate|].
    apply no_fence_app; [reflexivity|].
    apply no_fence_tick; [discriminate|].
    apply no_fence_app; [reflexivity|].
    unfold r2. apply no_fence_app; [exact Hx|].
    apply no_fence_tick.
    + destruct tail as [|c tail]; [discriminate|].
      cbn [forallb] in Ht. apply andb_true_iff in Ht as [Hc _].
      intros [= ->]. discriminate Hc.
    + apply no_fence_plain. exact Ht.
Qed.

Lemma protectCodeBlocks_behind_fence_witness :
  forallb (is_not TICK) (u "See ") = true
  /\ u "js" <> [] /\ forallb (is_not TICK) (u "js") = true
  /\ u " then <>'box' hi </> and " <> []
  /\ forallb (is_not TICK) (u " then <>'box' hi </> and ") = true
  /\ forallb (is_not TICK) (u "x") = true
  /\ forallb (is_not TICK) (u " end") = true
  /\ protectCodeBlocks
       (u "See " ++ u "```" ++ u "js" ++ u "```" ++ u " then <>'box' hi </> and "
          ++ TICK :: u "x" ++ TICK :: u " end")
     = (u "See " ++ u "``" ++ u "__INLINE_CODE_0__" ++ TICK
           :: u "__INLINE_CODE_1__" ++ u "x" ++ TICK :: u " end",
        [TICK :: u "js" ++ [TICK]; TICK :: u " then <>'box' hi </> and " ++ [TICK]]).
Proof.
  split; [reflexivity|]. split; [discriminate|]. split; [reflexivity|].
  split; [discriminate|]. split; [reflexivity|]. split; [reflexivity|].
  split; [reflexivity|].
  apply (protectCodeBlocks_behind_fence (u "See ") (u "js")
           (u " then <>'box' hi </> and ") (u "x") (u " end"));
    try reflexivity; discriminate.
Defined.

(** ** Block processor: inline code inside a block *)

Lemma protectCodeBlocks_one_span (p code r : str) :
  forallb (is_not TICK) p = true ->
  code <> [] -> forallb (is_not TICK) code = true ->
  forallb (is_not TICK) r = true ->
  protectCodeBlocks (p ++ TICK :: code ++ TICK :: r)
  = (p ++ u "__INLINE_CODE_0__" ++ r, [TICK :: code ++ [TICK]]).
Proof.
  intros Hp Hne Hc Hr. rewrite protectCodeBlocks_prefix by exact Hp.
  assert (P1 : replace_from re_inline_code (protect_cb INLINE_TAG) O
                 (TICK :: code ++ TICK :: r) []
               = (u "__INLINE_CODE_0__" ++ r, [TICK :: code ++ [TICK]])).
  { rewrite (replace_from_match _ _ _ _ _ (re_inline_code_at code r Hne Hc));
      [| cbn [length]; lia | discriminate].
    change (TICK :: code ++ TICK :: r) with ((TICK :: code) ++ [TICK] ++ r).
    rewrite app_assoc.
    change ((TICK :: code) ++ [TICK]) with (TICK :: code ++ [TICK]).
    rewrite firstn_exact, skipn_exact.
    replace (protect_cb INLINE_TAG [] (TICK :: code ++ [TICK]))
      with (u "__INLINE_CODE_0__", [TICK :: code ++ [TICK]]) by reflexivity.
    cbn [fst snd].
    rewrite replace_from_no_match; [reflexivity|].
    intros j. destruct (Nat.lt_ge_cases j (length r)) as [Hj|Hj].
    - rewrite <- (app_nil_r r).
      apply no_tick_no_match; [apply re_inline_code_head | exact Hr | exact Hj].
    - rewrite skipn_all2 by exact Hj. reflexivity. }
  unfold protectCodeBlocks. rewrite P1.
  rewrite (replace_from_no_match re_fenced_code).
  - reflexivity.
  - intros j. unfold re_fenced_code.
    replace (starts (u "```") (skipn j _)) with false; [reflexivity|]. symmetry.
    apply no_fence_plain. rewrite forallb_app, Hr. reflexivity.
Qed.

(** A pattern that holds a code unit cannot occur in a text without it. *)
Lemma no_cu_no_occurs (c : cu) (q s : str) :
  In c q -> forallb (is_not c) s = true -> ~ occurs q s.
Proof.
  intros Hin Hs [x [y E]]. rewrite forallb_forall in Hs.
  assert (Hc : In c s) by (rewrite E; apply in_or_app; right; apply in_or_app; auto).
  specialize (Hs c Hc). unfold is_not in Hs. rewrite N.eqb_refl in Hs. discriminate.
Qed.

(** A pattern that starts and ends with a code unit which the texts on
    both sides do not have occurs between them, if it occurs at all. *)
Lemma occurs_between (c : cu) (q a m b : str) :
  forallb (is_not c) a = true -> forallb (is_not c) b = true ->
  occurs (c :: q ++ [c]) (a ++ m ++ b) -> occurs (c :: q ++ [c]) m.
Proof.
  intros Ha Hb [x [y E]].
  assert (Hna : ~ In c a).
  { intros H. rewrite forallb_forall in Ha. specialize (Ha c H).
    unfold is_not in Ha. rewrite N.eqb_refl in Ha. discriminate. }
  assert (Hnb : ~ In c b).
  { intros H. rewrite forallb_forall in Hb. specialize (Hb c H).
    unfold is_not in Hb. rewrite N.eqb_refl in Hb. discriminate. }
  (* the occurrence does not start inside [a] *)
  assert (Hx : exists l, m ++ b = (l ++ c :: q) ++ [c] ++ y) .
  { apply app_eq_app in E as [l [[E1 E2]|[E1 E2]]].
    - destruct l as [|z l].
      + exists []. cbn [app] in *. rewrite <- E2. app_norm.
      + exfalso. apply Hna. cbn [app] in E2. injection E2 as <- _.
        rewrite E1. apply in_or_app. right. left. reflexivity.
    - exists l. rewrite E2. app_norm. }
  destruct Hx as [l Hx].
  (* and it does not end inside [b] *)
  rewrite app_assoc in Hx.
  apply app_eq_app in Hx as [l2 [[F1 F2]|[F1 F2]]].
  - exists l, l2. rewrite F1. app_norm.
  - destruct l2 as [|z2 l2].
    + exists l, []. rewrite app_nil_r in F1. rewrite <- F1. app_norm.
    + exfalso. apply Hnb.
      destruct (exists_last (l := z2 :: l2) ltac:(discriminate)) as (l3 & w & El).
      rewrite El, app_assoc in F1. apply app_inj_tail in F1 as [_ ->].
      rewrite F2, El. apply in_or_app. left. apply in_or_app. right. left.
      reflexivity.
Qed.

(** Restoring a text in which no placeholder tag occurs changes nothing. *)
Lemma restoreCodeBlocks_no_tag (text : str) (table : list str) :
  ~ occurs INLINE_TAG text -> ~ occurs FENCED_TAG text ->
  restoreCodeBlocks text table = text.
Proof.
  intros Hi Hf. unfold restoreCodeBlocks.
  rewrite (replace_fn_no_match (re_placeholder INLINE_TAG))
    by (apply re_placeholder_absent; exact Hi).
  apply replace_fn_no_match, re_placeholder_absent. exact Hf.
Qed.

(** Restoring the first placeholder of inline code, the only one in the
    text. *)
Lemma restoreCodeBlocks_one_placeholder (a b block : str) :
  ~ occurs INLINE_TAG a -> ~ occurs INLINE_TAG b -> block <> [] ->
  ~ occurs FENCED_TAG (a ++ block ++ b) ->
  restoreCodeBlocks (a ++ u "__INLINE_CODE_0__" ++ b) [block] = a ++ block ++ b.
Proof.
  intros Ha Hb Hne Hf. unfold restoreCodeBlocks.
  assert (E : replace_fn (re_placeholder INLINE_TAG) (restore_cb INLINE_TAG [block])
                (a ++ u "__INLINE_CODE_0__" ++ b)
              = a ++ block ++ b).
  { change (u "__INLINE_CODE_0__" ++ b) with (INLINE_TAG ++ u "0" ++ u "__" ++ b).
    rewrite replace_fn_prefix
      by (apply re_placeholder_before; [reflexivity | exact Ha]).
    f_equal.
    rewrite (replace_fn_match _ _ _ _ (re_placeholder_at INLINE_TAG (u "0") b
                                         ltac:(discriminate) eq_refl));
      [| cbn; lia | discriminate].
    change (INLINE_TAG ++ u "0" ++ u "__" ++ b)
      with ((INLINE_TAG ++ u "0" ++ u "__") ++ b).
    change (length INLINE_TAG + length (u "0") + 2)%nat
      with (length (INLINE_TAG ++ u "0" ++ u "__")).
    rewrite firstn_exact, skipn_exact.
    rewrite (restore_cb_at INLINE_TAG [block] (u "0") block eq_refl Hne).
    f_equal. apply replace_fn_no_match, re_placeholder_absent. exact Hb. }
  rewrite E. apply replace_fn_no_match, re_placeholder_absent. exact Hf.
Qed.

Section CodeInBlock.

Variable marked_parse : str -> str.

(** Inline code inside a block: the Code Guard takes the code out first,
    the Bridge is called on the content with the placeholder in the place
    of the code, and [restoreCodeBlocks] runs on the text that holds what
    the Bridge returned. *)
Lemma processAllBlocks_inline_code
  (fuel : nat) (pre cls c1 code c2 tail : str) :
  plain pre = true ->
  cls <> [] ->
  forallb (is_not QUOTE) cls = true -> forallb (is_not TICK) cls = true ->
  plain c1 = true ->
  code <> [] -> forallb (is_not TICK) code = true ->
  plain c2 = true -> plain tail = true ->
  forallb (is_not QUOTE) (marked_parse (c1 ++ u "__INLINE_CODE_0__" ++ c2)) = true ->
  processAllBlocks marked_parse (S (S fuel))
    (pre ++ OPEN_MARK ++ cls ++ QUOTE :: (c1 ++ TICK :: code ++ TICK :: c2)
       ++ CLOSE_MARK ++ tail)
  = Some (restoreCodeBlocks
            (pre
               ++ (DIV_CLASS ++ trim cls ++ [DQUOTE; GT]
                     ++ marked_parse (c1 ++ u "__INLINE_CODE_0__" ++ c2)
                     ++ DIV_CLOSE)
               ++ skipn 1 tail)
            [TICK :: code ++ [TICK]],
          [c1 ++ u "__INLINE_CODE_0__" ++ c2]).
Proof.
  intros Hpre Hne Hq Htc H1 Hcne Hcode H2 Ht Hm.
  apply plain_parts in Hpre as (Hlp & Hqp & Htp).
  apply plain_parts in H1 as (Hl1 & Hq1 & Ht1).
  apply plain_parts in H2 as (Hl2 & Hq2 & Ht2).
  apply plain_parts in Ht as (Hlt & Hqt & Htt).
  set (content := c1 ++ u "__INLINE_CODE_0__" ++ c2) in *.
  set (text := pre ++ OPEN_MARK ++ cls ++ QUOTE :: content ++ CLOSE_MARK ++ tail).
  set (out := pre
                ++ (DIV_CLASS ++ trim cls ++ [DQUOTE; GT]
                      ++ marked_parse content ++ DIV_CLOSE)
                ++ skipn 1 tail).
  assert (Hprot : protectCodeBlocks
                    (pre ++ OPEN_MARK ++ cls ++ QUOTE
                       :: (c1 ++ TICK :: code ++ TICK :: c2) ++ CLOSE_MARK ++ tail)
                  = (text, [TICK :: code ++ [TICK]])).
  { replace (pre ++ OPEN_MARK ++ cls ++ QUOTE
               :: (c1 ++ TICK :: code ++ TICK :: c2) ++ CLOSE_MARK ++ tail)
      with ((pre ++ OPEN_MARK ++ cls ++ QUOTE :: c1)
              ++ TICK :: code ++ TICK :: (c2 ++ CLOSE_MARK ++ tail))
      by (rewrite <- !app_assoc; cbn [app]; rewrite <- !app_assoc; reflexivity).
    rewrite protectCodeBlocks_one_span; try assumption.
    - unfold text, content. f_equal.
      rewrite <- !app_assoc. cbn [app]. rewrite <- ?app_assoc. reflexivity.
    - rewrite !forallb_app. cbn [forallb]. rewrite Htp, Htc, Ht1. reflexivity.
    - rewrite !forallb_app, Ht2, Htt. reflexivity. }
  assert (Hlc : forallb (is_not LANGLE) content = true)
    by (unfold content; rewrite !forallb_app, Hl1, Hl2; reflexivity).
  assert (Htk : forallb (is_not TICK) content = true)
    by (unfold content; rewrite !forallb_app, Ht1, Ht2; reflexivity).
  assert (Hpass : processAngleBlocks marked_parse
                    (processAllBlocks marked_parse (S fuel)) text
                  = Some (out, [] ++ [content])).
  { apply processAngleBlocks_flat; try assumption.
    apply processAllBlocks_plain_content; assumption. }
  assert (Hoq : forallb (is_not QUOTE) out = true).
  { unfold out. rewrite !forallb_app.
    rewrite Hqp, (forallb_trim _ _ Hq), Hm, (forallb_skipn _ 1 _ Hqt). reflexivity. }
  assert (Hdiff : str_eqb out text = false).
  { destruct (str_eqb out text) eqn:E; [|reflexivity]. exfalso.
    apply str_eqb_eq in E. unfold out, text in E.
    apply app_inv_head in E.
    apply (f_equal (fun s => nth_error s 1)) in E.
    rewrite <- !app_assoc in E. discriminate E. }
  assert (Hloop : passes (processAngleBlocks marked_parse
                            (processAllBlocks marked_parse (S fuel))) 20 text
                  = Some (out, [content])).
  { assert (Hrest :
      (if str_eqb out text then ret text
       else passes (processAngleBlocks marked_parse
                      (processAllBlocks marked_parse (S fuel))) 19 out)
      = Some (out, [])).
    { rewrite Hdiff.
      apply (passes_fixpoint _ 18), processAngleBlocks_no_opener,
        no_quote_no_occurs, Hoq. }
    change 20%nat with (S 19).
    exact (bind_some _ _ _ _ _ _ Hpass Hrest). }
  rewrite processAllBlocks_unfold, Hprot.
  cbn [fst snd]. unfold maxIterations. rewrite Hloop. cbn [bind ret].
  unfold removeUnprocessed.
  rewrite (proj2 (includes_false OPEN_MARK out))
    by (apply no_quote_no_occurs, Hoq).
  reflexivity.
Qed.


(** X20.  Inline code inside a block.  The Code Guard takes the code out
    first, and the Bridge is called on the content of the block with the
    placeholder [__INLINE_CODE_0__] in the place of the code.  Whether the
    code comes back is up to what the Bridge returns.  If it returns the
    placeholder as it is, between two texts without underscore, the
    container holds the code in the place of the placeholder.  If what it
    returns holds no placeholder tag any more, as when the two underscores
    on either side are rendered as emphasis, the container holds what the
    Bridge returned and the code is not put back. *)
Theorem processAllBlocks_code_in_block
  (fuel : nat) (pre cls c1 code c2 tail : str) :
  plain pre = true ->
  cls <> [] ->
  forallb (is_not QUOTE) cls = true -> forallb (is_not TICK) cls = true ->
  plain c1 = true ->
  code <> [] -> forallb (is_not TICK) code = true ->
  plain c2 = true -> plain tail = true ->
  forallb (is_not QUOTE) (marked_parse (c1 ++ u "__INLINE_CODE_0__" ++ c2)) = true ->
  forallb (is_not USCORE) pre = true -> forallb (is_not USCORE) cls = true ->
  forallb (is_not USCORE) tail = true ->
  exists html,
    processAllBlocks marked_parse (S (S fuel))
      (pre ++ OPEN_MARK ++ cls ++ QUOTE :: (c1 ++ TICK :: code ++ TICK :: c2)
         ++ CLOSE_MARK ++ tail)
    = Some (html, [c1 ++ u "__INLINE_CODE_0__" ++ c2])
    /\ (forall h1 h2,
          marked_parse (c1 ++ u "__INLINE_CODE_0__" ++ c2)
          = h1 ++ u "__INLINE_CODE_0__" ++ h2 ->
          forallb (is_not USCORE) h1 = true -> forallb (is_not USCORE) h2 = true ->
          includes FENCED_TAG code = false ->
          html = pre ++ DIV_CLASS ++ trim cls ++ [DQUOTE; GT]
                   ++ (h1 ++ TICK :: code ++ TICK :: h2)
                   ++ DIV_CLOSE ++ skipn 1 tail)
    /\ (includes INLINE_TAG (marked_parse (c1 ++ u "__INLINE_CODE_0__" ++ c2)) = false ->
        includes FENCED_TAG (marked_parse (c1 ++ u "__INLINE_CODE_0__" ++ c2)) = false ->
        html = pre ++ DIV_CLASS ++ trim cls ++ [DQUOTE; GT]
                 ++ marked_parse (c1 ++ u "__INLINE_CODE_0__" ++ c2)
                 ++ DIV_CLOSE ++ skipn 1 tail).
Proof.
  intros Hpre Hne Hq Htc H1 Hcne Hcode H2 Ht Hm Upre Ucls Utail.
  eexists. split.
  { apply processAllBlocks_inline_code; assumption. }
  set (m := marked_parse (c1 ++ u "__INLINE_CODE_0__" ++ c2)).
  set (f1 := pre ++ DIV_CLASS ++ trim cls ++ [DQUOTE; GT]).
  set (f2 := DIV_CLOSE ++ skipn 1 tail).
  assert (U1 : forallb (is_not USCORE) f1 = true).
  { unfold f1. rewrite !forallb_app, Upre, (forallb_trim _ _ Ucls). reflexivity. }
  assert (U2 : forallb (is_not USCORE) f2 = true).
  { unfold f2. rewrite forallb_app, (forallb_skipn _ 1 _ Utail). reflexivity. }
  assert (Eout : pre ++ (DIV_CLASS ++ trim cls ++ [DQUOTE; GT] ++ m ++ DIV_CLOSE)
                   ++ skipn 1 tail
                 = f1 ++ m ++ f2).
  { unfold f1, f2. rewrite <- !app_assoc. reflexivity. }
  rewrite Eout. split.
  - (* the placeholder comes back from the Bridge *)
    intros h1 h2 Em Uh1 Uh2 Hfc. rewrite Em.
    transitivity ((f1 ++ h1) ++ (TICK :: code ++ [TICK]) ++ (h2 ++ f2)).
    + replace (f1 ++ (h1 ++ u "__INLINE_CODE_0__" ++ h2) ++ f2)
        with ((f1 ++ h1) ++ u "__INLINE_CODE_0__" ++ (h2 ++ f2))
        by (rewrite <- !app_assoc; reflexivity).
      apply restoreCodeBlocks_one_placeholder.
      * apply (no_cu_no_occurs USCORE); [left; reflexivity|].
        rewrite forallb_app, U1, Uh1. reflexivity.
      * apply (no_cu_no_occurs USCORE); [left; reflexivity|].
        rewrite forallb_app, U2, Uh2. reflexivity.
      * discriminate.
      * intros Hocc. apply includes_false in Hfc. apply Hfc.
        apply (occurs_between USCORE (u "_FENCED_CODE")
                 ((f1 ++ h1) ++ [TICK]) code (TICK :: h2 ++ f2)).
        -- rewrite !forallb_app, U1, Uh1. reflexivity.
        -- cbn [forallb]. rewrite forallb_app, U2, Uh2. reflexivity.
        -- replace (((f1 ++ h1) ++ [TICK]) ++ code ++ TICK :: h2 ++ f2)
             with ((f1 ++ h1) ++ (TICK :: code ++ [TICK]) ++ h2 ++ f2)
             by (rewrite <- !app_assoc; cbn [app]; rewrite <- !app_assoc;
                 reflexivity).
           exact Hocc.
    + unfold f1, f2. rewrite <- !app_assoc. cbn [app]. rewrite <- !app_assoc.
      reflexivity.
  - (* the Bridge has rewritten the placeholder *)
    intros Hi Hf.
    transitivity (f1 ++ m ++ f2).
    + apply restoreCodeBlocks_no_tag.
      * intros Hocc. apply includes_false in Hi. apply Hi.
        exact (occurs_between USCORE (u "_INLINE_CODE") f1 m f2 U1 U2 Hocc).
      * intros Hocc. apply includes_false in Hf. apply Hf.
        exact (occurs_between USCORE (u "_FENCED_CODE") f1 m f2 U1 U2 Hocc).
    + unfold f1, f2. rewrite <- !app_assoc. reflexivity.
Qed.

End CodeInBlock.

Lemma processAllBlocks_code_in_block_witness :
  let strong := fun _ : str => u "<p>use <strong>INLINE_CODE_0</strong> here</p>" in
  plain (u "a ") = true
  /\ u "box" <> []
  /\ forallb (is_not QUOTE) (u "box") = true
  /\ forallb (is_not TICK) (u "box") = true
  /\ plain (u "use ") = true
  /\ u "</> x" <> []
  /\ forallb (is_not TICK) (u "</> x") = true
  /\ plain (u " here") = true /\ plain (u "! b") = true
  /\ forallb (is_not QUOTE)
       (strong (u "use " ++ u "__INLINE_CODE_0__" ++ u " here")) = true
  /\ forallb (is_not USCORE) (u "a ") = true
  /\ forallb (is_not USCORE) (u "box") = true
  /\ forallb (is_not USCORE) (u "! b") = true
  /\ exists html,
       processAllBlocks strong 2
         (u "a " ++ OPEN_MARK ++ u "box" ++ QUOTE
            :: (u "use " ++ TICK :: u "</> x" ++ TICK :: u " here")
            ++ CLOSE_MARK ++ u "! b")
       = Some (html, [u "use " ++ u "__INLINE_CODE_0__" ++ u " here"])
       /\ (forall h1 h2,
             strong (u "use " ++ u "__INLINE_CODE_0__" ++ u " here")
             = h1 ++ u "__INLINE_CODE_0__" ++ h2 ->
             forallb (is_not USCORE) h1 = true -> forallb (is_not USCORE) h2 = true ->
             includes FENCED_TAG (u "</> x") = false ->
             html = u "a " ++ DIV_CLASS ++ trim (u "box") ++ [DQUOTE; GT]
                      ++ (h1 ++ TICK :: u "</> x" ++ TICK :: h2)
                      ++ DIV_CLOSE ++ skipn 1 (u "! b"))
       /\ (includes INLINE_TAG
             (strong (u "use " ++ u "__INLINE_CODE_0__" ++ u " here")) = false ->
           includes FENCED_TAG
             (strong (u "use " ++ u "__INLINE_CODE_0__" ++ u " here")) = false ->
           html = u "a " ++ DIV_CLASS ++ trim (u "box") ++ [DQUOTE; GT]
                    ++ strong (u "use " ++ u "__INLINE_CODE_0__" ++ u " here")
                    ++ DIV_CLOSE ++ skipn 1 (u "! b")).
Proof.
  cbv zeta.
  split; [reflexivity|]. split; [discriminate|].
  split; [reflexivity|]. split; [reflexivity|]. split; [reflexivity|].
  split; [discriminate|]. split; [reflexivity|]. split; [reflexivity|].
  split; [reflexivity|]. split; [reflexivity|]. split; [reflexivity|].
  split; [reflexivity|]. split; [reflexivity|].
  apply (processAllBlocks_code_in_block
           (fun _ : str => u "<p>use <strong>INLINE_CODE_0</strong> here</p>") 0
           (u "a ") (u "box") (u "use ") (u "</> x") (u " here") (u "! b"));
    try reflexivity; discriminate.
Defined.

(** The two outcomes on one block.  A Bridge that renders the placeholder
    as emphasis: the code is lost.  A Bridge that leaves the placeholder
    alone: the code is back. *)
Example processAllBlocks_code_lost :
  processAllBlocks (fun _ : str => u "<p>use <strong>INLINE_CODE_0</strong> here</p>") 2
    (u "a <>'box'use `</> x` here</>! b")
  = Some (u "a " ++ DIV_CLASS ++ u "box" ++ [DQUOTE; GT]
            ++ u "<p>use <strong>INLINE_CODE_0</strong> here</p></div> b",
          [u "use __INLINE_CODE_0__ here"]).
Proof. vm_compute. reflexivity. Qed.

Example processAllBlocks_code_kept :
  processAllBlocks paragraph_bridge 2 (u "a <>'box'use `</> x` here</>! b")
  = Some (u "a " ++ DIV_CLASS ++ u "box" ++ [DQUOTE; GT]
            ++ u "<p>use `</> x` here</p></div> b",
          [u "use __INLINE_CODE_0__ here"]).
Proof. vm_compute. reflexivity. Qed.

